(** * Sudoku-Solver: the solving engine, embedded and verified

    Sources embedded here:
    - [linked_list.c]          the singly linked container,
    - [sudoku_cell.c]          the cell record and its eligible-value list,
    - [sudoku_solver_utils.c]  the solver functions ([solve_sudoku],
      [empty_unknowns_list], [solve_elimination_method], the
      [update_constraints] family, [solve_backtrack_method],
      [duplicate_board], [duplicate_unknown_list]).

    Modelling conventions.
    - A C [int] that holds a digit or a return code is a [Z]; loop counters,
      lengths and array indices, which the code keeps non-negative, are [nat].
    - A value of type [Linked_List A] or [Cell] stands for a non-NULL pointer
      to a live object; [calloc] is taken to succeed.  A function that can
      still answer NULL (or -1) on such arguments returns an [option].
    - Mutation in place is explicit state passing: a function that mutates
      its argument returns the new value of that argument.
    - [while] loops whose termination is not syntactic take a [fuel] argument
      and answer [None] when it runs out; termination is proved separately. *)

From Stdlib Require Import List ZArith Lia Bool Arith PeanoNat Sorted Permutation.
From Stdlib Require Ascii.
Import ListNotations.

Set Implicit Arguments.

(* ================================================================= *)
(** ** linked_list.c *)

Module LinkedList.

Section Container.
Variable A : Type.

(** [struct Linked_List]: the chain of nodes from [front], and the optional
    comparator.  The value handler only releases memory and has no
    counterpart here. *)
Record Linked_List : Type := Build_List {
  front : list A;
  sort_sequence : option (A -> A -> Z)
}.

Definition list_empty : Linked_List :=
  {| front := []; sort_sequence := None |}.

Definition list_sort_sequence (l : Linked_List) (f : A -> A -> Z) : Linked_List :=
  {| front := front l; sort_sequence := Some f |}.

Definition list_is_empty (l : Linked_List) : bool :=
  match front l with [] => true | _ :: _ => false end.

Definition list_length (l : Linked_List) : nat := length (front l).

(** The comparator branch of [list_insert]: the new node goes before the
    first node with [sort <= 0], or after the last node. *)
Fixpoint insert_sorted (cmp : A -> A -> Z) (value : A) (nodes : list A) : list A :=
  match nodes with
  | [] => [value]
  | current :: rest =>
      if (cmp value current <=? 0)%Z then value :: current :: rest
      else current :: insert_sorted cmp value rest
  end.

Definition list_insert (l : Linked_List) (value : A) : Linked_List :=
  if list_is_empty l then
    {| front := [value]; sort_sequence := sort_sequence l |}
  else
    match sort_sequence l with
    | None => {| front := value :: front l; sort_sequence := None |}
    | Some cmp =>
        {| front := insert_sorted cmp value (front l); sort_sequence := Some cmp |}
    end.

(** Positions are 1-based; out of range answers NULL. *)
Definition list_inspect (l : Linked_List) (pos : nat) : option A :=
  if (pos =? 0) || (list_length l <? pos) then None
  else nth_error (front l) (pos - 1).

Definition list_remove (l : Linked_List) (pos : nat) : option Linked_List :=
  if (pos =? 0) || (list_length l <? pos) then None
  else Some {| front := firstn (pos - 1) (front l) ++ skipn pos (front l);
               sort_sequence := sort_sequence l |}.

(** A call whose result the caller ignores: the list after the call. *)
Definition list_remove_ (l : Linked_List) (pos : nat) : Linked_List :=
  match list_remove l pos with Some l' => l' | None => l end.

(** The effect of mutating, through the pointer [list_inspect] gave, the
    object stored at [pos]. *)
Definition list_mutate (l : Linked_List) (pos : nat) (value : A) : Linked_List :=
  if (pos =? 0) || (list_length l <? pos) then l
  else {| front := firstn (pos - 1) (front l) ++ value :: skipn pos (front l);
          sort_sequence := sort_sequence l |}.
End Container.

Arguments list_empty {A}.

End LinkedList.

Import LinkedList.

(* ================================================================= *)
(** ** sudoku_cell.c *)

(** [struct Cell], with the [Position] struct flattened; the accessors carry
    the names of the C getters. *)
Record Cell : Type := Build_Cell {
  cell_grid_pos : nat;
  cell_x_pos : nat;
  cell_y_pos : nat;
  eligible_values : Linked_List Z
}.

Definition set_eligible_values (c : Cell) (l : Linked_List Z) : Cell :=
  {| cell_grid_pos := cell_grid_pos c; cell_x_pos := cell_x_pos c;
     cell_y_pos := cell_y_pos c; eligible_values := l |}.

Definition cell_eligible_values_length (c : Cell) : nat :=
  list_length (eligible_values c).

(** The loop of [get_eligible_values_new]: [n] iterations remain, [i] is the
    loop counter. *)
Fixpoint fill_eligible_values (n i : nat) (l : Linked_List Z) : Linked_List Z :=
  match n with
  | 0 => l
  | S n' => fill_eligible_values n' (S i) (list_insert l (Z.of_nat (i + 1)))
  end.

Definition get_eligible_values_new (grid_size : nat) : Linked_List Z :=
  fill_eligible_values grid_size 0 list_empty.

Definition cell_create (grid x y grid_size : nat) : Cell :=
  {| cell_grid_pos := grid; cell_x_pos := x; cell_y_pos := y;
     eligible_values := get_eligible_values_new grid_size |}.

Definition cell_inspect_eligible_values (c : Cell) (pos : nat) : Z :=
  match list_inspect (eligible_values c) pos with
  | None => (-1)%Z
  | Some val => val
  end.

(** The loop of [cell_update_eligible_values].  [None] is the NULL answer,
    given before anything was removed. *)
Fixpoint scan_eligible_values (n i : nat) (c : Cell) (remove_val : Z) : option Cell :=
  match n with
  | 0 => Some c
  | S n' =>
      let val := cell_inspect_eligible_values c (i + 1) in
      if (val =? -1)%Z then None
      else if (val =? remove_val)%Z then
        match list_remove (eligible_values c) (i + 1) with
        | None => None
        | Some l => Some (set_eligible_values c l)
        end
      else scan_eligible_values n' (S i) c remove_val
  end.

Definition cell_update_eligible_values (c : Cell) (remove_val : Z) : option Cell :=
  scan_eligible_values (cell_eligible_values_length c) 0 c remove_val.

(** Inner loop of [set_eligible_values_duplicate]: look for [original_v] in
    [temp_values] from index [j]; on a match remove it, decrement
    [grid_size] and break. *)
Fixpoint duplicate_match (n j : nat) (original_v : option Z)
    (temp_values : Linked_List Z) (grid_size : nat)
  : option (Linked_List Z * nat) :=
  match n with
  | 0 => Some (temp_values, grid_size)
  | S n' =>
      match original_v, list_inspect temp_values (j + 1) with
      | Some ov, Some tv =>
          if (ov =? tv)%Z then
            match list_remove temp_values (j + 1) with
            | None => None
            | Some t => Some (t, grid_size - 1)
            end
          else duplicate_match n' (S j) original_v temp_values grid_size
      | _, _ => None
      end
  end.

(** First outer loop: every value of the original is struck from
    [temp_values]. *)
Fixpoint duplicate_strike (n i : nat) (original : Linked_List Z)
    (temp_values : Linked_List Z) (grid_size : nat) : option (Linked_List Z) :=
  match n with
  | 0 => Some temp_values
  | S n' =>
      match duplicate_match grid_size 0 (list_inspect original (i + 1))
              temp_values grid_size with
      | None => None
      | Some (t, g) => duplicate_strike n' (S i) original t g
      end
  end.

(** Second loop: what is left in [temp_values] is removed from the new cell. *)
Fixpoint duplicate_narrow (n i : nat) (temp_values : Linked_List Z)
    (new_cell : Cell) : option Cell :=
  match n with
  | 0 => Some new_cell
  | S n' =>
      match list_inspect temp_values (i + 1) with
      | None => None
      | Some tv =>
          match cell_update_eligible_values new_cell tv with
          | None => None
          | Some c => duplicate_narrow n' (S i) temp_values c
          end
      end
  end.

(** [None] is the answer -1; [Some c] is the answer 1 with [new_cell]
    mutated into [c]. *)
Definition set_eligible_values_duplicate (new_cell original_cell : Cell) : option Cell :=
  let values_size := cell_eligible_values_length original_cell in
  let grid_size := cell_eligible_values_length new_cell in
  let temp_values := get_eligible_values_new grid_size in
  match duplicate_strike values_size 0 (eligible_values original_cell)
          temp_values grid_size with
  | None => None
  | Some temp_values =>
      duplicate_narrow (list_length temp_values) 0 temp_values new_cell
  end.

Definition cell_duplicate (original_cell : Cell) (grid_size : nat) : option Cell :=
  let grid := cell_grid_pos original_cell in
  let x := cell_x_pos original_cell in
  let y := cell_y_pos original_cell in
  let new_cell := cell_create grid x y grid_size in
  set_eligible_values_duplicate new_cell original_cell.

(* ================================================================= *)
(** ** sudoku_solver_utils.c *)

Definition GRID_SIZE : nat := 9.
Definition X_SIZE : nat := 3.
Definition Y_SIZE : nat := 3.
Definition GRIDS_IN_ROW_NUM : nat := 3.
Definition GRIDS_IN_COL_NUM : nat := 3.

Definition SUCCESS_RET : Z := 1.
Definition STALEMATE_RET : Z := 0.
Definition ERROR_RET : Z := -1.

(** [int board[GRID_SIZE][Y_SIZE][X_SIZE]]: [board grid y x] is the C
    expression [board[grid][y][x]]. *)
Definition Board : Type := nat -> nat -> nat -> Z.

(** The assignment [board[grid][y][x] = value]. *)
Definition board_store (board : Board) (grid y x : nat) (value : Z) : Board :=
  fun g' y' x' =>
    if (g' =? grid) && (y' =? y) && (x' =? x) then value else board g' y' x'.

(** A position of the board, in index order (grid, y, x). *)
Definition Pos : Type := (nat * nat * nat)%type.

Definition board_at (board : Board) (p : Pos) : Z :=
  let '(grid, y, x) := p in board grid y x.

Definition cell_pos (c : Cell) : Pos :=
  (cell_grid_pos c, cell_y_pos c, cell_x_pos c).

Definition pos_eqb (p q : Pos) : bool :=
  let '(g, y, x) := p in
  let '(g', y', x') := q in
  (g =? g') && (y =? y') && (x =? x').

(** The 81 digits in scan order. *)
Definition board_digits (board : Board) : list Z :=
  flat_map (fun grid =>
    flat_map (fun y => map (fun x => board grid y x) (seq 0 X_SIZE))
             (seq 0 Y_SIZE))
    (seq 0 GRID_SIZE).

(** *** The scopes, as the validation loops read them

    [check_each_grid], [check_each_row] and [check_each_column] fill
    [digits] with the nine entries of one scope at a time.  The loops are
    kept, with the read [board[grid][y][x]] abstracted as [read]. *)
Section Scopes.
Variable A : Type.
Variable read : nat -> nat -> nat -> A.

Definition each_grid : list (list A) :=
  map (fun grid =>
         fold_left (fun digits y =>
           fold_left (fun digits x => digits ++ [read grid y x])
                     (seq 0 X_SIZE) digits)
           (seq 0 Y_SIZE) [])
      (seq 0 GRID_SIZE).

Definition each_row : list (list A) :=
  let step (st : nat * nat * list (list A)) (row : nat) :=
    let '(start_grid, y, found) := st in
    let '(start_grid, y) :=
      if row mod X_SIZE =? 0
      then ((if row =? 0 then 0 else start_grid + GRIDS_IN_ROW_NUM), 0)
      else (start_grid, y) in
    let '(_, digits) :=
      fold_left (fun (gd : nat * list A) (_ : nat) =>
                   let '(grid, digits) := gd in
                   (grid + 1,
                    fold_left (fun digits x => digits ++ [read grid y x])
                              (seq 0 X_SIZE) digits))
                (seq 0 Y_SIZE) (start_grid, []) in
    (start_grid, y + 1, found ++ [digits]) in
  snd (fold_left step (seq 0 GRID_SIZE) (0, 0, [])).

Definition each_column : list (list A) :=
  let step (st : nat * nat * list (list A)) (col : nat) :=
    let '(start_grid, x, found) := st in
    let '(start_grid, x) :=
      if col mod Y_SIZE =? 0
      then ((if col =? 0 then 0 else start_grid + 1), 0)
      else (start_grid, x) in
    let '(_, digits) :=
      fold_left (fun (gd : nat * list A) (_ : nat) =>
                   let '(grid, digits) := gd in
                   (grid + GRIDS_IN_ROW_NUM,
                    fold_left (fun digits y => digits ++ [read grid y x])
                              (seq 0 X_SIZE) digits))
                (seq 0 Y_SIZE) (start_grid, []) in
    (start_grid, x + 1, found ++ [digits]) in
  snd (fold_left step (seq 0 GRID_SIZE) (0, 0, [])).

Definition each_scope : list (list A) :=
  each_grid ++ each_row ++ each_column.
End Scopes.

(** The 27 scopes as digit lists, and as position lists. *)
Definition scopes (board : Board) : list (list Z) := each_scope board.

Definition scope_positions : list (list Pos) :=
  Eval cbv in each_scope (fun grid y x => (grid, y, x)).

(** The 81 positions in the order the triple loops scan them. *)
Definition cells : list Pos :=
  Eval cbv in
    flat_map (fun grid =>
      flat_map (fun y => map (fun x => (grid, y, x)) (seq 0 X_SIZE))
               (seq 0 Y_SIZE))
      (seq 0 GRID_SIZE).

(** *** Building the unknown-cell list *)

Definition empty_unknowns_list (board : Board) : Linked_List Cell :=
  fold_left (fun unknowns grid =>
    fold_left (fun unknowns y =>
      fold_left (fun unknowns x =>
        if (board grid y x =? 0)%Z
        then list_insert unknowns (cell_create grid x y GRID_SIZE)
        else unknowns)
        (seq 0 X_SIZE) unknowns)
      (seq 0 Y_SIZE) unknowns)
    (seq 0 GRID_SIZE) list_empty.

(** *** Elimination *)

(** One [if ((remove_num = board[..]) != 0) { if (cell_update... == NULL)
    return false; }] step.  The flag is [false] once the function has
    returned false; the cell is then left as it was at that point. *)
Definition remove_known (remove_num : Z) (st : bool * Cell) : bool * Cell :=
  let (ok, c) := st in
  if ok then
    if (remove_num =? 0)%Z then st
    else match cell_update_eligible_values c remove_num with
         | None => (false, c)
         | Some c' => (true, c')
         end
  else st.

Definition update_constraints_grid (board : Board) (c : Cell) (grid_pos : nat)
  : bool * Cell :=
  fold_left (fun st y =>
    fold_left (fun st x => remove_known (board grid_pos y x) st)
              (seq 0 X_SIZE) st)
    (seq 0 Y_SIZE) (true, c).

Definition update_constraints_row (board : Board) (c : Cell) (grid_pos y_pos : nat)
  : bool * Cell :=
  let step (st : nat * nat * (bool * Cell)) (row : nat) :=
    let '(grid, x, oc) := st in
    let '(grid, x) :=
      if (row mod X_SIZE =? 0) && negb (row =? 0) then (grid + 1, 0)
      else (grid, x) in
    (grid, x + 1, remove_known (board grid y_pos x) oc) in
  snd (fold_left step (seq 0 GRID_SIZE)
         (grid_pos - grid_pos mod GRIDS_IN_ROW_NUM, 0, (true, c))).

Definition update_constraints_col (board : Board) (c : Cell) (grid_pos x_pos : nat)
  : bool * Cell :=
  let step (st : nat * nat * (bool * Cell)) (col : nat) :=
    let '(grid, y, oc) := st in
    let '(grid, y) :=
      if (col mod Y_SIZE =? 0) && negb (col =? 0) then (grid + 3, 0)
      else (grid, y) in
    (grid, y + 1, remove_known (board grid y x_pos) oc) in
  snd (fold_left step (seq 0 GRID_SIZE) (grid_pos mod Y_SIZE, 0, (true, c))).

Definition update_constraints (board : Board) (c : Cell) (grid_pos x_pos y_pos : nat)
  : bool * Cell :=
  let (ok, c) := update_constraints_grid board c grid_pos in
  if negb ok then (false, c)
  else
    let (ok, c) := update_constraints_row board c grid_pos y_pos in
    if negb ok then (false, c)
    else update_constraints_col board c grid_pos x_pos.

(** How the [for] loop of [solve_elimination_method] ends: by a [return],
    or by running to its bound with the value of [is_modified]. *)
Inductive Pass_Exit : Type :=
| Returned (ret : Z)
| Completed (is_modified : bool).

(** The [for] loop.  [n] is [unknowns_size - i], which drops by one on
    every iteration: either [i++] alone, or [unknowns_size--; i--; i++]. *)
Fixpoint elimination_for (n i : nat) (board : Board) (unknowns : Linked_List Cell)
    (is_modified : bool) : Pass_Exit * Board * Linked_List Cell :=
  match n with
  | 0 => (Completed is_modified, board, unknowns)
  | S n' =>
      match list_inspect unknowns (i + 1) with
      | None => (Returned ERROR_RET, board, unknowns)
      | Some c =>
          let eligible_size := cell_eligible_values_length c in
          if eligible_size =? 0 then (Returned (Z.of_nat eligible_size), board, unknowns)
          else
            let grid_pos := cell_grid_pos c in
            let x_pos := cell_x_pos c in
            let y_pos := cell_y_pos c in
            let (ok, c) := update_constraints board c grid_pos x_pos y_pos in
            let unknowns := list_mutate unknowns (i + 1) c in
            if negb ok then (Returned ERROR_RET, board, unknowns)
            else
              let eligible_size := cell_eligible_values_length c in
              if eligible_size =? 0
              then (Returned (Z.of_nat eligible_size), board, unknowns)
              else if eligible_size =? 1 then
                let value := cell_inspect_eligible_values c 1 in
                let board := board_store board grid_pos y_pos x_pos value in
                let unknowns := list_remove_ unknowns (i + 1) in
                elimination_for n' i board unknowns true
              else elimination_for n' (S i) board unknowns is_modified
      end
  end.

(** The [while (is_modified)] loop; one unit of fuel per pass. *)
Fixpoint elimination_while (fuel : nat) (board : Board) (unknowns : Linked_List Cell)
    (is_modified : bool) : option (Z * Board * Linked_List Cell) :=
  if is_modified then
    match fuel with
    | 0 => None
    | S fuel' =>
        let unknowns_size := list_length unknowns in
        match elimination_for unknowns_size 0 board unknowns false with
        | (Returned ret, board, unknowns) => Some (ret, board, unknowns)
        | (Completed is_modified, board, unknowns) =>
            elimination_while fuel' board unknowns is_modified
        end
    end
  else Some (SUCCESS_RET, board, unknowns).

(** The return code, and the board and the list as the call leaves them. *)
Definition solve_elimination_method (fuel : nat) (board : Board)
    (unknowns : Linked_List Cell) : option (Z * Board * Linked_List Cell) :=
  elimination_while fuel board unknowns true.

(** *** Duplication *)

Definition duplicate_board (new_board original_board : Board) : Board :=
  fold_left (fun new_board grid =>
    fold_left (fun new_board y =>
      fold_left (fun new_board x =>
        board_store new_board grid y x (original_board grid y x))
        (seq 0 X_SIZE) new_board)
      (seq 0 Y_SIZE) new_board)
    (seq 0 GRID_SIZE) new_board.

Fixpoint duplicate_cells (n i : nat) (unknowns list_new : Linked_List Cell)
  : option (Linked_List Cell) :=
  match n with
  | 0 => Some list_new
  | S n' =>
      match list_inspect unknowns (i + 1) with
      | None => None
      | Some original_cell =>
          match cell_duplicate original_cell GRID_SIZE with
          | None => None
          | Some new_cell =>
              duplicate_cells n' (S i) unknowns (list_insert list_new new_cell)
          end
      end
  end.

Definition duplicate_unknown_list (unknowns : Linked_List Cell)
  : option (Linked_List Cell) :=
  duplicate_cells (list_length unknowns) 0 unknowns list_empty.

(** *** Backtracking *)

(** The contents of the local array [board_duplicate] before
    [duplicate_board] overwrites all of it. *)
Definition board_unset : Board := fun _ _ _ => 0%Z.

(** Lines 899-900: the value on trial is the one at position 1, and it is
    struck from the working cell (the answer of the call is ignored). *)
Definition next_trial (cell : Cell) : Z * Cell :=
  let val := cell_inspect_eligible_values cell 1 in
  (val, match cell_update_eligible_values cell val with
        | Some cell' => cell'
        | None => cell
        end).

(** The [while (cell_eligible_values_length(cell) > 0)] loop, one unit of
    fuel per iteration.  [recurse] is the recursive call. *)
Fixpoint trial_loop
    (recurse : Board -> Linked_List Cell -> option (Z * Board * Linked_List Cell))
    (fuel_elim : nat) (grid x y : nat)
    (fuel : nat) (board : Board) (unknowns : Linked_List Cell) (cell : Cell)
  : option (Z * Board * Linked_List Cell) :=
  if 0 <? cell_eligible_values_length cell then
    match fuel with
    | 0 => None
    | S fuel' =>
        match duplicate_unknown_list unknowns with
        | None => Some (ERROR_RET, board, unknowns)
        | Some unknowns_duplicate =>
            let board_duplicate := duplicate_board board_unset board in
            let (val, cell) := next_trial cell in
            let board_duplicate := board_store board_duplicate grid y x val in
            match solve_elimination_method fuel_elim board_duplicate
                    unknowns_duplicate with
            | None => None
            | Some (elret, board_duplicate, unknowns_duplicate) =>
                if (elret =? ERROR_RET)%Z then Some (ERROR_RET, board, unknowns)
                else if (elret =? SUCCESS_RET)%Z then
                  match recurse board_duplicate unknowns_duplicate with
                  | None => None
                  | Some (btret, board_duplicate, _) =>
                      if (btret =? ERROR_RET)%Z
                      then Some (ERROR_RET, board, unknowns)
                      else if (btret =? SUCCESS_RET)%Z
                      then Some (SUCCESS_RET,
                                 duplicate_board board board_duplicate, unknowns)
                      else trial_loop recurse fuel_elim grid x y fuel'
                                      board unknowns cell
                  end
                else trial_loop recurse fuel_elim grid x y fuel'
                                board unknowns cell
            end
        end
    end
  else Some (STALEMATE_RET, board, unknowns).

(** [depth] bounds the nesting of recursive calls; [fuel] is handed to the
    two inner loops (trial iterations and elimination passes). *)
Fixpoint solve_backtrack_method (depth fuel : nat) (board : Board)
    (unknowns : Linked_List Cell) : option (Z * Board * Linked_List Cell) :=
  match depth with
  | 0 => None
  | S depth' =>
      if list_is_empty unknowns then Some (SUCCESS_RET, board, unknowns)
      else
        match list_inspect unknowns 1 with
        | None => Some (ERROR_RET, board, unknowns)
        | Some temp_cell =>
            let temp_eligible_size := cell_eligible_values_length temp_cell in
            if temp_eligible_size =? 0
            then Some (Z.of_nat temp_eligible_size, board, unknowns)
            else
              match cell_duplicate temp_cell GRID_SIZE with
              | None => Some (ERROR_RET, board, unknowns)
              | Some cell =>
                  let unknowns := list_remove_ unknowns 1 in
                  let grid := cell_grid_pos cell in
                  let x := cell_x_pos cell in
                  let y := cell_y_pos cell in
                  trial_loop (solve_backtrack_method depth' fuel) fuel grid x y
                             fuel board unknowns cell
              end
        end
  end.

(** *** The entry point *)

(** How [solve_sudoku] ends.  The two return codes it reads and drops are
    kept in [Solver_Ran]; the two failures are the [run_time_error] exits. *)
Inductive Solve_Outcome : Type :=
| Nothing_To_Solve (board : Board)
| Elimination_Failed (board : Board)
| Backtracking_Failed (board : Board)
| Solver_Ran (elret btret : Z) (board : Board).

Definition solve_sudoku (depth fuel : nat) (board : Board) : option Solve_Outcome :=
  let unknowns := empty_unknowns_list board in
  if list_is_empty unknowns then Some (Nothing_To_Solve board)
  else
    match solve_elimination_method fuel board unknowns with
    | None => None
    | Some (elret, board, unknowns) =>
        if (elret =? ERROR_RET)%Z then Some (Elimination_Failed board)
        else
          match solve_backtrack_method depth fuel board unknowns with
          | None => None
          | Some (btret, board, unknowns) =>
              if (btret =? ERROR_RET)%Z then Some (Backtracking_Failed board)
              else Some (Solver_Ran elret btret board)
          end
    end.

Definition outcome_board (o : Solve_Outcome) : Board :=
  match o with
  | Nothing_To_Solve b | Elimination_Failed b | Backtracking_Failed b
  | Solver_Ran _ _ b => b
  end.

(** *** Board set-up, input and validation *)

Definition init_board (board : Board) : Board :=
  fold_left (fun board grid =>
    fold_left (fun board y =>
      fold_left (fun board x => board_store board grid y x 0%Z)
        (seq 0 X_SIZE) board)
      (seq 0 Y_SIZE) board)
    (seq 0 GRID_SIZE) board.

(** [in_str[i]] as an integer.  The line is the list of its bytes; from
    its end on, the terminating NUL is read.  Plain [char] is signed where
    the program is built (x86-64), so a byte above 127 reads as its value
    minus 256. *)
Definition char_at (in_str : list Ascii.ascii) (i : nat) : Z :=
  let byte := Z.of_nat (Ascii.nat_of_ascii (nth i in_str Ascii.zero)) in
  if (127 <? byte)%Z then (byte - 256)%Z else byte.

(** The character codes of '0' and '9'. *)
Definition CHAR_0 : Z := 48.
Definition CHAR_9 : Z := 57.

Definition validate_digit_input (in_str : list Ascii.ascii) : bool :=
  forallb (fun i =>
             negb ((char_at in_str i <? CHAR_0)%Z || (CHAR_9 <? char_at in_str i)%Z))
          (seq 0 GRID_SIZE).

Definition store_grid_values_input (board : Board) (grid_i : nat)
    (in_str : list Ascii.ascii) : Board :=
  snd (fold_left (fun (st : nat * Board) y =>
         fold_left (fun (st : nat * Board) x =>
                      let (i, board) := st in
                      (i + 1,
                       board_store board grid_i y x (char_at in_str i - CHAR_0)%Z))
                   (seq 0 X_SIZE) st)
       (seq 0 Y_SIZE) (0, board)).

(** [counter[k]++] on the array [counter]; an index past its end touches
    nothing here. *)
Fixpoint counter_bump (counter : list Z) (k : nat) : list Z :=
  match counter, k with
  | [], _ => []
  | c :: rest, 0 => (c + 1)%Z :: rest
  | c :: rest, S k' => c :: counter_bump rest k'
  end.

(** The second loop body of [checks_repeating_digits].  A value below 1
    or above 9 indexes outside [counter], which C leaves undefined; the
    counters are left alone then. *)
Definition count_digit (counter : list Z) (val : Z) : list Z :=
  if (val =? 0)%Z then counter
  else if (val <? 1)%Z then counter
  else counter_bump counter (Z.to_nat (val - 1)).

(** [digits] is the array of the nine entries of a scope. *)
Definition checks_repeating_digits (digits : list Z) : bool :=
  let counter := map (fun _ => (-1)%Z) (seq 0 GRID_SIZE) in
  let counter :=
    fold_left (fun counter j => count_digit counter (nth j digits 0%Z))
              (seq 0 GRID_SIZE) counter in
  existsb (fun k => (1 <? nth k counter 0)%Z) (seq 0 GRID_SIZE).

(** Each of the three checks fills [digits] scope by scope, as [each_grid],
    [each_row] and [each_column] do, and returns false at the first scope
    that [checks_repeating_digits] reports. *)
Definition check_each_grid (board : Board) : bool :=
  forallb (fun digits => negb (checks_repeating_digits digits)) (each_grid board).

Definition check_each_row (board : Board) : bool :=
  forallb (fun digits => negb (checks_repeating_digits digits)) (each_row board).

Definition check_each_column (board : Board) : bool :=
  forallb (fun digits => negb (checks_repeating_digits digits)) (each_column board).

Definition validate_board (board : Board) (solved : bool) : bool :=
  let valid :=
    if check_each_grid board then
      if check_each_row board then
        if check_each_column board then true else false
      else false
    else false in
  if negb valid then false
  else if solved then
    forallb (fun grid =>
      forallb (fun y =>
        forallb (fun x => negb (board grid y x =? 0)%Z) (seq 0 X_SIZE))
        (seq 0 Y_SIZE))
      (seq 0 GRID_SIZE)
  else true.

(** The flag [found] of [print_result_func]: true prints "Solution found!"
    and the board, false prints "Solution not found.". *)
Definition print_result_func (board : Board) : bool := validate_board board true.

(* ================================================================= *)
(** ** Vocabulary of the properties *)

(** Removal of the first occurrence, the list-level effect of a successful
    [cell_update_eligible_values]. *)
Fixpoint remove_first (v : Z) (l : list Z) : list Z :=
  match l with
  | [] => []
  | h :: t => if (h =? v)%Z then t else h :: remove_first v t
  end.

Definition strike_all (vs l : list Z) : list Z :=
  fold_left (fun acc v => remove_first v acc) vs l.

Definition mem (v : Z) (l : list Z) : bool := existsb (Z.eqb v) l.

(** [n; n-1; ...; 1] *)
Definition descending (n : nat) : list Z := rev (map Z.of_nat (seq 1 n)).

Definition list_with_front (A : Type) (l : Linked_List A) (nodes : list A) : Linked_List A :=
  {| front := nodes; sort_sequence := sort_sequence l |}.

Definition cell_with_front (c : Cell) (vs : list Z) : Cell :=
  set_eligible_values c (list_with_front (eligible_values c) vs).

Definition eligible (c : Cell) : list Z := front (eligible_values c).

(** The representation invariant of a cell: its eligible values are
    distinct digits. *)
Definition cell_wf (c : Cell) : Prop :=
  NoDup (eligible c) /\ Forall (fun v => (1 <= v <= 9)%Z) (eligible c).

Definition is_unknown (board : Board) (p : Pos) : bool :=
  (board_at board p =? 0)%Z.

Definition cell_at (p : Pos) : Cell :=
  let '(grid, y, x) := p in cell_create grid x y GRID_SIZE.

(** The record [cell_duplicate] builds from [c]: a fresh cell narrowed to
    the values [c] holds. *)
Definition duplicated (c : Cell) : Cell :=
  {| cell_grid_pos := cell_grid_pos c; cell_x_pos := cell_x_pos c;
     cell_y_pos := cell_y_pos c;
     eligible_values :=
       {| front := filter (fun v => mem v (eligible c)) (descending GRID_SIZE);
          sort_sequence := None |} |}.

(** The [for] loop of [solve_elimination_method] read over the nodes
    themselves: [done] are the records the loop has passed and kept,
    [todo] the records from index [i] on. *)
Fixpoint eliminate_pass (sorter : option (Cell -> Cell -> Z)) (board : Board)
    (done todo : list Cell) (is_modified : bool)
  : Pass_Exit * Board * Linked_List Cell :=
  match todo with
  | [] => (Completed is_modified, board, Build_List done sorter)
  | c :: rest =>
      if cell_eligible_values_length c =? 0
      then (Returned 0, board, Build_List (done ++ c :: rest) sorter)
      else
        let (ok, c') :=
          update_constraints board c (cell_grid_pos c) (cell_x_pos c) (cell_y_pos c) in
        if negb ok then (Returned ERROR_RET, board, Build_List (done ++ c' :: rest) sorter)
        else if cell_eligible_values_length c' =? 0
        then (Returned 0, board, Build_List (done ++ c' :: rest) sorter)
        else if cell_eligible_values_length c' =? 1 then
          eliminate_pass sorter
            (board_store board (cell_grid_pos c) (cell_y_pos c) (cell_x_pos c)
                         (cell_inspect_eligible_values c' 1))
            done rest true
        else eliminate_pass sorter board (done ++ [c']) rest is_modified
  end.

(** The positions [update_constraints] reads for a cell at (grid, y, x):
    its box, then its row, then its column. *)
Definition peers (p : Pos) : list Pos :=
  let '(grid, y, x) := p in
  let r := grid - grid mod 3 in
  let k := grid mod 3 in
  [(grid, 0, 0); (grid, 0, 1); (grid, 0, 2);
   (grid, 1, 0); (grid, 1, 1); (grid, 1, 2);
   (grid, 2, 0); (grid, 2, 1); (grid, 2, 2)]
  ++ [(r, y, 0); (r, y, 1); (r, y, 2);
      (r + 1, y, 0); (r + 1, y, 1); (r + 1, y, 2);
      (r + 1 + 1, y, 0); (r + 1 + 1, y, 1); (r + 1 + 1, y, 2)]
  ++ [(k, 0, x); (k, 1, x); (k, 2, x);
      (k + 3, 0, x); (k + 3, 1, x); (k + 3, 2, x);
      (k + 3 + 3, 0, x); (k + 3 + 3, 1, x); (k + 3 + 3, 2, x)].

(** The digits a narrowing against [board] strikes from a cell at [p]. *)
Definition known_digits (board : Board) (p : Pos) : list Z :=
  filter (fun d => negb (d =? 0)%Z) (map (board_at board) (peers p)).

(** *** Board predicates *)

Definition in_range (p : Pos) : Prop := In p cells.

(** The precondition of [solve_sudoku]: digits 0..9, and in every scope
    each of 1..9 at most once. *)
Definition scope_consistent (board : Board) : Prop :=
  (forall p, in_range p -> (0 <= board_at board p <= 9)%Z) /\
  (forall digits, In digits (scopes board) ->
     forall d, (1 <= d <= 9)%Z -> count_occ Z.eq_dec digits d <= 1).

(** A solved board: digits 1..9 everywhere, and in every scope each of
    1..9 exactly once. *)
Definition solved (board : Board) : Prop :=
  (forall p, in_range p -> (1 <= board_at board p <= 9)%Z) /\
  (forall digits, In digits (scopes board) ->
     forall d, (1 <= d <= 9)%Z -> count_occ Z.eq_dec digits d = 1).

(** Every unknown position of the board has its record in the list. *)
Definition covered (board : Board) (unknowns : list Cell) : Prop :=
  forall p, in_range p -> board_at board p = 0%Z -> In p (map cell_pos unknowns).

(** No eligible value of the cell is a digit the board shows in the
    cell's box, row or column. *)
Definition narrowed (board : Board) (c : Cell) : Prop :=
  forall v, In v (eligible c) -> ~ In v (known_digits board (cell_pos c)).

Definition has_contradiction (unknowns : list Cell) : Prop :=
  exists c, In c unknowns /\ eligible c = [].

(** Two boards with the same 81 digits. *)
Definition same_digits (b b' : Board) : Prop :=
  forall p, in_range p -> board_at b' p = board_at b p.


(** The cell after a successful narrowing against [board]. *)
Definition narrow_cell (board : Board) (c : Cell) : Cell :=
  cell_with_front c (strike_all (known_digits board (cell_pos c)) (eligible c)).

(** The board-level form of [scope_consistent], over positions. *)
Definition consistent (board : Board) : Prop :=
  (forall p, in_range p -> (0 <= board_at board p <= 9)%Z) /\
  (forall S, In S scope_positions ->
     forall d, (1 <= d <= 9)%Z ->
     count_occ Z.eq_dec (map (board_at board) S) d <= 1).

(** [v] does not occur in any scope through [p]. *)
Definition fresh (board : Board) (p : Pos) (v : Z) : Prop :=
  forall S, In S scope_positions -> In p S ->
  forall q, In q S -> board_at board q <> v.

Definition all_fresh (board : Board) (c : Cell) : Prop :=
  forall v, In v (eligible c) -> fresh board (cell_pos c) v.

(** The state invariant of the solver: a consistent board, a record for
    every unknown position, well-formed records. *)
Definition solver_state (board : Board) (unknowns : list Cell) : Prop :=
  consistent board /\ covered board unknowns /\ Forall cell_wf unknowns.

(** Known digits are never touched: the unknowns lie on positions that
    were 0 in [board0], and [board] agrees with [board0] elsewhere. *)
Definition knowns_kept (board0 board : Board) (unknowns : list Cell) : Prop :=
  (forall p, in_range p -> board_at board0 p <> 0%Z ->
     board_at board p = board_at board0 p) /\
  Forall (fun c => board_at board0 (cell_pos c) = 0%Z) unknowns.

(** When the search may start: the list shows a contradiction, or the
    state is sound and every eligible value is fresh on the board. *)
Definition search_ready (board : Board) (unknowns : list Cell) : Prop :=
  has_contradiction unknowns \/
  (solver_state board unknowns /\ Forall (all_fresh board) unknowns).

(** No position of the board is unknown. *)
Definition complete (board : Board) : Prop :=
  forall p, in_range p -> board_at board p <> 0%Z.

Fixpoint nodupb (l : list Pos) : bool :=
  match l with
  | [] => true
  | p :: t => negb (existsb (pos_eqb p) t) && nodupb t
  end.

(** What the proofs need to know about the 27 scopes: nine distinct
    positions each, all on the board, each read by [update_constraints]
    from any position of the scope. *)
Definition scope_checks : bool :=
  forallb (fun S =>
    (length S =? 9) && nodupb S &&
    forallb (fun p =>
      existsb (pos_eqb p) cells &&
      forallb (fun q => existsb (pos_eqb q) (peers p)) S) S)
    scope_positions.

(** *** Concrete boards used below *)

Definition board_of_digits (digits : list Z) : Board :=
  fun grid y x => nth (grid * 9 + y * 3 + x) digits 0%Z.

Definition board_all_unknown : Board := board_of_digits [].

(** A scope-consistent board on which the first elimination pass commits
    a 1 at (8,2,1) after it has passed (8,2,2), then finds (8,2,0) without
    any eligible value. *)
Definition board_dead_end : Board := board_of_digits
  [0;0;0;0;0;0;0;0;0;
   0;0;0;0;0;0;0;0;0;
   0;2;0;0;0;0;0;0;0;
   0;0;0;0;0;0;0;0;0;
   0;0;0;0;0;0;0;0;0;
   2;0;0;0;0;0;0;0;0;
   0;0;0;0;0;0;9;0;0;
   0;0;0;0;0;0;0;0;0;
   3;4;5;6;7;8;0;0;0]%Z.

(** A complete valid board, and the same board with three entries of the
    last box blanked. *)
Definition board_complete : Board := board_of_digits
  [5;3;4;6;7;2;1;9;8;
   6;7;8;1;9;5;3;4;2;
   9;1;2;3;4;8;5;6;7;
   8;5;9;4;2;6;7;1;3;
   7;6;1;8;5;3;9;2;4;
   4;2;3;7;9;1;8;5;6;
   9;6;1;2;8;7;3;4;5;
   5;3;7;4;1;9;2;8;6;
   2;8;4;6;3;5;1;7;9]%Z.

Definition board_three_unknown : Board := board_of_digits
  [5;3;4;6;7;2;1;9;8;
   6;7;8;1;9;5;3;4;2;
   9;1;2;3;4;8;5;6;7;
   8;5;9;4;2;6;7;1;3;
   7;6;1;8;5;3;9;2;4;
   4;2;3;7;9;1;8;5;6;
   9;6;1;2;8;7;3;4;5;
   5;3;7;4;1;9;2;8;6;
   2;8;4;0;3;5;0;7;0]%Z.

(** A complete valid board with four entries blanked so that two
    completions exist: elimination stalls with 6 and 7 eligible in each of
    the four records. *)
Definition board_two_solutions : Board := board_of_digits
  [5;3;4;6;7;2;1;9;8;
   0;0;8;1;9;5;3;4;2;
   9;1;2;3;4;8;5;6;7;
   8;5;9;4;2;6;7;1;3;
   0;0;1;8;5;3;9;2;4;
   4;2;3;7;9;1;8;5;6;
   9;6;1;2;8;7;3;4;5;
   5;3;7;4;1;9;2;8;6;
   2;8;4;6;3;5;1;7;9]%Z.

(** The precondition as a check that runs. *)
Definition scope_consistentb (board : Board) : bool :=
  forallb (fun p => (0 <=? board_at board p)%Z && (board_at board p <=? 9)%Z) cells &&
  forallb (fun digits =>
             forallb (fun d => count_occ Z.eq_dec digits d <=? 1)
                     [1; 2; 3; 4; 5; 6; 7; 8; 9]%Z)
          (scopes board).

(** [s] agrees with every digit [board] shows. *)
Definition extends (board s : Board) : Prop :=
  forall p, in_range p -> board_at board p <> 0%Z -> board_at s p = board_at board p.

(** The records sit on distinct positions of the board, all unknown. *)
Definition placed (board : Board) (unknowns : list Cell) : Prop :=
  NoDup (map cell_pos unknowns) /\
  Forall (fun c => in_range (cell_pos c) /\ board_at board (cell_pos c) = 0%Z) unknowns.

(** The state still admits the solution [s]: the board shows digits of
    [s] only, and every record holds the digit [s] has at its position. *)
Definition admits (s board : Board) (unknowns : list Cell) : Prop :=
  extends board s /\ placed board unknowns /\
  Forall (fun c => cell_wf c /\ In (board_at s (cell_pos c)) (eligible c)) unknowns.

(** No digit three times in a scope: what the validation loops test. *)
Definition no_triple (board : Board) : Prop :=
  forall digits, In digits (scopes board) ->
  forall d, (1 <= d <= 9)%Z -> count_occ Z.eq_dec digits d < 3.

(** Every position [update_constraints] reads from [p] shares a scope
    with [p]. *)
Definition peer_checks : bool :=
  forallb (fun p =>
    forallb (fun q =>
      existsb (fun S => existsb (pos_eqb p) S && existsb (pos_eqb q) S)
              scope_positions)
      (peers p))
    cells.

(** The relation a comparator induces on stored values. *)
Definition cmp_le (A : Type) (cmp : A -> A -> Z) (a b : A) : Prop :=
  (cmp a b <= 0)%Z.

(** [solved] and [extends] as checks that run. *)
Definition solvedb (board : Board) : bool :=
  forallb (fun p => (1 <=? board_at board p)%Z && (board_at board p <=? 9)%Z) cells &&
  forallb (fun digits =>
             forallb (fun d => count_occ Z.eq_dec digits d =? 1)
                     [1; 2; 3; 4; 5; 6; 7; 8; 9]%Z)
          (scopes board).

Definition extendsb (board s : Board) : bool :=
  forallb (fun p => (board_at board p =? 0)%Z || (board_at s p =? board_at board p)%Z)
          cells.

(** A board whose first box shows the digit 1 twice. *)
Definition board_pair : Board := board_of_digits [1; 1]%Z.

(** [board_complete] with its first entry changed from 5 to 3: a board
    without unknowns whose first box, row and column show 3 twice. *)
Definition board_complete_pair : Board := board_store board_complete 0 0 0 3%Z.

(** The assignments [new_board[grid][y][x] = original_board[grid][y][x]] of
    [duplicate_board], each as the entry assigned and the value stored, in
    the order of its three loops. *)
Definition duplicate_board_writes (original_board : Board) : list (Pos * Z) :=
  fold_left (fun log grid =>
    fold_left (fun log y =>
      fold_left (fun log x => log ++ [((grid, y, x), original_board grid y x)])
        (seq 0 X_SIZE) log)
      (seq 0 Y_SIZE) log)
    (seq 0 GRID_SIZE) [].

(** Replaying a log of assignments on a board. *)
Definition replay_writes (board : Board) (log : list (Pos * Z)) : Board :=
  fold_left (fun board w =>
               let '((grid, y, x), value) := w in board_store board grid y x value)
            log board.

(** A board with 33 unknowns on which the elimination stalls with seven
    records left, the first of them at (2,2,2) with 8 and 7 eligible; the
    trial of 8 fails and the trial of 7 succeeds. *)
Definition board_second_trial : Board := board_of_digits
  [0;3;4;6;7;0;0;0;0;
   6;0;0;1;9;5;3;4;0;
   0;1;0;3;4;0;5;6;0;
   0;5;0;4;0;6;7;1;0;
   7;6;0;8;5;0;9;2;0;
   4;0;3;0;9;0;8;0;0;
   9;6;0;2;8;7;0;4;0;
   5;0;7;4;1;9;0;8;0;
   2;8;0;6;3;5;0;7;0]%Z.

(** [board] with the entry at [p] made unknown. *)
Definition blank (board : Board) (p : Pos) : Board :=
  let '(grid, y, x) := p in board_store board grid y x 0%Z.

(** Case analysis on every comparison of two digits in the goal. *)
Ltac decide_digits :=
  repeat match goal with
         | |- context [Z.eq_dec ?a ?b] => destruct (Z.eq_dec a b); try discriminate
         end.

(* ================================================================= *)
(** * Properties *)

Local Open Scope Z_scope.
Local Open Scope nat_scope.

(** ** The container *)

Section ContainerFacts.
Variable A : Type.
Implicit Types (l : Linked_List A) (pre suf : list A).

Lemma list_with_front_id l : list_with_front l (front l) = l.
Proof. destruct l; reflexivity. Qed.

Lemma list_insert_unsorted l v :
  sort_sequence l = None ->
  list_insert l v = {| front := v :: front l; sort_sequence := None |}.
Proof.
  intros Hs. unfold list_insert, list_is_empty.
  destruct l as [f s]; simpl in *; subst s.
  destruct f; reflexivity.
Qed.

Lemma list_inspect_at l pre v suf :
  front l = pre ++ v :: suf ->
  list_inspect l (length pre + 1) = Some v.
Proof.
  intros Hf. unfold list_inspect, list_length. rewrite Hf, length_app. simpl.
  replace (length pre + 1 =? 0) with false by (symmetry; apply Nat.eqb_neq; lia).
  replace (length pre + S (length suf) <? length pre + 1) with false
    by (symmetry; apply Nat.ltb_ge; lia).
  simpl. rewrite nth_error_app2 by lia.
  replace (length pre + 1 - 1 - length pre) with 0 by lia. reflexivity.
Qed.

Lemma list_remove_at l pre v suf :
  front l = pre ++ v :: suf ->
  list_remove l (length pre + 1) = Some (list_with_front l (pre ++ suf)).
Proof.
  intros Hf. unfold list_remove, list_length. rewrite Hf, length_app. simpl.
  replace (length pre + 1 =? 0) with false by (symmetry; apply Nat.eqb_neq; lia).
  replace (length pre + S (length suf) <? length pre + 1) with false
    by (symmetry; apply Nat.ltb_ge; lia).
  simpl. unfold list_with_front. do 2 f_equal.
  replace (length pre + 1 - 1) with (length pre + 0) by lia.
  rewrite firstn_app_2. simpl. rewrite app_nil_r. f_equal.
  replace (length pre + 1) with (length pre + 1 + 0) by lia.
  rewrite Nat.add_0_r.
  rewrite skipn_app. rewrite skipn_all2 by lia.
  replace (length pre + 1 - length pre) with 1 by lia. reflexivity.
Qed.

Lemma list_mutate_at l pre v suf w :
  front l = pre ++ v :: suf ->
  list_mutate l (length pre + 1) w = list_with_front l (pre ++ w :: suf).
Proof.
  intros Hf. unfold list_mutate, list_length. rewrite Hf, length_app. simpl.
  replace (length pre + 1 =? 0) with false by (symmetry; apply Nat.eqb_neq; lia).
  replace (length pre + S (length suf) <? length pre + 1) with false
    by (symmetry; apply Nat.ltb_ge; lia).
  simpl. unfold list_with_front. f_equal.
  replace (length pre + 1 - 1) with (length pre + 0) by lia.
  rewrite firstn_app_2. simpl. rewrite app_nil_r. do 2 f_equal.
  rewrite skipn_app. rewrite skipn_all2 by lia.
  replace (length pre + 1 - length pre) with 1 by lia. reflexivity.
Qed.
End ContainerFacts.

(** ** Lists of eligible values *)

Lemma remove_first_incl v l x : In x (remove_first v l) -> In x l.
Proof.
  induction l as [|h t IH]; simpl; [tauto|].
  destruct (h =? v)%Z; simpl; tauto.
Qed.

Lemma remove_first_absent v l : ~ In v l -> remove_first v l = l.
Proof.
  induction l as [|h t IH]; simpl; intros H; [reflexivity|].
  destruct (Z.eqb_spec h v) as [->|Hne]; [tauto|].
  f_equal. apply IH. tauto.
Qed.

Lemma remove_first_length v l : length (remove_first v l) <= length l.
Proof.
  induction l as [|h t IH]; simpl; [lia|].
  destruct (h =? v)%Z; simpl; lia.
Qed.

Lemma remove_first_length_in v l :
  In v l -> S (length (remove_first v l)) = length l.
Proof.
  induction l as [|h t IH]; simpl; [tauto|].
  destruct (Z.eqb_spec h v) as [->|Hne]; [reflexivity|].
  intros [H|H]; [congruence|]. simpl. now rewrite IH.
Qed.

Lemma remove_first_filter v l :
  NoDup l -> remove_first v l = filter (fun a => negb (a =? v)%Z) l.
Proof.
  induction 1 as [|h t Hh Hnd IH]; simpl; [reflexivity|].
  destruct (Z.eqb_spec h v) as [->|Hne]; simpl.
  - rewrite <- IH. symmetry. now apply remove_first_absent.
  - now rewrite IH.
Qed.

Lemma remove_first_NoDup v l : NoDup l -> NoDup (remove_first v l).
Proof. intros H. rewrite remove_first_filter by assumption. now apply NoDup_filter. Qed.

Lemma mem_In v l : mem v l = true <-> In v l.
Proof.
  unfold mem. rewrite existsb_exists. split.
  - intros (x & Hx & E). apply Z.eqb_eq in E. now subst.
  - intros H. exists v. split; [assumption|apply Z.eqb_refl].
Qed.

Lemma strike_all_incl vs l x : In x (strike_all vs l) -> In x l.
Proof.
  unfold strike_all. revert l.
  induction vs as [|v vs IH]; simpl; intros l H; [assumption|].
  apply IH in H. eapply remove_first_incl; eassumption.
Qed.

Lemma strike_all_filter vs l :
  NoDup l -> strike_all vs l = filter (fun a => negb (mem a vs)) l.
Proof.
  unfold strike_all. revert l.
  induction vs as [|v vs IH]; simpl; intros l Hnd.
  - induction l as [|h t IHt]; simpl; [reflexivity|].
    f_equal. apply IHt. now inversion Hnd.
  - rewrite IH by now apply remove_first_NoDup.
    rewrite remove_first_filter by assumption.
    clear. induction l as [|h t IHt]; simpl; [reflexivity|].
    destruct (Z.eqb_spec h v) as [->|Hne]; simpl.
    + apply IHt.
    + destruct (negb (mem h vs)); now rewrite IHt.
Qed.

Lemma strike_all_NoDup vs l : NoDup l -> NoDup (strike_all vs l).
Proof. intros H. rewrite strike_all_filter by assumption. now apply NoDup_filter. Qed.

Lemma strike_all_absent vs l :
  (forall v, In v vs -> ~ In v l) -> strike_all vs l = l.
Proof.
  unfold strike_all. revert l.
  induction vs as [|v vs IH]; simpl; intros l H; [reflexivity|].
  rewrite remove_first_absent by (apply H; now left).
  apply IH. intros w Hw. apply H. now right.
Qed.

Lemma strike_all_gone vs l v : NoDup l -> In v vs -> ~ In v (strike_all vs l).
Proof.
  intros Hnd Hv. rewrite strike_all_filter by assumption.
  rewrite filter_In. intros [_ H].
  apply mem_In in Hv. rewrite Hv in H. discriminate.
Qed.

Lemma descending_S n : descending (S n) = Z.of_nat (S n) :: descending n.
Proof.
  unfold descending. rewrite seq_S, map_app, rev_app_distr. reflexivity.
Qed.

Lemma descending_In n v : In v (descending n) <-> (1 <= v <= Z.of_nat n)%Z.
Proof.
  unfold descending. rewrite <- in_rev, in_map_iff. split.
  - intros (k & <- & Hk). apply in_seq in Hk. lia.
  - intros H. exists (Z.to_nat v). split; [lia|]. apply in_seq. lia.
Qed.

Lemma descending_NoDup n : NoDup (descending n).
Proof.
  induction n as [|n IH]; [constructor|].
  rewrite descending_S. constructor; [|assumption].
  rewrite descending_In. lia.
Qed.

Lemma descending_length n : length (descending n) = n.
Proof. unfold descending. now rewrite length_rev, length_map, length_seq. Qed.

(** ** sudoku_cell.c, function by function *)

Lemma cell_with_front_id c : cell_with_front c (eligible c) = c.
Proof. destruct c as [g x y [f s]]; reflexivity. Qed.

Lemma eligible_cell_with_front c vs : eligible (cell_with_front c vs) = vs.
Proof. reflexivity. Qed.

Lemma fill_eligible_values_spec n i l :
  sort_sequence l = None ->
  fill_eligible_values n i l =
    {| front := rev (map Z.of_nat (seq (i + 1) n)) ++ front l;
       sort_sequence := None |}.
Proof.
  revert i l. induction n as [|n IH]; intros i l Hs; simpl.
  - destruct l; simpl in *; now subst.
  - rewrite list_insert_unsorted by assumption.
    rewrite IH by reflexivity. simpl.
    replace (S i + 1) with (S (i + 1)) by lia.
    now rewrite <- app_assoc.
Qed.

Lemma get_eligible_values_new_spec n :
  get_eligible_values_new n = {| front := descending n; sort_sequence := None |}.
Proof.
  unfold get_eligible_values_new. rewrite fill_eligible_values_spec by reflexivity.
  simpl. now rewrite app_nil_r.
Qed.

Lemma cell_inspect_at c pre v suf :
  eligible c = pre ++ v :: suf ->
  cell_inspect_eligible_values c (length pre + 1) = v.
Proof.
  intros H. unfold cell_inspect_eligible_values.
  now rewrite (list_inspect_at (eligible_values c) pre v suf H).
Qed.

(** The scan from index [length pre] on, when it meets no -1 before it
    stops. *)
Lemma scan_eligible_values_spec suf : forall pre c v,
  eligible c = pre ++ suf ->
  ~ In (-1)%Z suf ->
  scan_eligible_values (length suf) (length pre) c v =
    Some (cell_with_front c (pre ++ remove_first v suf)).
Proof.
  induction suf as [|a suf IH]; intros pre c v Hf Hno; simpl.
  - rewrite <- Hf. now rewrite cell_with_front_id.
  - rewrite (cell_inspect_at c pre a suf Hf).
    destruct (Z.eqb_spec a (-1)) as [->|Ha]; [simpl in Hno; tauto|].
    destruct (Z.eqb_spec a v) as [->|Hav].
    + unfold eligible in Hf. rewrite (list_remove_at (eligible_values c) pre v suf Hf). reflexivity.
    + replace (S (length pre)) with (length (pre ++ [a]))
        by (rewrite length_app; simpl; lia).
      rewrite IH.
      * now rewrite <- app_assoc.
      * now rewrite <- app_assoc.
      * simpl in Hno. tauto.
Qed.

Lemma cell_update_spec c v :
  ~ In (-1)%Z (eligible c) ->
  cell_update_eligible_values c v =
    Some (cell_with_front c (remove_first v (eligible c))).
Proof.
  intros H. unfold cell_update_eligible_values, cell_eligible_values_length, list_length.
  apply (scan_eligible_values_spec (eligible c) [] c v); auto.
Qed.

(** Whatever the cell holds, a call either fails and leaves the cell as
    it is, or strikes the first occurrence. *)
Lemma scan_eligible_values_cases suf : forall pre c v,
  eligible c = pre ++ suf ->
  scan_eligible_values (length suf) (length pre) c v = None \/
  scan_eligible_values (length suf) (length pre) c v =
    Some (cell_with_front c (pre ++ remove_first v suf)).
Proof.
  induction suf as [|a suf IH]; intros pre c v Hf; simpl.
  - right. rewrite <- Hf. now rewrite cell_with_front_id.
  - rewrite (cell_inspect_at c pre a suf Hf).
    destruct (a =? -1)%Z; [now left|].
    destruct (Z.eqb_spec a v) as [->|Hav].
    + right. unfold eligible in Hf.
      rewrite (list_remove_at (eligible_values c) pre v suf Hf). reflexivity.
    + replace (S (length pre)) with (length (pre ++ [a]))
        by (rewrite length_app; simpl; lia).
      destruct (IH (pre ++ [a]) c v) as [H|H].
      * now rewrite <- app_assoc.
      * now left.
      * right. rewrite H. now rewrite <- app_assoc.
Qed.

Lemma cell_update_cases c v :
  cell_update_eligible_values c v = None \/
  cell_update_eligible_values c v =
    Some (cell_with_front c (remove_first v (eligible c))).
Proof.
  unfold cell_update_eligible_values, cell_eligible_values_length, list_length.
  apply (scan_eligible_values_cases (eligible c) [] c v). reflexivity.
Qed.

Lemma wf_no_sentinel c : cell_wf c -> ~ In (-1)%Z (eligible c).
Proof.
  intros [_ Hr] Hin. rewrite Forall_forall in Hr. apply Hr in Hin. lia.
Qed.

Lemma cell_wf_with_front c vs :
  NoDup vs -> (forall v, In v vs -> In v (eligible c)) -> cell_wf c ->
  cell_wf (cell_with_front c vs).
Proof.
  intros Hnd Hincl [_ Hr]. split; [exact Hnd|].
  rewrite eligible_cell_with_front. rewrite Forall_forall in *. auto.
Qed.

Lemma duplicate_match_spec suf : forall pre t ov g,
  front t = pre ++ suf ->
  duplicate_match (length suf) (length pre) (Some ov) t g =
    Some (list_with_front t (pre ++ remove_first ov suf),
          if mem ov suf then g - 1 else g).
Proof.
  induction suf as [|a suf IH]; intros pre t ov g Hf; simpl.
  - rewrite <- Hf. now rewrite list_with_front_id.
  - rewrite (list_inspect_at t pre a suf Hf). rewrite (Z.eqb_sym a ov).
    destruct (Z.eqb_spec ov a) as [->|Hne]; simpl.
    + now rewrite (list_remove_at t pre a suf Hf).
    + replace (S (length pre)) with (length (pre ++ [a]))
        by (rewrite length_app; simpl; lia).
      rewrite IH by now rewrite <- app_assoc.
      now rewrite <- app_assoc.
Qed.

Lemma duplicate_strike_spec suf : forall pre original t g,
  front original = pre ++ suf ->
  g = length (front t) ->
  duplicate_strike (length suf) (length pre) original t g =
    Some (list_with_front t (strike_all suf (front t))).
Proof.
  induction suf as [|a suf IH]; intros pre original t g Hf Hg; simpl.
  - now rewrite list_with_front_id.
  - rewrite (list_inspect_at original pre a suf Hf).
    subst g.
    pose proof (@duplicate_match_spec (front t) [] t a (length (front t)) eq_refl) as E.
    simpl in E. rewrite E. clear E.
    replace (S (length pre)) with (length (pre ++ [a]))
      by (rewrite length_app; simpl; lia).
    rewrite IH.
    + reflexivity.
    + now rewrite <- app_assoc.
    + simpl. destruct (mem a (front t)) eqn:E.
      * apply mem_In in E. pose proof (remove_first_length_in a (front t) E). lia.
      * rewrite remove_first_absent; [reflexivity|].
        intros Hin. apply mem_In in Hin. congruence.
Qed.

Lemma duplicate_narrow_spec suf : forall pre t c,
  front t = pre ++ suf ->
  ~ In (-1)%Z (eligible c) ->
  duplicate_narrow (length suf) (length pre) t c =
    Some (cell_with_front c (strike_all suf (eligible c))).
Proof.
  induction suf as [|a suf IH]; intros pre t c Hf Hno; simpl.
  - now rewrite cell_with_front_id.
  - rewrite (list_inspect_at t pre a suf Hf).
    rewrite cell_update_spec by assumption.
    replace (S (length pre)) with (length (pre ++ [a]))
      by (rewrite length_app; simpl; lia).
    rewrite IH.
    + reflexivity.
    + now rewrite <- app_assoc.
    + rewrite eligible_cell_with_front. intros Hin.
      apply remove_first_incl in Hin. tauto.
Qed.

(** What survives the two loops: the values of the fresh list that the
    original holds. *)
Lemma strike_twice full original :
  NoDup full ->
  strike_all (strike_all original full) full =
    filter (fun v => mem v original) full.
Proof.
  intros Hnd. rewrite (strike_all_filter original) by assumption.
  rewrite strike_all_filter by assumption.
  apply filter_ext_in. intros v Hv.
  destruct (mem v original) eqn:E.
  - destruct (mem v (filter (fun a => negb (mem a original)) full)) eqn:E'; [|reflexivity].
    apply mem_In in E'. apply filter_In in E' as [_ E']. now rewrite E in E'.
  - destruct (mem v (filter (fun a => negb (mem a original)) full)) eqn:E'; [reflexivity|].
    exfalso. assert (H : In v (filter (fun a => negb (mem a original)) full)).
    { apply filter_In. split; [assumption|now rewrite E]. }
    apply mem_In in H. congruence.
Qed.

Lemma cell_duplicate_spec c n :
  cell_duplicate c n =
    Some {| cell_grid_pos := cell_grid_pos c; cell_x_pos := cell_x_pos c;
            cell_y_pos := cell_y_pos c;
            eligible_values :=
              {| front := filter (fun v => mem v (eligible c)) (descending n);
                 sort_sequence := None |} |}.
Proof.
  unfold cell_duplicate, set_eligible_values_duplicate, cell_create,
    cell_eligible_values_length, list_length.
  cbn [eligible_values front].
  rewrite !get_eligible_values_new_spec. cbn [eligible_values front].
  rewrite !descending_length.
  pose proof (@duplicate_strike_spec (eligible c) [] (eligible_values c)
                {| front := descending n; sort_sequence := None |} n eq_refl) as E.
  simpl in E. unfold eligible in E. rewrite E by now rewrite descending_length. clear E.
  match goal with |- duplicate_narrow _ 0 ?t ?c = _ =>
    pose proof (@duplicate_narrow_spec (front t) [] t c eq_refl) as E end.
  simpl in E. cbn [front list_with_front]. rewrite E.
  - unfold cell_with_front, set_eligible_values, list_with_front, eligible. simpl.
    now rewrite strike_twice by apply descending_NoDup.
  - unfold eligible. simpl. rewrite descending_In. lia.
Qed.

Lemma filter_descending_sorted (f : Z -> bool) n :
  StronglySorted Z.gt (filter f (descending n)).
Proof.
  induction n as [|n IH]; [constructor|].
  rewrite descending_S. cbn [filter].
  destruct (f (Z.of_nat (S n))); [|assumption].
  constructor; [assumption|].
  rewrite Forall_forall. intros v Hv.
  apply filter_In in Hv as [Hv _]. apply descending_In in Hv. lia.
Qed.

Lemma cell_duplicate_eligible c n c' :
  cell_duplicate c n = Some c' ->
  eligible c' = filter (fun v => mem v (eligible c)) (descending n) /\
  cell_pos c' = cell_pos c.
Proof. rewrite cell_duplicate_spec. intros [= <-]. split; reflexivity. Qed.

Lemma cell_duplicate_wf c c' :
  cell_duplicate c GRID_SIZE = Some c' -> cell_wf c'.
Proof.
  intros H. destruct (cell_duplicate_eligible _ _ H) as [He _].
  split; rewrite He.
  - apply NoDup_filter, descending_NoDup.
  - rewrite Forall_forall. intros v Hv.
    apply filter_In in Hv as [Hv _]. apply descending_In in Hv.
    unfold GRID_SIZE in Hv. lia.
Qed.

Lemma cell_duplicate_members c c' :
  Forall (fun v => (1 <= v <= 9)%Z) (eligible c) ->
  cell_duplicate c GRID_SIZE = Some c' ->
  forall v, In v (eligible c') <-> In v (eligible c).
Proof.
  intros Hr H v. destruct (cell_duplicate_eligible _ _ H) as [He _].
  rewrite He, filter_In, descending_In, mem_In.
  rewrite Forall_forall in Hr. unfold GRID_SIZE. split; [tauto|].
  intros Hin. split; [|assumption]. apply Hr in Hin. lia.
Qed.

Lemma cell_duplicate_subset c c' v :
  cell_duplicate c GRID_SIZE = Some c' -> In v (eligible c') -> In v (eligible c).
Proof.
  intros H. destruct (cell_duplicate_eligible _ _ H) as [He _].
  rewrite He, filter_In, mem_In. tauto.
Qed.

Lemma cell_duplicate_empty c c' :
  eligible c = [] -> cell_duplicate c GRID_SIZE = Some c' -> eligible c' = [].
Proof.
  intros Hc H. destruct (cell_duplicate_eligible _ _ H) as [He _].
  rewrite He, Hc. clear. induction (descending GRID_SIZE); simpl; auto.
Qed.

(** The trial step on a well-formed cell: the head is tried and dropped. *)
Lemma next_trial_spec c v rest :
  cell_wf c -> eligible c = v :: rest ->
  next_trial c = (v, cell_with_front c rest).
Proof.
  intros Hwf He. unfold next_trial.
  rewrite (cell_inspect_at c [] v rest He : cell_inspect_eligible_values c 1 = v).
  rewrite cell_update_spec by now apply wf_no_sentinel.
  rewrite He. simpl. now rewrite Z.eqb_refl.
Qed.

Lemma next_trial_empty c : eligible c = [] -> next_trial c = ((-1)%Z, c).
Proof.
  intros He. unfold next_trial, cell_inspect_eligible_values, list_inspect,
    cell_update_eligible_values, cell_eligible_values_length, list_length.
  unfold eligible in He. rewrite He. reflexivity.
Qed.

Lemma skipn_S_tl (A : Type) k (l : list A) : skipn (S k) l = tl (skipn k l).
Proof.
  revert l. induction k as [|k IH]; intros [|a l]; try reflexivity.
  change (skipn (S (S k)) (a :: l)) with (skipn (S k) l). now rewrite IH.
Qed.

Lemma skipn_incl (A : Type) k (l : list A) x : In x (skipn k l) -> In x l.
Proof.
  revert l. induction k as [|k IH]; intros [|a l]; simpl; auto.
Qed.

Lemma skipn_NoDup (A : Type) k (l : list A) : NoDup l -> NoDup (skipn k l).
Proof.
  revert l. induction k as [|k IH]; intros [|a l] H; simpl; auto.
  apply IH. now inversion H.
Qed.

Lemma skipn_sorted k (l : list Z) :
  StronglySorted Z.gt l -> StronglySorted Z.gt (skipn k l).
Proof.
  revert l. induction k as [|k IH]; intros [|a l] H; simpl; auto.
  apply IH. now inversion H.
Qed.

(** After [k] trials the working cell holds what is left of its list from
    index [k] on. *)
Lemma trials_skip cell k :
  cell_wf cell ->
  Nat.iter k (fun c => snd (next_trial c)) cell =
    cell_with_front cell (skipn k (eligible cell)).
Proof.
  intros Hwf. induction k as [|k IH].
  - simpl. now rewrite cell_with_front_id.
  - cbn [Nat.iter nat_rect]. unfold Nat.iter in IH. rewrite IH.
    rewrite skipn_S_tl.
    assert (Hwf' : cell_wf (cell_with_front cell (skipn k (eligible cell)))).
    { apply cell_wf_with_front; [apply skipn_NoDup, Hwf| |exact Hwf].
      intros v. apply skipn_incl. }
    destruct (skipn k (eligible cell)) as [|v rest] eqn:E.
    + rewrite next_trial_empty by reflexivity. reflexivity.
    + rewrite (@next_trial_spec (cell_with_front cell (v :: rest)) v rest Hwf' eq_refl).
      reflexivity.
Qed.

(** C9: [cell_duplicate] on a cell whose eligible values are distinct
    digits of 1..9 answers a record at the same (grid, x, y) whose eligible
    values have exactly the members of the original's. *)
Theorem cell_duplicate_same_position_same_members (c : Cell) :
  NoDup (eligible c) ->
  Forall (fun v => (1 <= v <= 9)%Z) (eligible c) ->
  exists c',
    cell_duplicate c GRID_SIZE = Some c' /\
    cell_grid_pos c' = cell_grid_pos c /\
    cell_x_pos c' = cell_x_pos c /\
    cell_y_pos c' = cell_y_pos c /\
    (forall v, In v (eligible c') <-> In v (eligible c)).
Proof.
  intros _ Hr. eexists. split; [apply cell_duplicate_spec|].
  split; [reflexivity|]. split; [reflexivity|]. split; [reflexivity|].
  apply cell_duplicate_members; [assumption|apply cell_duplicate_spec].
Qed.

(** The order inside the duplicate is that of a fresh cell, not that of
    the original. *)
Example cell_duplicate_reorders :
  let c := {| cell_grid_pos := 4; cell_x_pos := 1; cell_y_pos := 2;
              eligible_values := {| front := [2; 5; 3]%Z; sort_sequence := None |} |} in
  option_map eligible (cell_duplicate c GRID_SIZE) = Some [5; 3; 2]%Z.
Proof. reflexivity. Qed.

Lemma cell_duplicate_same_position_same_members_witness :
  let c := {| cell_grid_pos := 4; cell_x_pos := 1; cell_y_pos := 2;
              eligible_values := {| front := [2; 5; 3]%Z; sort_sequence := None |} |} in
  exists c',
    cell_duplicate c GRID_SIZE = Some c' /\
    cell_grid_pos c' = 4 /\ cell_x_pos c' = 1 /\ cell_y_pos c' = 2 /\
    (forall v, In v (eligible c') <-> In v [2; 5; 3]%Z).
Proof.
  intros c.
  apply (@cell_duplicate_same_position_same_members c).
  - unfold c, eligible; simpl.
    repeat constructor; simpl; intuition discriminate.
  - unfold c, eligible; simpl. repeat constructor; discriminate.
Defined.

(** A cell created with domain size 9 shows [10 - p] at position [p]; and
    a duplicate gives at every trial step the largest value it still holds,
    which is the value at position 1. *)
Lemma next_trial_takes_largest
    (grid x y p : nat) (temp_cell cell : Cell) (k : nat) :
  1 <= p <= 9 ->
  cell_duplicate temp_cell GRID_SIZE = Some cell ->
  let cell_k := Nat.iter k (fun c => snd (next_trial c)) cell in
  0 < cell_eligible_values_length cell_k ->
  cell_inspect_eligible_values (cell_create grid x y 9) p = (10 - Z.of_nat p)%Z /\
  fst (next_trial cell_k) = cell_inspect_eligible_values cell_k 1 /\
  In (fst (next_trial cell_k)) (eligible cell_k) /\
  (forall v, In v (eligible cell_k) -> (v <= fst (next_trial cell_k))%Z).
Proof.
  intros Hp Hdup cell_k Hlen. split.
  - do 10 (destruct p as [|p]; [try lia; reflexivity|]). lia.
  - pose proof (cell_duplicate_wf _ Hdup) as Hwf.
    destruct (cell_duplicate_eligible _ _ Hdup) as [He _].
    pose proof (filter_descending_sorted (fun v => mem v (eligible temp_cell)) GRID_SIZE)
      as Hs.
    rewrite <- He in Hs. apply (skipn_sorted k) in Hs.
    subst cell_k. rewrite trials_skip in * by assumption.
    unfold cell_eligible_values_length, list_length in Hlen.
    change (front (eligible_values (cell_with_front cell (skipn k (eligible cell)))))
      with (skipn k (eligible cell)) in Hlen.
    rewrite eligible_cell_with_front.
    destruct (skipn k (eligible cell)) as [|v rest] eqn:E; [simpl in Hlen; lia|].
    split; [reflexivity|]. split; [now left|].
    assert (Hv : fst (next_trial (cell_with_front cell (v :: rest))) = v) by reflexivity.
    rewrite Hv. intros w [<-|Hw]; [lia|].
    inversion Hs as [|? ? _ Hall]; subst.
    rewrite Forall_forall in Hall. apply Hall in Hw. lia.
Qed.

(** ** Positions and boards *)

Lemma pos_eqb_eq p q : pos_eqb p q = true <-> p = q.
Proof.
  destruct p as [[g y] x], q as [[g' y'] x']. unfold pos_eqb.
  rewrite !andb_true_iff, !Nat.eqb_eq. split.
  - intros [[-> ->] ->]. reflexivity.
  - intros [= -> -> ->]. auto.
Qed.

Lemma pos_eq_dec (p q : Pos) : {p = q} + {p <> q}.
Proof. repeat decide equality. Defined.

Lemma cells_unfold :
  cells = flat_map (fun grid =>
      flat_map (fun y => map (fun x => (grid, y, x)) (seq 0 X_SIZE))
               (seq 0 Y_SIZE))
      (seq 0 GRID_SIZE).
Proof. reflexivity. Qed.

Lemma cells_in_range grid y x :
  in_range (grid, y, x) <-> grid < 9 /\ y < 3 /\ x < 3.
Proof.
  unfold in_range. rewrite cells_unfold, in_flat_map. split.
  - intros (g & Hg & H). apply in_flat_map in H as (y' & Hy & H).
    apply in_map_iff in H as (x' & [= <- <- <-] & Hx).
    apply in_seq in Hg, Hy, Hx. unfold GRID_SIZE, Y_SIZE, X_SIZE in *. lia.
  - intros (Hg & Hy & Hx). exists grid. split; [apply in_seq; unfold GRID_SIZE; lia|].
    apply in_flat_map. exists y. split; [apply in_seq; unfold Y_SIZE; lia|].
    apply in_map_iff. exists x. split; [reflexivity|apply in_seq; unfold X_SIZE; lia].
Qed.

Lemma cells_NoDup : NoDup cells.
Proof.
  apply (NoDup_map_inv (fun p : Pos => let '(g, y, x) := p in g * 9 + y * 3 + x)).
  change (NoDup (seq 0 81)). apply seq_NoDup.
Qed.

Lemma board_store_same board grid y x v : board_store board grid y x v grid y x = v.
Proof. unfold board_store. now rewrite !Nat.eqb_refl. Qed.

Lemma board_at_store board grid y x v p :
  board_at (board_store board grid y x v) p =
    if pos_eqb p (grid, y, x) then v else board_at board p.
Proof. destruct p as [[g' y'] x']. reflexivity. Qed.

Lemma board_at_store_other board c v p :
  p <> cell_pos c ->
  board_at (board_store board (cell_grid_pos c) (cell_y_pos c) (cell_x_pos c) v) p =
    board_at board p.
Proof.
  intros Hne. rewrite board_at_store.
  destruct (pos_eqb p (cell_grid_pos c, cell_y_pos c, cell_x_pos c)) eqn:E; [|reflexivity].
  apply pos_eqb_eq in E. contradiction.
Qed.

Lemma board_at_store_here board c v :
  board_at (board_store board (cell_grid_pos c) (cell_y_pos c) (cell_x_pos c) v)
           (cell_pos c) = v.
Proof. unfold cell_pos, board_at. apply board_store_same. Qed.

(** [duplicate_board] copies the 81 entries. *)
Lemma duplicate_board_at new_board original_board p :
  in_range p ->
  board_at (duplicate_board new_board original_board) p = board_at original_board p.
Proof.
  unfold in_range, cells. intros H.
  repeat (destruct H as [<-|H]; [reflexivity|]). contradiction.
Qed.

(** ** empty_unknowns_list *)

Lemma fold_left_ext (A B : Type) (f g : A -> B -> A) :
  (forall a b, f a b = g a b) ->
  forall l a, fold_left f l a = fold_left g l a.
Proof.
  intros H l. induction l as [|b l IH]; intros a; simpl; [reflexivity|].
  now rewrite H, IH.
Qed.

Lemma fold_left_map (A B C : Type) (f : A -> C -> A) (g : B -> C) l : forall a,
  fold_left f (map g l) a = fold_left (fun a b => f a (g b)) l a.
Proof. induction l as [|b l IH]; intros a; simpl; [reflexivity|apply IH]. Qed.

Lemma fold_left_flat_map (A B C : Type) (f : A -> C -> A) (g : B -> list C) l :
  forall a,
  fold_left f (flat_map g l) a = fold_left (fun a b => fold_left f (g b) a) l a.
Proof.
  induction l as [|b l IH]; intros a; simpl; [reflexivity|].
  now rewrite fold_left_app, IH.
Qed.

Lemma empty_unknowns_list_scan board :
  empty_unknowns_list board =
    fold_left (fun unknowns p =>
                 if is_unknown board p then list_insert unknowns (cell_at p)
                 else unknowns)
              cells list_empty.
Proof.
  rewrite cells_unfold. unfold empty_unknowns_list.
  rewrite fold_left_flat_map.
  apply fold_left_ext. intros unknowns grid.
  rewrite fold_left_flat_map.
  apply fold_left_ext. intros unknowns' y.
  rewrite fold_left_map. reflexivity.
Qed.

Lemma insert_unknowns_spec board ps : forall l,
  sort_sequence l = None ->
  fold_left (fun unknowns p =>
               if is_unknown board p then list_insert unknowns (cell_at p)
               else unknowns) ps l =
    {| front := rev (map cell_at (filter (is_unknown board) ps)) ++ front l;
       sort_sequence := None |}.
Proof.
  induction ps as [|p ps IH]; intros l Hs; simpl.
  - destruct l; simpl in *; now subst.
  - destruct (is_unknown board p).
    + rewrite list_insert_unsorted by assumption. rewrite IH by reflexivity.
      simpl. now rewrite <- app_assoc.
    + now apply IH.
Qed.

Lemma empty_unknowns_list_spec board :
  empty_unknowns_list board =
    {| front := rev (map cell_at (filter (is_unknown board) cells));
       sort_sequence := None |}.
Proof.
  rewrite empty_unknowns_list_scan, insert_unknowns_spec by reflexivity.
  cbn [front list_empty]. now rewrite app_nil_r.
Qed.

Lemma cell_pos_cell_at p : cell_pos (cell_at p) = p.
Proof. destruct p as [[g y] x]. reflexivity. Qed.

Lemma eligible_cell_at p : eligible (cell_at p) = descending GRID_SIZE.
Proof.
  destruct p as [[g y] x]. unfold cell_at, cell_create, eligible. simpl eligible_values.
  now rewrite get_eligible_values_new_spec.
Qed.

Lemma cell_at_wf p : cell_wf (cell_at p).
Proof.
  split; rewrite eligible_cell_at.
  - apply descending_NoDup.
  - rewrite Forall_forall. intros v Hv. apply descending_In in Hv.
    unfold GRID_SIZE in Hv. lia.
Qed.

Lemma empty_unknowns_list_positions board :
  map cell_pos (front (empty_unknowns_list board)) =
    rev (filter (is_unknown board) cells).
Proof.
  rewrite empty_unknowns_list_spec. cbn [front].
  rewrite map_rev, map_map. f_equal.
  rewrite (map_ext _ (fun p => p)) by apply cell_pos_cell_at. apply map_id.
Qed.

Lemma empty_unknowns_list_In board c :
  In c (front (empty_unknowns_list board)) <->
  exists p, c = cell_at p /\ in_range p /\ board_at board p = 0%Z.
Proof.
  rewrite empty_unknowns_list_spec. cbn [front]. rewrite <- in_rev, in_map_iff.
  unfold in_range, is_unknown. split.
  - intros (p & <- & Hp). apply filter_In in Hp as [Hp Hz].
    apply Z.eqb_eq in Hz. eauto.
  - intros (p & -> & Hp & Hz). exists p. split; [reflexivity|].
    apply filter_In. split; [assumption|]. now apply Z.eqb_eq.
Qed.

Lemma empty_unknowns_list_length board :
  list_length (empty_unknowns_list board) <= 81.
Proof.
  rewrite empty_unknowns_list_spec. unfold list_length. cbn [front].
  rewrite length_rev, length_map.
  pose proof (filter_length_le (is_unknown board) cells) as H.
  exact H.
Qed.

(** ** duplicate_unknown_list *)

Lemma cell_duplicate_duplicated c : cell_duplicate c GRID_SIZE = Some (duplicated c).
Proof. apply cell_duplicate_spec. Qed.

Lemma duplicate_cells_spec suf : forall pre unknowns list_new,
  front unknowns = pre ++ suf ->
  sort_sequence list_new = None ->
  duplicate_cells (length suf) (length pre) unknowns list_new =
    Some {| front := rev (map duplicated suf) ++ front list_new;
            sort_sequence := None |}.
Proof.
  induction suf as [|c suf IH]; intros pre unknowns list_new Hf Hs; simpl.
  - destruct list_new; simpl in *; now subst.
  - rewrite (list_inspect_at unknowns pre c suf Hf).
    rewrite cell_duplicate_duplicated.
    replace (S (length pre)) with (length (pre ++ [c]))
      by (rewrite length_app; simpl; lia).
    rewrite list_insert_unsorted by assumption.
    rewrite IH.
    + simpl. now rewrite <- app_assoc.
    + now rewrite <- app_assoc.
    + reflexivity.
Qed.

Lemma duplicate_unknown_list_spec unknowns :
  duplicate_unknown_list unknowns =
    Some {| front := rev (map duplicated (front unknowns)); sort_sequence := None |}.
Proof.
  unfold duplicate_unknown_list, list_length.
  pose proof (@duplicate_cells_spec (front unknowns) [] unknowns list_empty
                eq_refl eq_refl) as E.
  simpl in E. rewrite E. now rewrite app_nil_r.
Qed.

Lemma cell_pos_duplicated c : cell_pos (duplicated c) = cell_pos c.
Proof. reflexivity. Qed.

Lemma duplicated_wf c : cell_wf (duplicated c).
Proof. apply (@cell_duplicate_wf c). apply cell_duplicate_duplicated. Qed.

Lemma eligible_duplicated c v :
  In v (eligible (duplicated c)) -> In v (eligible c).
Proof. apply cell_duplicate_subset. apply cell_duplicate_duplicated. Qed.

(** C3 (as amended): the list built before solving holds one record per
    unknown position, in the reverse of the scan order (the record created
    last is at position 1); no comparator is registered; and every
    duplicate of a list holds the records in the reverse of its order. *)
Theorem unknowns_in_reverse_creation_order (board : Board) (unknowns : Linked_List Cell) :
  map cell_pos (front (empty_unknowns_list board)) =
    rev (filter (is_unknown board) cells) /\
  NoDup (map cell_pos (front (empty_unknowns_list board))) /\
  list_inspect (empty_unknowns_list board) 1 =
    option_map cell_at (hd_error (rev (filter (is_unknown board) cells))) /\
  sort_sequence (empty_unknowns_list board) = None /\
  exists duplicate,
    duplicate_unknown_list unknowns = Some duplicate /\
    map cell_pos (front duplicate) = rev (map cell_pos (front unknowns)) /\
    sort_sequence duplicate = None.
Proof.
  split; [apply empty_unknowns_list_positions|].
  split.
  { rewrite empty_unknowns_list_positions.
    apply NoDup_rev, NoDup_filter, cells_NoDup. }
  split.
  { rewrite empty_unknowns_list_spec.
    rewrite <- map_rev.
    destruct (rev (filter (is_unknown board) cells)) as [|p ps]; reflexivity. }
  split; [now rewrite empty_unknowns_list_spec|].
  eexists. split; [apply duplicate_unknown_list_spec|].
  split; [|reflexivity].
  cbn [front]. rewrite map_rev, map_map. reflexivity.
Qed.

(** On the board with no known digit the record at position 1 is the one
    of the last position scanned, not of the first. *)
Lemma unknowns_not_in_creation_order :
  ~ (option_map cell_pos (list_inspect (empty_unknowns_list board_all_unknown) 1) =
     hd_error (filter (is_unknown board_all_unknown) cells)).
Proof. vm_compute. discriminate. Qed.

(** ** solve_sudoku on a complete board *)

Lemma filter_none (A : Type) (f : A -> bool) l :
  (forall a, In a l -> f a = false) -> filter f l = [].
Proof.
  induction l as [|a l IH]; intros H; simpl; [reflexivity|].
  rewrite (H a) by now left. apply IH. intros b Hb. apply H. now right.
Qed.

Lemma no_unknown_no_record board :
  (forall grid y x, grid < 9 -> y < 3 -> x < 3 -> board grid y x <> 0%Z) ->
  empty_unknowns_list board = list_empty.
Proof.
  intros H. rewrite empty_unknowns_list_spec.
  rewrite filter_none; [reflexivity|].
  intros [[g y] x] Hp.
  apply cells_in_range in Hp as (Hg & Hy & Hx).
  unfold is_unknown, board_at. apply Z.eqb_neq. auto.
Qed.

(** C10: on a board without any 0, [solve_sudoku] builds an empty list and
    returns at once with the board it was given; it does so whatever fuel
    the two solving loops are allowed, none included, so neither loop is
    entered. *)
Theorem complete_board_left_alone (board : Board) (depth fuel : nat) :
  (forall grid y x, grid < 9 -> y < 3 -> x < 3 -> board grid y x <> 0%Z) ->
  list_is_empty (empty_unknowns_list board) = true /\
  solve_sudoku depth fuel board = Some (Nothing_To_Solve board).
Proof.
  intros H. unfold solve_sudoku. rewrite (no_unknown_no_record board H).
  split; reflexivity.
Qed.

Lemma complete_board_left_alone_witness :
  list_is_empty (empty_unknowns_list board_complete) = true /\
  solve_sudoku 0 0 board_complete = Some (Nothing_To_Solve board_complete).
Proof.
  apply (@complete_board_left_alone board_complete 0 0).
  intros grid y x Hg Hy Hx.
  do 9 (destruct grid as [|grid]; [
    do 3 (destruct y as [|y]; [
      do 3 (destruct x as [|x]; [vm_compute; discriminate|]); lia|]); lia|]).
  lia.
Defined.

(** ** update_constraints *)

Lemma remove_known_failed ps board c :
  fold_left (fun st q => remove_known (board_at board q) st) ps (false, c) = (false, c).
Proof. induction ps as [|q ps IH]; simpl; [reflexivity|exact IH]. Qed.

Lemma update_constraints_grid_peers board c grid :
  update_constraints_grid board c grid =
    fold_left (fun st q => remove_known (board_at board q) st)
      [(grid, 0, 0); (grid, 0, 1); (grid, 0, 2);
       (grid, 1, 0); (grid, 1, 1); (grid, 1, 2);
       (grid, 2, 0); (grid, 2, 1); (grid, 2, 2)] (true, c).
Proof. reflexivity. Qed.

Lemma update_constraints_row_peers board c grid y :
  update_constraints_row board c grid y =
    fold_left (fun st q => remove_known (board_at board q) st)
      [(grid - grid mod 3, y, 0); (grid - grid mod 3, y, 1);
       (grid - grid mod 3, y, 2);
       (grid - grid mod 3 + 1, y, 0); (grid - grid mod 3 + 1, y, 1);
       (grid - grid mod 3 + 1, y, 2);
       (grid - grid mod 3 + 1 + 1, y, 0); (grid - grid mod 3 + 1 + 1, y, 1);
       (grid - grid mod 3 + 1 + 1, y, 2)] (true, c).
Proof. reflexivity. Qed.

Lemma update_constraints_col_peers board c grid x :
  update_constraints_col board c grid x =
    fold_left (fun st q => remove_known (board_at board q) st)
      [(grid mod 3, 0, x); (grid mod 3, 1, x); (grid mod 3, 2, x);
       (grid mod 3 + 3, 0, x); (grid mod 3 + 3, 1, x); (grid mod 3 + 3, 2, x);
       (grid mod 3 + 3 + 3, 0, x); (grid mod 3 + 3 + 3, 1, x);
       (grid mod 3 + 3 + 3, 2, x)] (true, c).
Proof. reflexivity. Qed.

Lemma update_constraints_peers board c grid x y :
  update_constraints board c grid x y =
    fold_left (fun st q => remove_known (board_at board q) st)
              (peers (grid, y, x)) (true, c).
Proof.
  unfold update_constraints, peers. cbv zeta. rewrite !fold_left_app.
  rewrite <- update_constraints_grid_peers.
  destruct (update_constraints_grid board c grid) as [ok c1].
  destruct ok; cbn [negb].
  - rewrite <- update_constraints_row_peers.
    destruct (update_constraints_row board c1 grid y) as [ok c2].
    destruct ok; cbn [negb].
    + now rewrite update_constraints_col_peers.
    + now rewrite remove_known_failed.
  - now rewrite !remove_known_failed.
Qed.

(** A narrowing is a run of removals: the position stays, the list only
    shrinks. *)
Lemma remove_known_run ps board : forall ok c ok' c',
  fold_left (fun st q => remove_known (board_at board q) st) ps (ok, c) = (ok', c') ->
  cell_pos c' = cell_pos c /\
  sort_sequence (eligible_values c') = sort_sequence (eligible_values c) /\
  length (eligible c') <= length (eligible c) /\
  (forall v, In v (eligible c') -> In v (eligible c)).
Proof.
  induction ps as [|q ps IH]; intros ok c ok' c' H; simpl in H.
  - injection H as <- <-. auto.
  - unfold remove_known at 1 in H. destruct ok.
    + destruct (board_at board q =? 0)%Z; [now apply IH in H|].
      destruct (cell_update_cases c (board_at board q)) as [E|E]; rewrite E in H.
      * now apply IH in H.
      * apply IH in H as (Hp & Hs & Hl & Hi).
        rewrite eligible_cell_with_front in *.
        split; [exact Hp|]. split; [exact Hs|].
        split; [pose proof (remove_first_length (board_at board q) (eligible c)); lia|].
        intros v Hv. eapply remove_first_incl; eauto.
    + now apply IH in H.
Qed.

Lemma remove_known_wf ps board : forall c,
  ~ In (-1)%Z (eligible c) ->
  fold_left (fun st q => remove_known (board_at board q) st) ps (true, c) =
    (true, cell_with_front c
             (strike_all (filter (fun d => negb (d =? 0)%Z) (map (board_at board) ps))
                         (eligible c))).
Proof.
  induction ps as [|q ps IH]; intros c Hno; simpl.
  - now rewrite cell_with_front_id.
  - destruct (board_at board q =? 0)%Z eqn:E; simpl.
    + now apply IH.
    + rewrite cell_update_spec by assumption. rewrite IH.
      * reflexivity.
      * rewrite eligible_cell_with_front. intros Hin.
        apply remove_first_incl in Hin. tauto.
Qed.

Lemma update_constraints_wf board c :
  cell_wf c ->
  update_constraints board c (cell_grid_pos c) (cell_x_pos c) (cell_y_pos c) =
    (true, narrow_cell board c).
Proof.
  intros Hwf. rewrite update_constraints_peers.
  now rewrite remove_known_wf by now apply wf_no_sentinel.
Qed.

Lemma update_constraints_shrinks board c ok c' :
  update_constraints board c (cell_grid_pos c) (cell_x_pos c) (cell_y_pos c) = (ok, c') ->
  cell_pos c' = cell_pos c /\
  length (eligible c') <= length (eligible c) /\
  (forall v, In v (eligible c') -> In v (eligible c)).
Proof.
  rewrite update_constraints_peers. intros H.
  apply remove_known_run in H. tauto.
Qed.

Lemma narrow_cell_wf board c : cell_wf c -> cell_wf (narrow_cell board c).
Proof.
  intros Hwf. apply cell_wf_with_front; [|apply strike_all_incl|exact Hwf].
  apply strike_all_NoDup, Hwf.
Qed.

Lemma narrow_cell_pos board c : cell_pos (narrow_cell board c) = cell_pos c.
Proof. reflexivity. Qed.

Lemma narrow_cell_narrowed board c : cell_wf c -> narrowed board (narrow_cell board c).
Proof.
  intros [Hnd _] v Hv Hk. unfold narrow_cell in Hv.
  rewrite eligible_cell_with_front in Hv. rewrite narrow_cell_pos in Hk.
  revert Hv. now apply strike_all_gone.
Qed.

Lemma narrow_cell_fixed board c : narrowed board c -> narrow_cell board c = c.
Proof.
  intros H. unfold narrow_cell. rewrite strike_all_absent.
  - apply cell_with_front_id.
  - intros v Hk Hv. exact (H v Hv Hk).
Qed.

Lemma narrow_cell_subset board c v :
  In v (eligible (narrow_cell board c)) -> In v (eligible c).
Proof. apply strike_all_incl. Qed.

(** ** The elimination pass *)

(** The index loop and the loop over the nodes are the same function. *)
Lemma elimination_for_pass todo : forall done board sorter m,
  elimination_for (length todo) (length done) board
                  (Build_List (done ++ todo) sorter) m =
    eliminate_pass sorter board done todo m.
Proof.
  induction todo as [|c rest IH]; intros done board sorter m; simpl.
  - now rewrite app_nil_r.
  - rewrite (list_inspect_at (Build_List (done ++ c :: rest) sorter) done c rest eq_refl).
    destruct (cell_eligible_values_length c =? 0) eqn:E0;
      [apply Nat.eqb_eq in E0; now rewrite E0|].
    destruct (update_constraints board c (cell_grid_pos c) (cell_x_pos c) (cell_y_pos c))
      as [ok c'].
    rewrite (list_mutate_at (Build_List (done ++ c :: rest) sorter) done c rest c' eq_refl).
    unfold list_with_front. cbn [sort_sequence].
    destruct ok; cbn [negb]; [|reflexivity].
    destruct (cell_eligible_values_length c' =? 0) eqn:E1;
      [apply Nat.eqb_eq in E1; now rewrite E1|].
    destruct (cell_eligible_values_length c' =? 1).
    + unfold list_remove_.
      rewrite (list_remove_at (Build_List (done ++ c' :: rest) sorter) done c' rest eq_refl).
      unfold list_with_front. cbn [sort_sequence]. apply IH.
    + replace (S (length done)) with (length (done ++ [c']))
        by (rewrite length_app; simpl; lia).
      rewrite <- IH. now rewrite <- app_assoc.
Qed.

Lemma elimination_for_whole board unknowns :
  elimination_for (list_length unknowns) 0 board unknowns false =
    eliminate_pass (sort_sequence unknowns) board [] (front unknowns) false.
Proof.
  destruct unknowns as [nodes sorter].
  exact (elimination_for_pass nodes [] board sorter false).
Qed.

(** A pass never lengthens the list, and a pass that sets [is_modified]
    shortens it. *)
Lemma pass_lengths todo : forall sorter board done m ex board' unknowns',
  eliminate_pass sorter board done todo m = (ex, board', unknowns') ->
  sort_sequence unknowns' = sorter /\
  list_length unknowns' <= length done + length todo /\
  (ex = Completed true -> m = true \/ list_length unknowns' < length done + length todo).
Proof.
  induction todo as [|c rest IH]; intros sorter board done m ex board' unknowns' H;
    simpl in H.
  - injection H as <- <- <-. unfold list_length. simpl.
    split; [reflexivity|]. split; [lia|]. intros [= ->]. now left.
  - destruct (cell_eligible_values_length c =? 0).
    { injection H as <- <- <-. unfold list_length. simpl. rewrite length_app. simpl.
      split; [reflexivity|]. split; [lia|]. discriminate. }
    destruct (update_constraints board c (cell_grid_pos c) (cell_x_pos c) (cell_y_pos c))
      as [ok c'].
    destruct ok; cbn [negb] in H.
    2:{ injection H as <- <- <-. unfold list_length. simpl. rewrite length_app. simpl.
        split; [reflexivity|]. split; [lia|]. discriminate. }
    destruct (cell_eligible_values_length c' =? 0).
    { injection H as <- <- <-. unfold list_length. simpl. rewrite length_app. simpl.
      split; [reflexivity|]. split; [lia|]. discriminate. }
    destruct (cell_eligible_values_length c' =? 1).
    + apply IH in H as (Hs & Hl & _). simpl.
      split; [exact Hs|]. split; [lia|]. intros _. right. lia.
    + apply IH in H as (Hs & Hl & Hm). rewrite length_app in *. simpl in *.
      split; [exact Hs|]. split; [lia|]. intros E. destruct (Hm E); [now left|right; lia].
Qed.

(** Whatever the list holds, a [return] inside the pass gives 0 with a
    record left without eligible value, or -1. *)
Lemma pass_returned todo : forall sorter board done m ret board' unknowns',
  eliminate_pass sorter board done todo m = (Returned ret, board', unknowns') ->
  (ret = 0%Z /\ has_contradiction (front unknowns')) \/ ret = ERROR_RET.
Proof.
  induction todo as [|c rest IH]; intros sorter board done m ret board' unknowns' H;
    simpl in H; [discriminate|].
  destruct (cell_eligible_values_length c =? 0) eqn:E0.
  { injection H as <- <- <-. left. split; [reflexivity|].
    exists c. split; [simpl; apply in_or_app; right; now left|].
    apply Nat.eqb_eq in E0. now apply length_zero_iff_nil. }
  destruct (update_constraints board c (cell_grid_pos c) (cell_x_pos c) (cell_y_pos c))
    as [ok c'].
  destruct ok; cbn [negb] in H.
  2:{ injection H as <- <- <-. now right. }
  destruct (cell_eligible_values_length c' =? 0) eqn:E1.
  { injection H as <- <- <-. left. split; [reflexivity|].
    exists c'. split; [simpl; apply in_or_app; right; now left|].
    apply Nat.eqb_eq in E1. now apply length_zero_iff_nil. }
  destruct (cell_eligible_values_length c' =? 1); now apply IH in H.
Qed.

(** A pass that completes without a commit has left the board alone and
    narrowed every record against it, each keeping two values or more. *)
Lemma pass_fixpoint todo : forall sorter board done m board' unknowns',
  eliminate_pass sorter board done todo m = (Completed false, board', unknowns') ->
  m = false /\ board' = board /\
  exists todo',
    unknowns' = Build_List (done ++ todo') sorter /\
    Forall2 (fun c c' =>
               update_constraints board c (cell_grid_pos c) (cell_x_pos c)
                                  (cell_y_pos c) = (true, c') /\
               2 <= length (eligible c')) todo todo'.
Proof.
  induction todo as [|c rest IH]; intros sorter board done m board' unknowns' H;
    simpl in H.
  - injection H as <- <- <-. split; [reflexivity|]. split; [reflexivity|].
    exists []. rewrite app_nil_r. split; [reflexivity|constructor].
  - destruct (cell_eligible_values_length c =? 0); [discriminate|].
    destruct (update_constraints board c (cell_grid_pos c) (cell_x_pos c) (cell_y_pos c))
      as [ok c'] eqn:Eu.
    destruct ok; cbn [negb] in H; [|discriminate].
    destruct (cell_eligible_values_length c' =? 0) eqn:E0; [discriminate|].
    destruct (cell_eligible_values_length c' =? 1) eqn:E1.
    + apply IH in H as (Hm & _). discriminate.
    + apply IH in H as (Hm & Hb & todo' & Hu & Hall).
      split; [exact Hm|]. split; [exact Hb|].
      exists (c' :: todo'). rewrite <- app_assoc in Hu. split; [exact Hu|].
      constructor; [|exact Hall]. split; [exact Eu|].
      apply Nat.eqb_neq in E0, E1.
      unfold cell_eligible_values_length, list_length in *. unfold eligible. lia.
Qed.

(** A record without eligible value stops the pass that reaches it. *)
Lemma pass_contradiction todo : forall sorter board done m ex board' unknowns',
  has_contradiction todo ->
  eliminate_pass sorter board done todo m = (ex, board', unknowns') ->
  exists ret, ex = Returned ret.
Proof.
  induction todo as [|c rest IH]; intros sorter board done m ex board' unknowns' Hc H;
    simpl in H.
  - destruct Hc as (c & [] & _).
  - destruct (cell_eligible_values_length c =? 0) eqn:E0.
    { injection H as <- <- <-. eauto. }
    assert (Hrest : has_contradiction rest).
    { destruct Hc as (c0 & [<-|Hin] & He); [|exists c0; auto].
      apply Nat.eqb_neq in E0. unfold cell_eligible_values_length, list_length in E0.
      unfold eligible in He. rewrite He in E0. simpl in E0. lia. }
    destruct (update_constraints board c (cell_grid_pos c) (cell_x_pos c) (cell_y_pos c))
      as [ok c'].
    destruct ok; cbn [negb] in H.
    2:{ injection H as <- <- <-. eauto. }
    destruct (cell_eligible_values_length c' =? 0).
    { injection H as <- <- <-. eauto. }
    destruct (cell_eligible_values_length c' =? 1); eapply IH; eauto.
Qed.

(** ** The elimination loop *)

(** Every answer of the loop is the outcome of a last pass, reached
    through passes that completed with a commit. *)
Lemma elimination_while_last_pass (P : Board -> Linked_List Cell -> Prop) :
  (forall board unknowns board' unknowns',
     P board unknowns ->
     eliminate_pass (sort_sequence unknowns) board [] (front unknowns) false =
       (Completed true, board', unknowns') ->
     P board' unknowns') ->
  forall fuel board unknowns ret board' unknowns',
  P board unknowns ->
  elimination_while fuel board unknowns true = Some (ret, board', unknowns') ->
  exists board0 unknowns0 ex,
    P board0 unknowns0 /\
    eliminate_pass (sort_sequence unknowns0) board0 [] (front unknowns0) false =
      (ex, board', unknowns') /\
    (ex = Returned ret \/ (ex = Completed false /\ ret = SUCCESS_RET)).
Proof.
  intros Hstep fuel.
  induction fuel as [|fuel IH]; intros board unknowns ret board' unknowns' HP H;
    simpl in H; [discriminate|].
  rewrite elimination_for_whole in H.
  destruct (eliminate_pass (sort_sequence unknowns) board [] (front unknowns) false)
    as [[ex b1] l1] eqn:Epass.
  destruct ex as [r|m].
  - injection H as <- <- <-. exists board, unknowns, (Returned r). auto.
  - destruct m.
    + eapply IH; [|exact H]. eapply Hstep; eauto.
    + destruct fuel; simpl in H; injection H as <- <- <-;
        exists board, unknowns, (Completed false); auto.
Qed.

Lemma elimination_while_total fuel : forall board unknowns,
  list_length unknowns < fuel ->
  exists ret board' unknowns',
    elimination_while fuel board unknowns true = Some (ret, board', unknowns') /\
    list_length unknowns' <= list_length unknowns.
Proof.
  induction fuel as [|fuel IH]; intros board unknowns Hlen; [lia|].
  simpl. rewrite elimination_for_whole.
  destruct (eliminate_pass (sort_sequence unknowns) board [] (front unknowns) false)
    as [[ex b1] l1] eqn:Epass.
  pose proof (pass_lengths _ _ _ _ _ Epass) as (_ & Hl & Hm). simpl in Hl, Hm.
  fold (list_length unknowns) in Hl, Hm.
  destruct ex as [r|m].
  - eauto.
  - destruct m.
    + destruct (Hm eq_refl) as [?|Hlt]; [discriminate|].
      destruct (IH b1 l1) as (ret & b2 & l2 & E & Hl2); [lia|].
      exists ret, b2, l2. split; [exact E|lia].
    + exists SUCCESS_RET, b1, l1. split; [|exact Hl].
      destruct fuel; reflexivity.
Qed.

Lemma pass_wf todo : forall sorter board done m ex board' unknowns',
  Forall cell_wf (done ++ todo) ->
  eliminate_pass sorter board done todo m = (ex, board', unknowns') ->
  Forall cell_wf (front unknowns').
Proof.
  induction todo as [|c rest IH]; intros sorter board done m ex board' unknowns' Hwf H;
    simpl in H.
  - injection H as <- <- <-. simpl. now rewrite app_nil_r in Hwf.
  - destruct (cell_eligible_values_length c =? 0).
    { injection H as <- <- <-. exact Hwf. }
    apply Forall_app in Hwf as [Hd Hcr].
    inversion Hcr as [|? ? Hc Hr]; subst.
    rewrite (update_constraints_wf board Hc) in H. cbn [negb] in H.
    pose proof (narrow_cell_wf board Hc) as Hc'.
    destruct (cell_eligible_values_length (narrow_cell board c) =? 0).
    { injection H as <- <- <-. simpl. apply Forall_app. split; [exact Hd|].
      now constructor. }
    destruct (cell_eligible_values_length (narrow_cell board c) =? 1).
    + eapply IH; [|exact H]. apply Forall_app. now split.
    + eapply IH; [|exact H]. rewrite <- app_assoc. apply Forall_app. split; [exact Hd|].
      now constructor.
Qed.

Lemma pass_wf_whole board unknowns ex board' unknowns' :
  Forall cell_wf (front unknowns) ->
  eliminate_pass (sort_sequence unknowns) board [] (front unknowns) false =
    (ex, board', unknowns') ->
  Forall cell_wf (front unknowns').
Proof. intros HP E. exact (@pass_wf (front unknowns) _ _ [] _ _ _ _ HP E). Qed.

Lemma pass_at_fixpoint sorter board todo : forall done m,
  Forall (fun c => cell_wf c /\ narrowed board c /\ 2 <= length (eligible c)) todo ->
  eliminate_pass sorter board done todo m =
    (Completed m, board, Build_List (done ++ todo) sorter).
Proof.
  induction todo as [|c rest IH]; intros done m Hall; simpl.
  - now rewrite app_nil_r.
  - inversion Hall as [|? ? (Hwf & Hn & Hlen) Hrest]; subst.
    unfold cell_eligible_values_length, list_length. fold (eligible c).
    replace (length (eligible c) =? 0) with false by (symmetry; apply Nat.eqb_neq; lia).
    rewrite (update_constraints_wf board Hwf). cbn [negb].
    rewrite (narrow_cell_fixed Hn). fold (eligible c).
    replace (length (eligible c) =? 0) with false by (symmetry; apply Nat.eqb_neq; lia).
    replace (length (eligible c) =? 1) with false by (symmetry; apply Nat.eqb_neq; lia).
    rewrite IH by assumption. now rewrite <- app_assoc.
Qed.

(** What a successful run leaves: the board of its last pass, and records
    narrowed against that board, two values or more each. *)
Lemma elimination_success_state fuel board unknowns board' unknowns' :
  Forall cell_wf (front unknowns) ->
  elimination_while fuel board unknowns true = Some (SUCCESS_RET, board', unknowns') ->
  Forall (fun c => cell_wf c /\ narrowed board' c /\ 2 <= length (eligible c))
         (front unknowns').
Proof.
  intros Hwf H.
  destruct (elimination_while_last_pass
              (fun _ l => Forall cell_wf (front l))
              (fun b l b' l' HP E => @pass_wf_whole b l _ b' l' HP E)
              fuel board unknowns Hwf H)
    as (b0 & l0 & ex & Hwf0 & Epass & [-> | [-> _]]).
  - apply pass_returned in Epass as [[? _]|?]; discriminate.
  - apply pass_fixpoint in Epass as (_ & Hb & todo' & Hl & Hall). subst board' unknowns'.
    simpl. clear H. revert Hwf0. generalize dependent (front l0). intros nodes Hall.
    induction Hall as [|c c' t t' [Hu Hlen] Hall IH]; intros Hwf0; [constructor|].
    inversion Hwf0 as [|? ? Hc Hr]; subst.
    rewrite (update_constraints_wf b0 Hc) in Hu. injection Hu as <-.
    constructor; [|now apply IH].
    split; [now apply narrow_cell_wf|]. split; [now apply narrow_cell_narrowed|exact Hlen].
Qed.






(** The answer 1 covers both endings: a list emptied by elimination alone,
    and a stalemate with every record still there. *)
Example elimination_solves_three_unknowns :
  match solve_elimination_method 4 board_three_unknown
          (empty_unknowns_list board_three_unknown) with
  | Some (ret, board', unknowns') =>
      ret = SUCCESS_RET /\ front unknowns' = [] /\
      board_digits board' = board_digits board_complete
  | None => False
  end.
Proof. vm_compute. repeat split. Qed.

Example elimination_stalemate_on_empty_board :
  match solve_elimination_method 1 board_all_unknown
          (empty_unknowns_list board_all_unknown) with
  | Some (ret, board', unknowns') =>
      ret = SUCCESS_RET /\ list_length unknowns' = 81
  | None => False
  end.
Proof. vm_compute. repeat split. Qed.

(** C7 (as amended): when the records hold distinct digits and a run of
    the elimination answers 1, a second run on the state it left answers 1
    and leaves that state as it is. *)
Theorem elimination_idempotent_after_progress
    (fuel fuel' : nat) (board board' : Board) (unknowns unknowns' : Linked_List Cell) :
  Forall cell_wf (front unknowns) ->
  solve_elimination_method fuel board unknowns = Some (SUCCESS_RET, board', unknowns') ->
  0 < fuel' ->
  solve_elimination_method fuel' board' unknowns' = Some (SUCCESS_RET, board', unknowns').
Proof.
  unfold solve_elimination_method. intros Hwf H Hfuel.
  pose proof (elimination_success_state _ _ _ Hwf H) as Hfix.
  destruct fuel' as [|f]; [lia|]. simpl.
  rewrite elimination_for_whole.
  rewrite (pass_at_fixpoint (sort_sequence unknowns') [] false Hfix). simpl.
  destruct unknowns' as [nodes sorter]. simpl. destruct f; reflexivity.
Qed.

Lemma elimination_idempotent_after_progress_witness :
  exists board' unknowns',
    solve_elimination_method 4 board_three_unknown
      (empty_unknowns_list board_three_unknown) = Some (SUCCESS_RET, board', unknowns') /\
    solve_elimination_method 1 board' unknowns' = Some (SUCCESS_RET, board', unknowns').
Proof.
  destruct (solve_elimination_method 4 board_three_unknown
              (empty_unknowns_list board_three_unknown))
    as [[[ret board'] unknowns']|] eqn:E.
  - assert (Hret : ret = SUCCESS_RET).
    { pose proof elimination_solves_three_unknowns as X. rewrite E in X. tauto. }
    subst ret. exists board', unknowns'. split; [reflexivity|].
    apply (@elimination_idempotent_after_progress 4 1 board_three_unknown board'
             (empty_unknowns_list board_three_unknown) unknowns').
    + rewrite Forall_forall. intros c Hc.
      apply empty_unknowns_list_In in Hc as (p & -> & _). apply cell_at_wf.
    + exact E.
    + lia.
  - pose proof elimination_solves_three_unknowns as X. rewrite E in X. contradiction.
Defined.

(** On [board_dead_end] the first run answers 0 after it has committed
    a 1 at (8,2,1); the second run then commits a 2 at (8,2,2) before it
    answers 0 in turn. *)
Lemma elimination_not_idempotent_at_dead_end :
  ~ (forall ret1 b1 l1 ret2 b2 l2,
       solve_elimination_method 1 board_dead_end (empty_unknowns_list board_dead_end) =
         Some (ret1, b1, l1) ->
       solve_elimination_method 1 b1 l1 = Some (ret2, b2, l2) ->
       ret2 = ret1 /\ same_digits b1 b2 /\ l2 = l1).
Proof.
  intros H.
  assert (E : match solve_elimination_method 1 board_dead_end
                      (empty_unknowns_list board_dead_end) with
              | Some (_, b1, l1) =>
                  match solve_elimination_method 1 b1 l1 with
                  | Some (_, b2, _) => b1 8 2 2 = 0%Z /\ b2 8 2 2 = 2%Z
                  | None => False
                  end
              | None => False
              end) by (vm_compute; split; reflexivity).
  destruct (solve_elimination_method 1 board_dead_end
              (empty_unknowns_list board_dead_end)) as [[[ret1 b1] l1]|]; [|exact E].
  destruct (solve_elimination_method 1 b1 l1) as [[[ret2 b2] l2]|] eqn:E2; [|exact E].
  destruct (H _ _ _ _ _ _ eq_refl E2) as (_ & Hsame & _).
  assert (Hr : in_range (8, 2, 2)) by (apply cells_in_range; lia).
  specialize (Hsame _ Hr). simpl in Hsame. destruct E as [E1 E2']. congruence.
Qed.

(** ** The backtracking search *)

Lemma list_is_empty_front (A : Type) (l : Linked_List A) :
  list_is_empty l = true <-> front l = [].
Proof. unfold list_is_empty. destruct (front l); split; congruence. Qed.

Lemma list_inspect_first (A : Type) (l : Linked_List A) a rest :
  front l = a :: rest -> list_inspect l 1 = Some a.
Proof. intros H. exact (list_inspect_at l [] a rest H). Qed.

Lemma list_remove_first (A : Type) (l : Linked_List A) a rest :
  front l = a :: rest -> list_remove_ l 1 = list_with_front l rest.
Proof.
  intros H. unfold list_remove_.
  now rewrite (list_remove_at l [] a rest H : list_remove l 1 = _).
Qed.

(** The caller's board is written on the success path only, and then with
    the board of the duplicated branch. *)
Lemma trial_loop_frame recurse fuel_elim grid x y board unknowns fuel :
  forall cell ret board' unknowns',
  trial_loop recurse fuel_elim grid x y fuel board unknowns cell =
    Some (ret, board', unknowns') ->
  unknowns' = unknowns /\
  (ret <> SUCCESS_RET -> board' = board) /\
  (ret = SUCCESS_RET -> exists board_duplicate,
      board' = duplicate_board board board_duplicate).
Proof.
  induction fuel as [|fuel IH]; intros cell ret board' unknowns' H; simpl in H.
  - destruct (0 <? cell_eligible_values_length cell); [discriminate|].
    injection H as <- <- <-. repeat split; auto. discriminate.
  - destruct (0 <? cell_eligible_values_length cell).
    2:{ injection H as <- <- <-. repeat split; auto. discriminate. }
    destruct (duplicate_unknown_list unknowns) as [unknowns_duplicate|].
    2:{ injection H as <- <- <-. repeat split; auto. discriminate. }
    destruct (next_trial cell) as [val cell'].
    destruct (solve_elimination_method _ _ _) as [[[elret bd] ud]|]; [|discriminate].
    destruct (elret =? ERROR_RET)%Z.
    { injection H as <- <- <-. repeat split; auto. discriminate. }
    destruct (elret =? SUCCESS_RET)%Z; [|now apply IH in H].
    destruct (recurse bd ud) as [[[btret bd'] ud']|]; [|discriminate].
    destruct (btret =? ERROR_RET)%Z.
    { injection H as <- <- <-. repeat split; auto. discriminate. }
    destruct (btret =? SUCCESS_RET)%Z; [|now apply IH in H].
    injection H as <- <- <-. repeat split; [congruence|eauto].
Qed.

Lemma backtrack_frame depth fuel board unknowns ret board' unknowns' :
  solve_backtrack_method depth fuel board unknowns = Some (ret, board', unknowns') ->
  (ret <> SUCCESS_RET -> board' = board) /\
  (ret = SUCCESS_RET ->
     (list_is_empty unknowns = true /\ board' = board) \/
     exists board_duplicate, board' = duplicate_board board board_duplicate).
Proof.
  destruct depth as [|depth]; simpl; [discriminate|].
  destruct (list_is_empty unknowns).
  { intros [= <- <- <-]. split; auto. }
  destruct (list_inspect unknowns 1) as [temp_cell|].
  2:{ intros [= <- <- <-]. split; [reflexivity|discriminate]. }
  destruct (cell_eligible_values_length temp_cell =? 0) eqn:E0.
  { apply Nat.eqb_eq in E0. rewrite E0.
    intros [= <- <- <-]. split; [reflexivity|discriminate]. }
  destruct (cell_duplicate temp_cell GRID_SIZE) as [cell|].
  2:{ intros [= <- <- <-]. split; [reflexivity|discriminate]. }
  intros H. apply trial_loop_frame in H as (_ & Hf & Hs). auto.
Qed.

(** C6: a call of [solve_backtrack_method] that does not answer 1 leaves
    the board as it found it; the board is overwritten only on the path
    that answers 1, with the board of the duplicated branch.  So when the
    search of [solve_sudoku] fails, the caller's board is the one the
    top-level elimination left. *)
Theorem failed_search_keeps_board
    (depth fuel : nat) (board : Board) (unknowns : Linked_List Cell)
    (ret : Z) (board' : Board) (unknowns' : Linked_List Cell) :
  solve_backtrack_method depth fuel board unknowns = Some (ret, board', unknowns') ->
  (ret <> SUCCESS_RET -> board' = board /\ board_digits board' = board_digits board) /\
  (ret = SUCCESS_RET ->
     (list_is_empty unknowns = true /\ board' = board) \/
     exists board_duplicate, board' = duplicate_board board board_duplicate) /\
  (forall elret btret final,
     solve_sudoku depth fuel board = Some (Solver_Ran elret btret final) ->
     btret <> SUCCESS_RET ->
     exists unknowns1,
       solve_elimination_method fuel board (empty_unknowns_list board) =
         Some (elret, final, unknowns1)).
Proof.
  intros H. apply backtrack_frame in H as [Hf Hs].
  split; [|split; [exact Hs|]].
  - intros Hne. rewrite (Hf Hne). auto.
  - clear. intros elret btret final. unfold solve_sudoku.
    destruct (list_is_empty (empty_unknowns_list board)); [discriminate|].
    destruct (solve_elimination_method fuel board (empty_unknowns_list board))
      as [[[e b1] l1]|]; [|discriminate].
    destruct (e =? ERROR_RET)%Z; [discriminate|].
    destruct (solve_backtrack_method depth fuel b1 l1) as [[[r b2] l2]|] eqn:E;
      [|discriminate].
    destruct (r =? ERROR_RET)%Z; [discriminate|].
    intros [= <- <- <-] Hne.
    apply backtrack_frame in E as [Hf _]. rewrite (Hf Hne). eauto.
Qed.

Lemma failed_search_keeps_board_witness :
  match solve_elimination_method 1 board_dead_end
          (empty_unknowns_list board_dead_end) with
  | Some (_, b1, l1) =>
      match solve_backtrack_method 2 82 b1 l1 with
      | Some (ret, b2, _) =>
          (ret <> SUCCESS_RET -> b2 = b1 /\ board_digits b2 = board_digits b1) /\
          (ret = SUCCESS_RET ->
             (list_is_empty l1 = true /\ b2 = b1) \/
             exists board_duplicate, b2 = duplicate_board b1 board_duplicate) /\
          (forall elret btret final,
             solve_sudoku 2 82 b1 = Some (Solver_Ran elret btret final) ->
             btret <> SUCCESS_RET ->
             exists unknowns1,
               solve_elimination_method 82 b1 (empty_unknowns_list b1) =
                 Some (elret, final, unknowns1))
      | None => False
      end
  | None => False
  end.
Proof.
  assert (N : match solve_elimination_method 1 board_dead_end
                      (empty_unknowns_list board_dead_end) with
              | Some (_, b1, l1) => solve_backtrack_method 2 82 b1 l1 <> None
              | None => False
              end) by (vm_compute; discriminate).
  destruct (solve_elimination_method 1 board_dead_end
              (empty_unknowns_list board_dead_end)) as [[[e b1] l1]|]; [|exact N].
  destruct (solve_backtrack_method 2 82 b1 l1) as [[[ret b2] l2]|] eqn:E.
  - exact (@failed_search_keeps_board 2 82 b1 l1 ret b2 l2 E).
  - now apply N.
Defined.

(** ** Termination *)

Lemma duplicated_length c : length (eligible (duplicated c)) <= 9.
Proof.
  unfold duplicated, eligible at 1. cbn [eligible_values front].
  pose proof (filter_length_le (fun v => mem v (eligible c)) (descending GRID_SIZE)) as H.
  rewrite descending_length in H. exact H.
Qed.

(** Each trial strikes a value from the working cell, so the loop runs at
    most as many times as the cell has values. *)
Lemma trial_loop_total recurse fuel_elim grid x y board unknowns bound :
  (forall b l, list_length l <= bound -> exists r, recurse b l = Some r) ->
  list_length unknowns <= bound ->
  list_length unknowns < fuel_elim ->
  forall fuel cell,
  cell_wf cell ->
  length (eligible cell) <= fuel ->
  exists r, trial_loop recurse fuel_elim grid x y fuel board unknowns cell = Some r.
Proof.
  intros Hrec Hbound Hfuel fuel.
  induction fuel as [|fuel IH]; intros cell Hwf Hlen.
  - simpl. unfold cell_eligible_values_length, list_length. fold (eligible cell).
    replace (0 <? length (eligible cell)) with false
      by (symmetry; apply Nat.ltb_ge; lia). eauto.
  - cbn [trial_loop].
    destruct (0 <? cell_eligible_values_length cell) eqn:Epos; [|eauto].
    rewrite duplicate_unknown_list_spec.
    set (unknowns_duplicate := Build_List (rev (map duplicated (front unknowns))) None).
    assert (Hdup : list_length unknowns_duplicate = list_length unknowns).
    { unfold list_length, unknowns_duplicate. cbn [front].
      now rewrite length_rev, length_map. }
    apply Nat.ltb_lt in Epos.
    unfold cell_eligible_values_length, list_length in Epos. fold (eligible cell) in Epos.
    destruct (eligible cell) as [|v rest] eqn:Ecell; [simpl in Epos; lia|].
    rewrite (next_trial_spec Hwf Ecell).
    set (cell' := cell_with_front cell rest).
    assert (Hwf' : cell_wf cell').
    { apply cell_wf_with_front; [| |exact Hwf].
      - destruct Hwf as [Hnd _]. rewrite Ecell in Hnd. now inversion Hnd.
      - intros w Hw. rewrite Ecell. now right. }
    assert (Hlen' : length (eligible cell') <= fuel).
    { unfold cell'. rewrite eligible_cell_with_front. simpl in Hlen. lia. }
    unfold solve_elimination_method.
    destruct (@elimination_while_total fuel_elim
                (board_store (duplicate_board board_unset board) grid y x v)
                unknowns_duplicate)
      as (elret & bd & ud & Eel & Hud); [lia|].
    rewrite Eel.
    destruct (elret =? ERROR_RET)%Z; [eauto|].
    destruct (elret =? SUCCESS_RET)%Z; [|now apply IH].
    destruct (Hrec bd ud) as [[[btret bd'] ud'] Erec]; [lia|].
    rewrite Erec.
    destruct (btret =? ERROR_RET)%Z; [eauto|].
    destruct (btret =? SUCCESS_RET)%Z; [eauto|now apply IH].
Qed.

Lemma backtrack_total depth : forall fuel board unknowns,
  list_length unknowns < depth ->
  list_length unknowns < fuel ->
  9 <= fuel ->
  exists r, solve_backtrack_method depth fuel board unknowns = Some r.
Proof.
  induction depth as [|depth IH]; intros fuel board unknowns Hd Hf H9; [lia|].
  simpl. destruct (list_is_empty unknowns) eqn:Eempty; [eauto|].
  destruct (front unknowns) as [|temp_cell rest] eqn:Efront.
  { apply list_is_empty_front in Efront. congruence. }
  rewrite (list_inspect_first unknowns Efront).
  destruct (cell_eligible_values_length temp_cell =? 0); [eauto|].
  rewrite cell_duplicate_duplicated.
  rewrite (list_remove_first unknowns Efront).
  assert (Hrest : list_length (list_with_front unknowns rest) = length rest) by reflexivity.
  assert (Hl : list_length unknowns = S (length rest)).
  { unfold list_length. now rewrite Efront. }
  apply (@trial_loop_total _ fuel _ _ _ board _ (length rest)).
  - intros b l Hb. apply IH; lia.
  - rewrite Hrest. lia.
  - rewrite Hrest. lia.
  - apply duplicated_wf.
  - pose proof (duplicated_length temp_cell). lia.
Qed.

Lemma backtrack_length depth fuel board unknowns ret board' unknowns' :
  solve_backtrack_method depth fuel board unknowns = Some (ret, board', unknowns') ->
  list_length unknowns' <= list_length unknowns.
Proof.
  destruct depth as [|depth]; simpl; [discriminate|].
  destruct (list_is_empty unknowns); [intros [= <- <- <-]; lia|].
  destruct (front unknowns) as [|temp_cell rest] eqn:Efront.
  { unfold list_inspect, list_length. rewrite Efront. simpl.
    intros [= <- <- <-]. rewrite Efront. simpl. lia. }
  rewrite (list_inspect_first unknowns Efront).
  destruct (cell_eligible_values_length temp_cell =? 0); [intros [= <- <- <-]; lia|].
  rewrite cell_duplicate_duplicated, (list_remove_first unknowns Efront).
  intros H. apply trial_loop_frame in H as (-> & _).
  unfold list_length. rewrite Efront. simpl. lia.
Qed.

(** C8: with room for one pass more than the list has records, the
    elimination loop answers, on a list no longer than the one it was
    given; with a recursion depth of one more than the number of records
    (and room for nine trials), the search answers; the list built from a
    board has at most 81 records, so [solve_sudoku] answers within depth
    82. *)
Theorem solver_terminates (board : Board) (unknowns : Linked_List Cell)
    (depth fuel : nat) :
  list_length unknowns < depth ->
  list_length unknowns < fuel ->
  9 <= fuel ->
  (exists ret board' unknowns',
     solve_elimination_method fuel board unknowns = Some (ret, board', unknowns') /\
     list_length unknowns' <= list_length unknowns) /\
  (exists ret board' unknowns',
     solve_backtrack_method depth fuel board unknowns = Some (ret, board', unknowns') /\
     list_length unknowns' <= list_length unknowns) /\
  list_length (empty_unknowns_list board) <= 81 /\
  (exists outcome, solve_sudoku 82 82 board = Some outcome) /\
  (forall board' unknowns',
     elimination_for (list_length unknowns) 0 board unknowns false =
       (Completed true, board', unknowns') ->
     list_length unknowns' < list_length unknowns) /\
  (forall temp_cell cell,
     cell_duplicate temp_cell GRID_SIZE = Some cell ->
     0 < cell_eligible_values_length cell ->
     cell_eligible_values_length (snd (next_trial cell)) <
       cell_eligible_values_length cell).
Proof.
  intros Hd Hf H9. split; [|split; [|split; [|split; [|split]]]].
  6:{ intros temp_cell cell Hdup Hpos. apply cell_duplicate_wf in Hdup.
      unfold cell_eligible_values_length, list_length in *.
      fold (eligible cell) in *. fold (eligible (snd (next_trial cell))).
      destruct (eligible cell) as [|v vs] eqn:E; [simpl in Hpos; lia|].
      rewrite (next_trial_spec Hdup E). cbn [snd].
      rewrite eligible_cell_with_front. simpl. lia. }
  5:{ intros board' unknowns' E. rewrite elimination_for_whole in E.
      apply pass_lengths in E as (_ & _ & Hm).
      destruct (Hm eq_refl) as [?|Hlt]; [discriminate|exact Hlt]. }
  - now apply elimination_while_total.
  - destruct (@backtrack_total depth fuel board unknowns Hd Hf H9) as [[[ret b'] l'] E].
    exists ret, b', l'. split; [exact E|]. eapply backtrack_length; eauto.
  - apply empty_unknowns_list_length.
  - unfold solve_sudoku.
    destruct (list_is_empty (empty_unknowns_list board)); [eauto|].
    pose proof (empty_unknowns_list_length board) as H81.
    destruct (@elimination_while_total 82 board (empty_unknowns_list board))
      as (elret & b1 & l1 & E & Hl1); [lia|].
    unfold solve_elimination_method. rewrite E.
    destruct (elret =? ERROR_RET)%Z; [eauto|].
    destruct (@backtrack_total 82 82 b1 l1) as [[[btret b2] l2] E2]; try lia.
    unfold solve_elimination_method in E2. rewrite E2.
    destruct (btret =? ERROR_RET)%Z; eauto.
Qed.

Lemma solver_terminates_witness :
  (exists ret board' unknowns',
     solve_elimination_method 82 board_all_unknown
       (empty_unknowns_list board_all_unknown) = Some (ret, board', unknowns') /\
     list_length unknowns' <= list_length (empty_unknowns_list board_all_unknown)) /\
  (exists ret board' unknowns',
     solve_backtrack_method 82 82 board_all_unknown
       (empty_unknowns_list board_all_unknown) = Some (ret, board', unknowns') /\
     list_length unknowns' <= list_length (empty_unknowns_list board_all_unknown)) /\
  list_length (empty_unknowns_list board_all_unknown) <= 81 /\
  (exists outcome, solve_sudoku 82 82 board_all_unknown = Some outcome) /\
  (forall board' unknowns',
     elimination_for (list_length (empty_unknowns_list board_all_unknown)) 0
       board_all_unknown (empty_unknowns_list board_all_unknown) false =
       (Completed true, board', unknowns') ->
     list_length unknowns' < list_length (empty_unknowns_list board_all_unknown)) /\
  (forall temp_cell cell,
     cell_duplicate temp_cell GRID_SIZE = Some cell ->
     0 < cell_eligible_values_length cell ->
     cell_eligible_values_length (snd (next_trial cell)) <
       cell_eligible_values_length cell).
Proof.
  apply (@solver_terminates board_all_unknown (empty_unknowns_list board_all_unknown) 82 82).
  - pose proof (empty_unknowns_list_length board_all_unknown). lia.
  - pose proof (empty_unknowns_list_length board_all_unknown). lia.
  - lia.
Defined.

(** ** The scopes *)

Lemma existsb_pos_In p l : existsb (pos_eqb p) l = true <-> In p l.
Proof.
  rewrite existsb_exists. split.
  - intros (q & Hq & E). apply pos_eqb_eq in E. now subst.
  - intros H. exists p. split; [exact H|]. now apply pos_eqb_eq.
Qed.

Lemma nodupb_NoDup l : nodupb l = true -> NoDup l.
Proof.
  induction l as [|p l IH]; simpl; [constructor|].
  rewrite andb_true_iff, negb_true_iff. intros [Hp Hl].
  constructor; [|now apply IH].
  intros Hin. apply existsb_pos_In in Hin. congruence.
Qed.

Lemma scope_checks_hold : scope_checks = true.
Proof. vm_compute. reflexivity. Qed.

Lemma scope_facts S :
  In S scope_positions ->
  length S = 9 /\ NoDup S /\
  (forall p, In p S -> in_range p /\ forall q, In q S -> In q (peers p)).
Proof.
  intros HS. pose proof scope_checks_hold as H. unfold scope_checks in H.
  rewrite forallb_forall in H. specialize (H S HS).
  rewrite !andb_true_iff in H. destruct H as [[Hlen Hnd] Hall].
  split; [now apply Nat.eqb_eq|]. split; [now apply nodupb_NoDup|].
  intros p Hp. rewrite forallb_forall in Hall. specialize (Hall p Hp).
  rewrite andb_true_iff in Hall. destruct Hall as [Hr Hq].
  split; [now apply existsb_pos_In|].
  intros q Hin. rewrite forallb_forall in Hq. now apply existsb_pos_In, Hq.
Qed.

Lemma scopes_positions board :
  scopes board = map (map (board_at board)) scope_positions.
Proof. reflexivity. Qed.

Lemma scope_consistent_consistent board :
  scope_consistent board <-> consistent board.
Proof.
  unfold scope_consistent, consistent. rewrite scopes_positions.
  split; intros [Hr Hc]; (split; [exact Hr|]).
  - intros S HS. apply Hc. now apply in_map.
  - intros digits Hd. apply in_map_iff in Hd as (S & <- & HS). now apply Hc.
Qed.

Lemma consistent_same_digits b b' :
  same_digits b b' -> consistent b -> consistent b'.
Proof.
  intros Hsame [Hr Hc]. split.
  - intros p Hp. rewrite (Hsame p Hp). now apply Hr.
  - intros S HS d Hd.
    rewrite (map_ext_in (board_at b') (board_at b)); [now apply Hc|].
    intros p Hp. apply Hsame.
    destruct (@scope_facts S HS) as (_ & _ & Hall). now apply (Hall p).
Qed.

Lemma fresh_same_digits b b' p v :
  same_digits b b' -> fresh b p v -> fresh b' p v.
Proof.
  intros Hsame Hf S HS Hp q Hq. rewrite (Hsame q); [now apply (Hf S)|].
  destruct (@scope_facts S HS) as (_ & _ & Hall). now apply (Hall q).
Qed.

(** A digit a narrowing leaves is fresh on the board. *)
Lemma narrowed_fresh board c v :
  (v <> 0)%Z -> ~ In v (known_digits board (cell_pos c)) -> fresh board (cell_pos c) v.
Proof.
  intros Hv Hk S HS Hp q Hq E. apply Hk. unfold known_digits.
  apply filter_In. split.
  - rewrite <- E. apply in_map.
    destruct (@scope_facts S HS) as (_ & _ & Hall). now apply (Hall (cell_pos c)).
  - now apply negb_true_iff, Z.eqb_neq.
Qed.

Lemma narrowed_all_fresh board c : cell_wf c -> narrowed board c -> all_fresh board c.
Proof.
  intros [_ Hr] Hn v Hv. apply narrowed_fresh; [|now apply Hn].
  rewrite Forall_forall in Hr. apply Hr in Hv. lia.
Qed.

(** Counting a digit in a scope after one entry of the scope is written. *)
Lemma count_after_store board c v S d :
  NoDup S -> In (cell_pos c) S ->
  count_occ Z.eq_dec
    (map (board_at (board_store board (cell_grid_pos c) (cell_y_pos c) (cell_x_pos c) v)) S) d
  + (if Z.eq_dec (board_at board (cell_pos c)) d then 1 else 0) =
  count_occ Z.eq_dec (map (board_at board) S) d + (if Z.eq_dec v d then 1 else 0).
Proof.
  induction S as [|q S IH]; intros Hnd Hin; [destruct Hin|].
  inversion Hnd as [|? ? Hq HS]; subst. cbn [map count_occ].
  destruct (pos_eq_dec q (cell_pos c)) as [->|Hne].
  - rewrite board_at_store_here.
    rewrite (map_ext_in _ (board_at board)).
    + destruct (Z.eq_dec v d), (Z.eq_dec (board_at board (cell_pos c)) d); lia.
    + intros p Hp. apply board_at_store_other. intros ->. contradiction.
  - rewrite board_at_store_other by assumption.
    destruct Hin as [E|Hin]; [congruence|]. specialize (IH HS Hin).
    destruct (Z.eq_dec (board_at board q) d); lia.
Qed.

Lemma store_consistent board c v :
  consistent board -> (1 <= v <= 9)%Z -> fresh board (cell_pos c) v ->
  consistent (board_store board (cell_grid_pos c) (cell_y_pos c) (cell_x_pos c) v).
Proof.
  intros [Hr Hc] Hv Hf. split.
  - intros p Hp. destruct (pos_eq_dec p (cell_pos c)) as [->|Hne].
    + rewrite board_at_store_here. lia.
    + rewrite board_at_store_other by assumption. now apply Hr.
  - intros S HS d Hd. destruct (@scope_facts S HS) as (_ & Hnd & _).
    destruct (in_dec pos_eq_dec (cell_pos c) S) as [Hin|Hout].
    + pose proof (count_after_store board c v d Hnd Hin) as E.
      specialize (Hc S HS d Hd).
      destruct (Z.eq_dec v d) as [<-|Hvd].
      * assert (H0 : count_occ Z.eq_dec (map (board_at board) S) v = 0).
        { apply count_occ_not_In. intros Hx. apply in_map_iff in Hx as (q & E' & Hq).
          exact (Hf S HS Hin q Hq E'). }
        destruct (Z.eq_dec (board_at board (cell_pos c)) v); lia.
      * destruct (Z.eq_dec (board_at board (cell_pos c)) d); lia.
    + rewrite (map_ext_in _ (board_at board)); [now apply Hc|].
      intros p Hp. apply board_at_store_other. intros ->. contradiction.
Qed.

(** A consistent board without a 0 is solved. *)
Lemma count_digits_sum (l : list Z) :
  Forall (fun v => (1 <= v <= 9)%Z) l ->
  length l =
    count_occ Z.eq_dec l 1%Z + count_occ Z.eq_dec l 2%Z + count_occ Z.eq_dec l 3%Z +
    count_occ Z.eq_dec l 4%Z + count_occ Z.eq_dec l 5%Z + count_occ Z.eq_dec l 6%Z +
    count_occ Z.eq_dec l 7%Z + count_occ Z.eq_dec l 8%Z + count_occ Z.eq_dec l 9%Z.
Proof.
  induction 1 as [|v l Hv _ IH]; [reflexivity|].
  cbn [length count_occ]. rewrite IH.
  assert (Hcases : (v = 1 \/ v = 2 \/ v = 3 \/ v = 4 \/ v = 5 \/ v = 6 \/ v = 7 \/
                    v = 8 \/ v = 9)%Z) by lia.
  repeat (destruct Hcases as [-> | Hcases]; [decide_digits; lia|]).
  subst v. decide_digits; lia.
Qed.

Lemma consistent_complete_solved board :
  consistent board ->
  (forall p, in_range p -> board_at board p <> 0%Z) ->
  solved board.
Proof.
  intros [Hr Hc] Hnz.
  assert (Hrange : forall p, in_range p -> (1 <= board_at board p <= 9)%Z).
  { intros p Hp. specialize (Hr p Hp). specialize (Hnz p Hp). lia. }
  split; [exact Hrange|].
  intros digits Hd d Hdr. rewrite scopes_positions in Hd.
  apply in_map_iff in Hd as (S & <- & HS).
  destruct (@scope_facts S HS) as (Hlen & _ & Hin).
  assert (Hall : Forall (fun v => (1 <= v <= 9)%Z) (map (board_at board) S)).
  { rewrite Forall_forall. intros v Hv. apply in_map_iff in Hv as (p & <- & Hp).
    apply Hrange. now apply Hin. }
  pose proof (count_digits_sum Hall) as Hsum. rewrite length_map, Hlen in Hsum.
  pose proof (Hc S HS 1%Z ltac:(lia)). pose proof (Hc S HS 2%Z ltac:(lia)).
  pose proof (Hc S HS 3%Z ltac:(lia)). pose proof (Hc S HS 4%Z ltac:(lia)).
  pose proof (Hc S HS 5%Z ltac:(lia)). pose proof (Hc S HS 6%Z ltac:(lia)).
  pose proof (Hc S HS 7%Z ltac:(lia)). pose proof (Hc S HS 8%Z ltac:(lia)).
  pose proof (Hc S HS 9%Z ltac:(lia)).
  assert (Hcases : (d = 1 \/ d = 2 \/ d = 3 \/ d = 4 \/ d = 5 \/ d = 6 \/ d = 7 \/
                    d = 8 \/ d = 9)%Z) by lia.
  repeat (destruct Hcases as [-> | Hcases]; [lia|]). subst d. lia.
Qed.

(** ** Invariants of the elimination *)

Lemma covered_positions board unknowns unknowns' :
  map cell_pos unknowns' = map cell_pos unknowns ->
  covered board unknowns -> covered board unknowns'.
Proof. intros E H p Hp Hz. rewrite E. now apply H. Qed.

Lemma covered_commit board done c rest v :
  (v <> 0)%Z ->
  covered board (done ++ c :: rest) ->
  covered (board_store board (cell_grid_pos c) (cell_y_pos c) (cell_x_pos c) v)
          (done ++ rest).
Proof.
  intros Hv Hcov p Hp Hz.
  destruct (pos_eq_dec p (cell_pos c)) as [->|Hne].
  - rewrite board_at_store_here in Hz. contradiction.
  - rewrite board_at_store_other in Hz by assumption.
    specialize (Hcov p Hp Hz). rewrite map_app in *. cbn [map] in Hcov.
    apply in_app_or in Hcov. apply in_or_app.
    destruct Hcov as [H|[H|H]]; auto. congruence.
Qed.

(** The value a pass commits, for a well-formed record narrowed to one
    value. *)
Lemma committed_value board c :
  cell_wf c ->
  cell_eligible_values_length (narrow_cell board c) = 1 ->
  let v := cell_inspect_eligible_values (narrow_cell board c) 1 in
  (1 <= v <= 9)%Z /\ fresh board (cell_pos c) v.
Proof.
  intros Hwf Hlen v.
  unfold cell_eligible_values_length, list_length in Hlen.
  fold (eligible (narrow_cell board c)) in Hlen.
  destruct (eligible (narrow_cell board c)) as [|w [|w' rest]] eqn:E;
    try discriminate.
  assert (Hv : v = w) by exact (cell_inspect_at (narrow_cell board c) [] w [] E).
  assert (Hin : In w (eligible (narrow_cell board c))) by (rewrite E; now left).
  rewrite Hv. split.
  - apply narrow_cell_subset in Hin. destruct Hwf as [_ Hr].
    rewrite Forall_forall in Hr. now apply Hr.
  - pose proof (@narrow_cell_narrowed board c Hwf w Hin) as Hn.
    rewrite narrow_cell_pos in Hn. apply narrowed_fresh; [|exact Hn].
    apply narrow_cell_subset in Hin. destruct Hwf as [_ Hr].
    rewrite Forall_forall in Hr. apply Hr in Hin. lia.
Qed.

Lemma pass_state todo : forall sorter board done m ex board' unknowns',
  solver_state board (done ++ todo) ->
  eliminate_pass sorter board done todo m = (ex, board', unknowns') ->
  solver_state board' (front unknowns') /\ ex <> Returned ERROR_RET.
Proof.
  induction todo as [|c rest IH];
    intros sorter board done m ex board' unknowns' (Hcons & Hcov & Hwf) H;
    simpl in H.
  - injection H as <- <- <-. simpl. rewrite app_nil_r in *.
    split; [now split|discriminate].
  - destruct (cell_eligible_values_length c =? 0).
    { injection H as <- <- <-. split; [now split|discriminate]. }
    pose proof Hwf as Hwf0.
    apply Forall_app in Hwf as [Hd Hcr].
    inversion Hcr as [|? ? Hc Hr]; subst.
    rewrite (update_constraints_wf board Hc) in H. cbn [negb] in H.
    pose proof (narrow_cell_wf board Hc) as Hc'.
    destruct (cell_eligible_values_length (narrow_cell board c) =? 0).
    { injection H as <- <- <-. cbn [front]. split; [|discriminate].
      split; [exact Hcons|]. split.
      - eapply covered_positions; [|exact Hcov]. now rewrite !map_app.
      - apply Forall_app. split; [exact Hd|]. now constructor. }
    destruct (cell_eligible_values_length (narrow_cell board c) =? 1) eqn:E1.
    + apply Nat.eqb_eq in E1.
      destruct (committed_value board Hc E1) as [Hv Hf].
      eapply IH; [|exact H]. split; [now apply store_consistent|]. split.
      * apply covered_commit; [lia|exact Hcov].
      * apply Forall_app. now split.
    + eapply IH; [|exact H]. split; [exact Hcons|]. split.
      * eapply covered_positions; [|exact Hcov]. now rewrite <- app_assoc, !map_app.
      * rewrite <- app_assoc. apply Forall_app. split; [exact Hd|]. now constructor.
Qed.

Lemma pass_knowns board0 todo : forall sorter board done m ex board' unknowns',
  knowns_kept board0 board (done ++ todo) ->
  eliminate_pass sorter board done todo m = (ex, board', unknowns') ->
  knowns_kept board0 board' (front unknowns').
Proof.
  induction todo as [|c rest IH];
    intros sorter board done m ex board' unknowns' [Hkeep Hzero] H; simpl in H.
  - injection H as <- <- <-. simpl. rewrite app_nil_r in *. now split.
  - destruct (cell_eligible_values_length c =? 0).
    { injection H as <- <- <-. now split. }
    pose proof Hzero as Hzero0.
    apply Forall_app in Hzero as [Hd Hcr].
    inversion Hcr as [|? ? Hc Hr]; subst.
    destruct (update_constraints board c (cell_grid_pos c) (cell_x_pos c) (cell_y_pos c))
      as [ok c'] eqn:Eu.
    apply update_constraints_shrinks in Eu as (Hpos & _).
    assert (Hc' : board_at board0 (cell_pos c') = 0%Z) by now rewrite Hpos.
    assert (Hmid : Forall (fun c => board_at board0 (cell_pos c) = 0%Z)
                          (done ++ c' :: rest)).
    { apply Forall_app. split; [exact Hd|]. now constructor. }
    destruct ok; cbn [negb] in H.
    2:{ injection H as <- <- <-. now split. }
    destruct (cell_eligible_values_length c' =? 0).
    { injection H as <- <- <-. now split. }
    destruct (cell_eligible_values_length c' =? 1).
    + eapply IH; [|exact H]. split.
      * intros p Hp Hnz. rewrite board_at_store_other; [now apply Hkeep|].
        intros ->. contradiction.
      * apply Forall_app. now split.
    + eapply IH; [|exact H]. split; [exact Hkeep|]. now rewrite <- app_assoc.
Qed.

(** A property every pass keeps is kept by the loop. *)
Lemma elimination_while_invariant (P : Board -> list Cell -> Prop) :
  (forall sorter board todo ex board' unknowns',
     P board todo ->
     eliminate_pass sorter board [] todo false = (ex, board', unknowns') ->
     P board' (front unknowns')) ->
  forall fuel board unknowns ret board' unknowns',
  P board (front unknowns) ->
  elimination_while fuel board unknowns true = Some (ret, board', unknowns') ->
  P board' (front unknowns').
Proof.
  intros Hpass fuel board unknowns ret board' unknowns' HP H.
  destruct (elimination_while_last_pass
              (fun b l => P b (front l))
              (fun b l b' l' HP0 E => Hpass _ _ _ _ _ _ HP0 E)
              fuel board unknowns HP H)
    as (b0 & l0 & ex & HP0 & Epass & _).
  eapply Hpass; eauto.
Qed.

Lemma elimination_state fuel board unknowns ret board' unknowns' :
  solver_state board (front unknowns) ->
  elimination_while fuel board unknowns true = Some (ret, board', unknowns') ->
  solver_state board' (front unknowns').
Proof.
  apply (elimination_while_invariant solver_state).
  intros sorter b todo ex b' l' HP E.
  exact (proj1 (@pass_state todo sorter b [] false ex b' l' HP E)).
Qed.

Lemma elimination_knowns board0 fuel board unknowns ret board' unknowns' :
  knowns_kept board0 board (front unknowns) ->
  elimination_while fuel board unknowns true = Some (ret, board', unknowns') ->
  knowns_kept board0 board' (front unknowns').
Proof.
  apply (elimination_while_invariant (knowns_kept board0)).
  intros sorter b todo ex b' l' HP E.
  exact (@pass_knowns board0 todo sorter b [] false ex b' l' HP E).
Qed.

(** On well-formed records the loop answers 0 or 1, and 0 leaves a record
    without eligible value. *)
Lemma elimination_wf_answers fuel board unknowns ret board' unknowns' :
  solver_state board (front unknowns) ->
  elimination_while fuel board unknowns true = Some (ret, board', unknowns') ->
  (ret = STALEMATE_RET /\ has_contradiction (front unknowns')) \/ ret = SUCCESS_RET.
Proof.
  intros Hst H.
  destruct (elimination_while_last_pass
              (fun b l => solver_state b (front l))
              (fun b l b' l' HP0 E =>
                 proj1 (@pass_state (front l) (sort_sequence l) b [] false _ b' l' HP0 E))
              fuel board unknowns Hst H)
    as (b0 & l0 & ex & HP0 & Epass & [-> | [-> ->]]); [|now right].
  destruct (@pass_state (front l0) (sort_sequence l0) b0 [] false _ _ _ HP0 Epass)
    as [_ Hne].
  apply pass_returned in Epass as [[-> Hc] | ->]; [now left|].
  now elim Hne.
Qed.

Lemma elimination_contradiction fuel board unknowns ret board' unknowns' :
  has_contradiction (front unknowns) ->
  elimination_while fuel board unknowns true = Some (ret, board', unknowns') ->
  ret <> SUCCESS_RET.
Proof.
  intros Hc H. destruct fuel as [|fuel]; simpl in H; [discriminate|].
  rewrite elimination_for_whole in H.
  destruct (eliminate_pass (sort_sequence unknowns) board [] (front unknowns) false)
    as [[ex b1] l1] eqn:Epass.
  destruct (pass_contradiction _ _ _ _ Hc Epass) as [r ->].
  injection H as <- <- <-.
  apply pass_returned in Epass as [[-> _] | ->]; discriminate.
Qed.

(** ** Invariants of the search *)

Lemma same_digits_duplicate new_board board :
  same_digits board (duplicate_board new_board board).
Proof. intros p Hp. now apply duplicate_board_at. Qed.

Lemma duplicated_contradiction unknowns :
  has_contradiction unknowns -> has_contradiction (rev (map duplicated unknowns)).
Proof.
  intros (c & Hin & He). exists (duplicated c). split.
  - apply in_rev. rewrite rev_involutive. now apply in_map.
  - eapply cell_duplicate_empty; [exact He|apply cell_duplicate_duplicated].
Qed.

Lemma duplicated_positions unknowns :
  map cell_pos (rev (map duplicated unknowns)) = rev (map cell_pos unknowns).
Proof. now rewrite map_rev, map_map. Qed.

(** The state a trial starts the elimination from. *)
Lemma trial_state board temp rest v :
  solver_state board (temp :: rest) ->
  (1 <= v <= 9)%Z -> fresh board (cell_pos temp) v ->
  solver_state
    (board_store (duplicate_board board_unset board)
                 (cell_grid_pos temp) (cell_y_pos temp) (cell_x_pos temp) v)
    (rev (map duplicated rest)).
Proof.
  intros (Hcons & Hcov & Hwf) Hv Hf. split; [|split].
  - apply store_consistent; [|exact Hv|].
    + eapply consistent_same_digits; [apply same_digits_duplicate|exact Hcons].
    + eapply fresh_same_digits; [apply same_digits_duplicate|exact Hf].
  - intros p Hp Hz.
    destruct (pos_eq_dec p (cell_pos temp)) as [->|Hne].
    + rewrite board_at_store_here in Hz. lia.
    + rewrite board_at_store_other in Hz by assumption.
      rewrite duplicate_board_at in Hz by assumption.
      specialize (Hcov p Hp Hz). cbn [map] in Hcov.
      destruct Hcov as [E|Hin]; [congruence|].
      rewrite duplicated_positions. now apply -> in_rev.
  - rewrite Forall_forall. intros c Hc. apply in_rev in Hc.
    apply in_map_iff in Hc as (c0 & <- & _). apply duplicated_wf.
Qed.

Lemma elimination_search_ready fuel board unknowns ret board' unknowns' :
  solver_state board (front unknowns) ->
  elimination_while fuel board unknowns true = Some (ret, board', unknowns') ->
  search_ready board' (front unknowns').
Proof.
  intros Hst H.
  destruct (@elimination_wf_answers _ _ _ _ _ _ Hst H) as [[_ Hc] | ->]; [now left|].
  right. split; [eapply elimination_state; eauto|].
  destruct Hst as (_ & _ & Hwf).
  pose proof (@elimination_success_state _ _ _ _ _ Hwf H) as Hfix.
  rewrite Forall_forall in *. intros c Hc.
  destruct (Hfix c Hc) as (Hw & Hn & _). now apply narrowed_all_fresh.
Qed.

Lemma trial_loop_sound recurse fuel_elim board rest sorter temp :
  (forall b l r b' l',
     search_ready b (front l) -> recurse b l = Some (r, b', l') ->
     r = SUCCESS_RET -> consistent b' /\ complete b') ->
  has_contradiction rest \/ solver_state board (temp :: rest) ->
  forall fuel cell r board' unknowns',
  cell_wf cell ->
  (has_contradiction rest \/
   forall v, In v (eligible cell) -> fresh board (cell_pos temp) v) ->
  trial_loop recurse fuel_elim (cell_grid_pos temp) (cell_x_pos temp) (cell_y_pos temp)
             fuel board (Build_List rest sorter) cell = Some (r, board', unknowns') ->
  r = SUCCESS_RET -> consistent board' /\ complete board'.
Proof.
  intros Hrec Hstart fuel.
  induction fuel as [|fuel IH]; intros cell r board' unknowns' Hwf Hfresh H Hr;
    cbn [trial_loop] in H.
  - destruct (0 <? cell_eligible_values_length cell); [discriminate|].
    injection H as <- <- <-. discriminate.
  - destruct (0 <? cell_eligible_values_length cell) eqn:Epos.
    2:{ injection H as <- <- <-. discriminate. }
    rewrite duplicate_unknown_list_spec in H. cbn [front] in H.
    apply Nat.ltb_lt in Epos.
    unfold cell_eligible_values_length, list_length in Epos. fold (eligible cell) in Epos.
    destruct (eligible cell) as [|v vs] eqn:Ecell; [simpl in Epos; lia|].
    rewrite (next_trial_spec Hwf Ecell) in H.
    assert (Hwf' : cell_wf (cell_with_front cell vs)).
    { apply cell_wf_with_front; [| |exact Hwf].
      - destruct Hwf as [Hnd _]. rewrite Ecell in Hnd. now inversion Hnd.
      - intros w Hw. rewrite Ecell. now right. }
    assert (Hfresh' : has_contradiction rest \/
                      forall w, In w (eligible (cell_with_front cell vs)) ->
                                fresh board (cell_pos temp) w).
    { destruct Hfresh as [Hc|Hfresh]; [now left|right].
      intros w Hw. apply Hfresh. now right. }
    assert (Hv : (1 <= v <= 9)%Z).
    { destruct Hwf as [_ Hrg]. rewrite Ecell in Hrg. now inversion Hrg. }
    unfold solve_elimination_method in H.
    destruct (elimination_while fuel_elim _ _ true) as [[[elret bd] ud]|] eqn:Eel;
      [|discriminate].
    destruct (elret =? ERROR_RET)%Z; [injection H as <- <- <-; discriminate|].
    destruct (elret =? SUCCESS_RET)%Z eqn:Esucc;
      [|exact (IH _ _ _ _ Hwf' Hfresh' H Hr)].
    apply Z.eqb_eq in Esucc. subst elret.
    assert (Hnc : ~ has_contradiction rest).
    { intros Hc. apply duplicated_contradiction in Hc.
      exact (@elimination_contradiction _ _ (Build_List _ None) _ _ _ Hc Eel eq_refl). }
    destruct Hstart as [Hc|Hst]; [contradiction|].
    destruct Hfresh as [Hc|Hfresh]; [contradiction|].
    assert (Hready : search_ready bd (front ud)).
    { eapply elimination_search_ready; [|exact Eel]. cbn [front].
      apply trial_state; [exact Hst|exact Hv|]. apply Hfresh. now left. }
    destruct (recurse bd ud) as [[[btret bd'] ud']|] eqn:Erec; [|discriminate].
    destruct (btret =? ERROR_RET)%Z; [injection H as <- <- <-; discriminate|].
    destruct (btret =? SUCCESS_RET)%Z eqn:Ebt;
      [|exact (IH _ _ _ _ Hwf' Hfresh' H Hr)].
    apply Z.eqb_eq in Ebt. injection H as _ <- _.
    destruct (Hrec _ _ _ _ _ Hready Erec Ebt) as [Hcons Hcompl].
    split.
    + eapply consistent_same_digits; [apply same_digits_duplicate|exact Hcons].
    + intros p Hp. rewrite duplicate_board_at by assumption. now apply Hcompl.
Qed.

Lemma backtrack_sound depth : forall fuel board unknowns r board' unknowns',
  search_ready board (front unknowns) ->
  solve_backtrack_method depth fuel board unknowns = Some (r, board', unknowns') ->
  r = SUCCESS_RET -> consistent board' /\ complete board'.
Proof.
  induction depth as [|depth IH]; intros fuel board unknowns r board' unknowns' Hready H Hr;
    simpl in H; [discriminate|].
  destruct (list_is_empty unknowns) eqn:Eempty.
  { injection H as <- <- <-. apply list_is_empty_front in Eempty.
    rewrite Eempty in Hready. destruct Hready as [(c & [] & _)|[(Hcons & Hcov & _) _]].
    split; [exact Hcons|]. intros p Hp Hz. exact (Hcov p Hp Hz). }
  destruct (front unknowns) as [|temp rest] eqn:Efront.
  { apply list_is_empty_front in Efront. congruence. }
  rewrite (list_inspect_first unknowns Efront) in H.
  destruct (cell_eligible_values_length temp =? 0) eqn:E0.
  { apply Nat.eqb_eq in E0. rewrite E0 in H. injection H as <- <- <-. discriminate. }
  rewrite cell_duplicate_duplicated, (list_remove_first unknowns Efront) in H.
  change (cell_grid_pos (duplicated temp)) with (cell_grid_pos temp) in H.
  change (cell_x_pos (duplicated temp)) with (cell_x_pos temp) in H.
  change (cell_y_pos (duplicated temp)) with (cell_y_pos temp) in H.
  unfold list_with_front in H.
  assert (Hrest : has_contradiction (temp :: rest) -> has_contradiction rest).
  { intros (c & [<-|Hin] & He); [|exists c; auto].
    apply Nat.eqb_neq in E0. unfold cell_eligible_values_length, list_length in E0.
    unfold eligible in He. rewrite He in E0. simpl in E0. lia. }
  apply (@trial_loop_sound (solve_backtrack_method depth fuel) fuel board rest
           (sort_sequence unknowns) temp (fun b l r0 b0 l0 => IH fuel b l r0 b0 l0))
    with (fuel := fuel) (cell := duplicated temp) (r := r) (unknowns' := unknowns');
    try assumption.
  - destruct Hready as [Hc|[Hst _]]; [left; auto|now right].
  - apply duplicated_wf.
  - destruct Hready as [Hc|[_ Hfr]]; [left; auto|right].
    intros v Hv. apply eligible_duplicated in Hv.
    inversion Hfr as [|? ? Ht _]; subst. now apply Ht.
Qed.

Lemma trial_loop_knowns board0 recurse fuel_elim board rest sorter temp :
  (forall b l r b' l',
     knowns_kept board0 b (front l) -> recurse b l = Some (r, b', l') ->
     knowns_kept board0 b' []) ->
  knowns_kept board0 board (temp :: rest) ->
  forall fuel cell r board' unknowns',
  trial_loop recurse fuel_elim (cell_grid_pos temp) (cell_x_pos temp) (cell_y_pos temp)
             fuel board (Build_List rest sorter) cell = Some (r, board', unknowns') ->
  knowns_kept board0 board' [].
Proof.
  intros Hrec [Hkeep Hzero] fuel.
  assert (Hstay : knowns_kept board0 board []) by (split; [exact Hkeep|constructor]).
  induction fuel as [|fuel IH]; intros cell r board' unknowns' H; cbn [trial_loop] in H.
  - destruct (0 <? cell_eligible_values_length cell); [discriminate|].
    now injection H as <- <- <-.
  - destruct (0 <? cell_eligible_values_length cell); [|now injection H as <- <- <-].
    rewrite duplicate_unknown_list_spec in H. cbn [front] in H.
    destruct (next_trial cell) as [val cell'].
    unfold solve_elimination_method in H.
    destruct (elimination_while fuel_elim _ _ true) as [[[elret bd] ud]|] eqn:Eel;
      [|discriminate].
    destruct (elret =? ERROR_RET)%Z; [now injection H as <- <- <-|].
    destruct (elret =? SUCCESS_RET)%Z; [|exact (IH _ _ _ _ H)].
    destruct (recurse bd ud) as [[[btret bd'] ud']|] eqn:Erec; [|discriminate].
    destruct (btret =? ERROR_RET)%Z; [now injection H as <- <- <-|].
    destruct (btret =? SUCCESS_RET)%Z; [|exact (IH _ _ _ _ H)].
    injection H as _ <- _.
    inversion Hzero as [|? ? Htemp Hrest]; subst.
    assert (Hdup : knowns_kept board0
                     (board_store (duplicate_board board_unset board)
                        (cell_grid_pos temp) (cell_y_pos temp) (cell_x_pos temp) val)
                     (rev (map duplicated rest))).
    { split.
      - intros p Hp Hnz. rewrite board_at_store_other by (intros ->; contradiction).
        rewrite duplicate_board_at by assumption. now apply Hkeep.
      - rewrite Forall_forall in *. intros c Hc. apply in_rev in Hc.
        apply in_map_iff in Hc as (c0 & <- & Hc0). rewrite cell_pos_duplicated.
        now apply Hrest. }
    pose proof (@elimination_knowns board0 _ _ (Build_List _ None) _ _ _ Hdup Eel) as Hel.
    destruct (Hrec _ _ _ _ _ Hel Erec) as [Hk _].
    split; [|constructor].
    intros p Hp Hnz. rewrite duplicate_board_at by assumption. now apply Hk.
Qed.

Lemma backtrack_knowns board0 depth : forall fuel board unknowns r board' unknowns',
  knowns_kept board0 board (front unknowns) ->
  solve_backtrack_method depth fuel board unknowns = Some (r, board', unknowns') ->
  knowns_kept board0 board' [].
Proof.
  induction depth as [|depth IH]; intros fuel board unknowns r board' unknowns' Hk H;
    simpl in H; [discriminate|].
  assert (Hstay : knowns_kept board0 board [])
    by (destruct Hk; split; [assumption|constructor]).
  destruct (list_is_empty unknowns); [now injection H as <- <- <-|].
  destruct (front unknowns) as [|temp rest] eqn:Efront.
  { unfold list_inspect, list_length in H. rewrite Efront in H. simpl in H.
    now injection H as <- <- <-. }
  rewrite (list_inspect_first unknowns Efront) in H.
  destruct (cell_eligible_values_length temp =? 0); [now injection H as <- <- <-|].
  rewrite cell_duplicate_duplicated, (list_remove_first unknowns Efront) in H.
  change (cell_grid_pos (duplicated temp)) with (cell_grid_pos temp) in H.
  change (cell_x_pos (duplicated temp)) with (cell_x_pos temp) in H.
  change (cell_y_pos (duplicated temp)) with (cell_y_pos temp) in H.
  unfold list_with_front in H.
  exact (@trial_loop_knowns board0 (solve_backtrack_method depth fuel) fuel board rest
           (sort_sequence unknowns) temp (fun b l r0 b0 l0 => IH fuel b l r0 b0 l0)
           Hk fuel (duplicated temp) r board' unknowns' H).
Qed.

(** ** The state the solver starts from *)

Lemma initial_knowns board :
  knowns_kept board board (front (empty_unknowns_list board)).
Proof.
  split; [reflexivity|].
  rewrite Forall_forall. intros c Hc.
  apply empty_unknowns_list_In in Hc as (p & -> & _ & Hz).
  now rewrite cell_pos_cell_at.
Qed.

Lemma initial_state board :
  consistent board -> solver_state board (front (empty_unknowns_list board)).
Proof.
  intros Hcons. split; [exact Hcons|]. split.
  - intros p Hp Hz. apply in_map_iff. exists (cell_at p).
    split; [apply cell_pos_cell_at|]. apply empty_unknowns_list_In. eauto.
  - rewrite Forall_forall. intros c Hc.
    apply empty_unknowns_list_In in Hc as (p & -> & _). apply cell_at_wf.
Qed.

(** C1: on a board that meets the precondition, whenever elimination
    leaves the list empty the board is solved, and whenever the search that
    follows answers 1 its board is solved: digits 1..9 everywhere, each
    digit exactly once in each of the 27 scopes.  So is the board
    [solve_sudoku] returns after such a search. *)
Theorem solved_when_search_succeeds (depth fuel : nat) (board : Board) :
  scope_consistent board ->
  (forall elret board1 unknowns1,
     solve_elimination_method fuel board (empty_unknowns_list board) =
       Some (elret, board1, unknowns1) ->
     (list_is_empty unknowns1 = true -> solved board1) /\
     (forall board2 unknowns2,
        solve_backtrack_method depth fuel board1 unknowns1 =
          Some (SUCCESS_RET, board2, unknowns2) ->
        solved board2)) /\
  (forall elret final,
     solve_sudoku depth fuel board = Some (Solver_Ran elret SUCCESS_RET final) ->
     solved final).
Proof.
  intros Hsc. apply scope_consistent_consistent in Hsc.
  pose proof (initial_state Hsc) as Hinit.
  assert (Hmain : forall elret board1 unknowns1,
     solve_elimination_method fuel board (empty_unknowns_list board) =
       Some (elret, board1, unknowns1) ->
     (list_is_empty unknowns1 = true -> solved board1) /\
     (forall r board2 unknowns2,
        solve_backtrack_method depth fuel board1 unknowns1 = Some (r, board2, unknowns2) ->
        r = SUCCESS_RET -> solved board2)).
  { intros elret board1 unknowns1 Eel. unfold solve_elimination_method in Eel.
    pose proof (@elimination_state _ _ _ _ _ _ Hinit Eel) as (Hc1 & Hcov1 & _).
    pose proof (@elimination_search_ready _ _ _ _ _ _ Hinit Eel) as Hready.
    split.
    - intros Hempty. apply list_is_empty_front in Hempty. rewrite Hempty in Hcov1.
      apply consistent_complete_solved; [exact Hc1|].
      intros p Hp Hz. exact (Hcov1 p Hp Hz).
    - intros r board2 unknowns2 Ebt Hr.
      destruct (@backtrack_sound depth fuel board1 unknowns1 r board2 unknowns2
                  Hready Ebt Hr) as [Hc2 Hcompl].
      now apply consistent_complete_solved. }
  split.
  - intros elret board1 unknowns1 Eel. destruct (Hmain _ _ _ Eel) as [H1 H2].
    split; [exact H1|]. intros board2 unknowns2 Ebt. exact (H2 _ _ _ Ebt eq_refl).
  - intros elret final. unfold solve_sudoku.
    destruct (list_is_empty (empty_unknowns_list board)); [discriminate|].
    destruct (solve_elimination_method fuel board (empty_unknowns_list board))
      as [[[e b1] l1]|] eqn:Eel; [|discriminate].
    destruct (e =? ERROR_RET)%Z; [discriminate|].
    destruct (solve_backtrack_method depth fuel b1 l1) as [[[r b2] l2]|] eqn:Ebt;
      [|discriminate].
    destruct (r =? ERROR_RET)%Z; [discriminate|].
    intros [= <- -> <-]. destruct (Hmain _ _ _ eq_refl) as [_ H2].
    exact (H2 _ _ _ Ebt eq_refl).
Qed.

(** ** The theorems at work *)

Lemma scope_consistentb_sound board :
  scope_consistentb board = true -> scope_consistent board.
Proof.
  unfold scope_consistentb. rewrite andb_true_iff, !forallb_forall.
  intros [Hr Hc]. split.
  - intros p Hp. specialize (Hr p Hp). rewrite andb_true_iff in Hr. lia.
  - intros digits Hd d Hdr. specialize (Hc digits Hd).
    rewrite forallb_forall in Hc. apply Nat.leb_le, Hc. simpl.
    assert (Hcases : (d = 1 \/ d = 2 \/ d = 3 \/ d = 4 \/ d = 5 \/ d = 6 \/ d = 7 \/
                      d = 8 \/ d = 9)%Z) by lia.
    intuition.
Qed.

(** The search settles [board_two_solutions] with the larger digit, 7, at
    (4,0,1), where [board_complete] has 6. *)
Example search_takes_the_larger_digit :
  match solve_sudoku 5 9 board_two_solutions with
  | Some (Solver_Ran elret btret final) =>
      elret = SUCCESS_RET /\ btret = SUCCESS_RET /\
      final 4 0 1 = 7%Z /\ board_complete 4 0 1 = 6%Z /\
      scope_consistentb final = true
  | _ => False
  end.
Proof. vm_compute. repeat split. Qed.

Lemma solved_when_search_succeeds_witness :
  match solve_sudoku 5 9 board_two_solutions with
  | Some (Solver_Ran _ _ final) => solved final
  | _ => False
  end.
Proof.
  pose proof search_takes_the_larger_digit as X.
  destruct (solve_sudoku 5 9 board_two_solutions) as [[| | |elret btret final]|] eqn:E;
    try contradiction.
  destruct X as (_ & -> & _).
  refine (proj2 (@solved_when_search_succeeds 5 9 board_two_solutions _) elret final E).
  apply scope_consistentb_sound. vm_compute. reflexivity.
Defined.

(* ================================================================= *)
(** * Further properties of the code *)

(** ** Records and the positions they stand for *)

Lemma placed_commit board done c rest v :
  placed board (done ++ c :: rest) ->
  placed (board_store board (cell_grid_pos c) (cell_y_pos c) (cell_x_pos c) v)
         (done ++ rest).
Proof.
  intros [Hnd Hall]. rewrite map_app in Hnd. cbn [map] in Hnd.
  apply NoDup_remove in Hnd as [Hnd Hout]. rewrite <- map_app in Hnd, Hout.
  split; [exact Hnd|].
  rewrite Forall_forall in *. intros c0 Hc0.
  assert (Hin : In c0 (done ++ c :: rest)).
  { apply in_app_or in Hc0 as [H|H]; apply in_or_app; [now left|right; now right]. }
  destruct (Hall c0 Hin) as [Hr Hz]. split; [exact Hr|].
  rewrite board_at_store_other; [exact Hz|].
  intros E. apply Hout. rewrite <- E. now apply in_map.
Qed.

Lemma placed_replace board done c c' rest :
  cell_pos c' = cell_pos c ->
  placed board (done ++ c :: rest) -> placed board (done ++ c' :: rest).
Proof.
  intros Hpos [Hnd Hall]. split.
  - rewrite map_app in *. cbn [map] in *. now rewrite Hpos.
  - apply Forall_app in Hall as [Hd Hcr]. inversion Hcr as [|? ? Hc Hr]; subst.
    apply Forall_app. split; [exact Hd|]. constructor; [now rewrite Hpos|exact Hr].
Qed.

Lemma pass_placed todo : forall sorter board done m ex board' unknowns',
  placed board (done ++ todo) ->
  eliminate_pass sorter board done todo m = (ex, board', unknowns') ->
  placed board' (front unknowns').
Proof.
  induction todo as [|c rest IH]; intros sorter board done m ex board' unknowns' Hpl H;
    simpl in H.
  - injection H as <- <- <-. simpl. now rewrite app_nil_r in Hpl.
  - destruct (cell_eligible_values_length c =? 0).
    { now injection H as <- <- <-. }
    destruct (update_constraints board c (cell_grid_pos c) (cell_x_pos c) (cell_y_pos c))
      as [ok c'] eqn:Eu.
    apply update_constraints_shrinks in Eu as (Hpos & _).
    pose proof (@placed_replace board done c c' rest Hpos Hpl) as Hpl'.
    destruct ok; cbn [negb] in H.
    2:{ now injection H as <- <- <-. }
    destruct (cell_eligible_values_length c' =? 0).
    { now injection H as <- <- <-. }
    destruct (cell_eligible_values_length c' =? 1).
    + eapply IH; [|exact H]. now apply placed_commit.
    + eapply IH; [|exact H]. now rewrite <- app_assoc.
Qed.

Lemma elimination_placed fuel board unknowns ret board' unknowns' :
  placed board (front unknowns) ->
  elimination_while fuel board unknowns true = Some (ret, board', unknowns') ->
  placed board' (front unknowns').
Proof.
  apply (elimination_while_invariant placed).
  intros sorter b todo ex b' l' HP E.
  exact (@pass_placed todo sorter b [] false ex b' l' HP E).
Qed.

Lemma initial_placed board : placed board (front (empty_unknowns_list board)).
Proof.
  split.
  - rewrite empty_unknowns_list_positions.
    apply NoDup_rev, NoDup_filter, cells_NoDup.
  - rewrite Forall_forall. intros c Hc.
    apply empty_unknowns_list_In in Hc as (p & -> & Hp & Hz).
    now rewrite cell_pos_cell_at.
Qed.

(** ** No error answer *)

Lemma pass_wf_no_error todo : forall sorter board done m ex board' unknowns',
  Forall cell_wf (done ++ todo) ->
  eliminate_pass sorter board done todo m = (ex, board', unknowns') ->
  ex <> Returned ERROR_RET.
Proof.
  induction todo as [|c rest IH]; intros sorter board done m ex board' unknowns' Hwf H;
    simpl in H.
  - injection H as <- <- <-. discriminate.
  - destruct (cell_eligible_values_length c =? 0).
    { injection H as <- <- <-. discriminate. }
    apply Forall_app in Hwf as [Hd Hcr].
    inversion Hcr as [|? ? Hc Hr]; subst.
    rewrite (update_constraints_wf board Hc) in H. cbn [negb] in H.
    pose proof (narrow_cell_wf board Hc) as Hc'.
    destruct (cell_eligible_values_length (narrow_cell board c) =? 0).
    { injection H as <- <- <-. discriminate. }
    destruct (cell_eligible_values_length (narrow_cell board c) =? 1).
    + eapply IH; [|exact H]. apply Forall_app. now split.
    + eapply IH; [|exact H]. rewrite <- app_assoc. apply Forall_app.
      split; [exact Hd|]. now constructor.
Qed.

Lemma elimination_wf_codes fuel board unknowns ret board' unknowns' :
  Forall cell_wf (front unknowns) ->
  elimination_while fuel board unknowns true = Some (ret, board', unknowns') ->
  ret = STALEMATE_RET \/ ret = SUCCESS_RET.
Proof.
  intros Hwf H.
  destruct (elimination_while_last_pass
              (fun _ l => Forall cell_wf (front l))
              (fun b l b' l' HP E => @pass_wf_whole b l _ b' l' HP E)
              fuel board unknowns Hwf H)
    as (b0 & l0 & ex & Hwf0 & Epass & [-> | [-> ->]]); [|now right].
  pose proof (@pass_wf_no_error (front l0) _ b0 [] false _ _ _ Hwf0 Epass) as Hne.
  apply pass_returned in Epass as [[-> _] | ->]; [now left|now elim Hne].
Qed.

Lemma duplicated_all_wf unknowns : Forall cell_wf (rev (map duplicated unknowns)).
Proof.
  rewrite Forall_forall. intros c Hc. apply in_rev in Hc.
  apply in_map_iff in Hc as (c0 & <- & _). apply duplicated_wf.
Qed.

Lemma trial_loop_codes recurse fuel_elim grid x y board unknowns :
  (forall b l r b' l', recurse b l = Some (r, b', l') ->
                       r = STALEMATE_RET \/ r = SUCCESS_RET) ->
  forall fuel cell r board' unknowns',
  trial_loop recurse fuel_elim grid x y fuel board unknowns cell =
    Some (r, board', unknowns') ->
  r = STALEMATE_RET \/ r = SUCCESS_RET.
Proof.
  intros Hrec fuel.
  induction fuel as [|fuel IH]; intros cell r board' unknowns' H; cbn [trial_loop] in H.
  - destruct (0 <? cell_eligible_values_length cell); [discriminate|].
    injection H as <- <- <-. now left.
  - destruct (0 <? cell_eligible_values_length cell).
    2:{ injection H as <- <- <-. now left. }
    rewrite duplicate_unknown_list_spec in H.
    destruct (next_trial cell) as [val cell'].
    unfold solve_elimination_method in H.
    destruct (elimination_while fuel_elim _ _ true) as [[[elret bd] ud]|] eqn:Eel;
      [|discriminate].
    destruct (@elimination_wf_codes _ _ (Build_List _ None) _ _ _
                (duplicated_all_wf (front unknowns)) Eel) as [-> | ->].
    + cbn in H. exact (IH _ _ _ _ H).
    + cbn in H.
      destruct (recurse bd ud) as [[[btret bd'] ud']|] eqn:Erec; [|discriminate].
      destruct (Hrec _ _ _ _ _ Erec) as [-> | ->]; cbn in H.
      * exact (IH _ _ _ _ H).
      * injection H as <- _ _. now right.
Qed.

Lemma backtrack_codes depth : forall fuel board unknowns r board' unknowns',
  solve_backtrack_method depth fuel board unknowns = Some (r, board', unknowns') ->
  r = STALEMATE_RET \/ r = SUCCESS_RET.
Proof.
  induction depth as [|depth IH]; intros fuel board unknowns r board' unknowns' H;
    simpl in H; [discriminate|].
  destruct (list_is_empty unknowns) eqn:Eempty.
  { injection H as <- <- <-. now right. }
  destruct (front unknowns) as [|temp rest] eqn:Efront.
  { apply list_is_empty_front in Efront. congruence. }
  rewrite (list_inspect_first unknowns Efront) in H.
  destruct (cell_eligible_values_length temp =? 0) eqn:E0.
  { apply Nat.eqb_eq in E0. rewrite E0 in H. injection H as <- <- <-. now left. }
  rewrite cell_duplicate_duplicated in H.
  eapply trial_loop_codes; [|exact H].
  intros b l r0 b0 l0. apply IH.
Qed.

(** ** Solutions are never lost *)

Lemma peer_checks_hold : peer_checks = true.
Proof. vm_compute. reflexivity. Qed.

Lemma peers_share_scope p q :
  in_range p -> In q (peers p) ->
  exists S, In S scope_positions /\ In p S /\ In q S.
Proof.
  intros Hp Hq. pose proof peer_checks_hold as H. unfold peer_checks in H.
  rewrite forallb_forall in H. specialize (H p Hp).
  rewrite forallb_forall in H. specialize (H q Hq).
  apply existsb_exists in H as (S & HS & H).
  rewrite andb_true_iff, !existsb_pos_In in H. exists S. tauto.
Qed.

Lemma count_two (f : Pos -> Z) (S : list Pos) p q :
  In p S -> In q S -> p <> q -> f p = f q ->
  2 <= count_occ Z.eq_dec (map f S) (f p).
Proof.
  induction S as [|a S IH]; intros Hp Hq Hne E; [destruct Hp|].
  cbn [map count_occ].
  assert (Hone : forall r, In r S -> 1 <= count_occ Z.eq_dec (map f S) (f r)).
  { intros r Hr. apply count_occ_In. now apply in_map. }
  destruct Hp as [->|Hp], Hq as [->|Hq].
  - congruence.
  - destruct (Z.eq_dec (f p) (f p)); [|congruence].
    specialize (Hone q Hq). rewrite <- E in Hone. lia.
  - destruct (Z.eq_dec (f q) (f p)); [|congruence].
    specialize (Hone p Hp). lia.
  - specialize (IH Hp Hq Hne E). destruct (Z.eq_dec (f a) (f p)); lia.
Qed.

Lemma solved_distinct s S p q :
  solved s -> In S scope_positions -> In p S -> In q S -> p <> q ->
  board_at s p <> board_at s q.
Proof.
  intros [Hr Hc] HS Hp Hq Hne E.
  destruct (@scope_facts S HS) as (_ & _ & Hall).
  pose proof (@count_two (board_at s) S p q Hp Hq Hne E) as H2.
  assert (Hin : In (map (board_at s) S) (scopes s)).
  { rewrite scopes_positions. now apply in_map. }
  specialize (Hc _ Hin (board_at s p) (Hr p (proj1 (Hall p Hp)))). lia.
Qed.

Lemma solution_not_known s board p :
  solved s -> extends board s -> in_range p -> board_at board p = 0%Z ->
  ~ In (board_at s p) (known_digits board p).
Proof.
  intros Hs Hext Hp Hz Hin. unfold known_digits in Hin.
  apply filter_In in Hin as [Hin Hnz]. apply negb_true_iff, Z.eqb_neq in Hnz.
  apply in_map_iff in Hin as (q & E & Hq).
  destruct (@peers_share_scope p q Hp Hq) as (S & HS & HpS & HqS).
  destruct (@scope_facts S HS) as (_ & _ & Hall).
  assert (Hne : p <> q) by (intros ->; congruence).
  apply (@solved_distinct s S p q Hs HS HpS HqS Hne).
  rewrite (Hext q (proj1 (Hall q HqS))); congruence.
Qed.

Lemma narrow_cell_keeps board c v :
  cell_wf c -> In v (eligible c) -> ~ In v (known_digits board (cell_pos c)) ->
  In v (eligible (narrow_cell board c)).
Proof.
  intros [Hnd _] Hv Hk. unfold narrow_cell. rewrite eligible_cell_with_front.
  rewrite strike_all_filter by assumption. apply filter_In. split; [exact Hv|].
  apply negb_true_iff. destruct (mem v (known_digits board (cell_pos c))) eqn:E;
    [|reflexivity].
  apply mem_In in E. contradiction.
Qed.

(** A pass over a state that admits [s] runs to its end, commits digits
    of [s] only, and leaves a state that admits [s]. *)
Lemma pass_admits s todo : forall sorter board done m ex board' unknowns',
  solved s ->
  admits s board (done ++ todo) ->
  eliminate_pass sorter board done todo m = (ex, board', unknowns') ->
  (exists m', ex = Completed m') /\ admits s board' (front unknowns').
Proof.
  induction todo as [|c rest IH];
    intros sorter board done m ex board' unknowns' Hs (Hext & Hpl & Hall) H; simpl in H.
  - injection H as <- <- <-. simpl. rewrite app_nil_r in *.
    split; [eauto|now split].
  - pose proof Hall as Hall0. pose proof Hpl as [_ Hpos0].
    apply Forall_app in Hall as [Hd Hcr]. inversion Hcr as [|? ? [Hc Hin] Hr]; subst.
    apply Forall_app in Hpos0 as [_ Hpcr]. inversion Hpcr as [|? ? [Hrange Hz] _]; subst.
    unfold cell_eligible_values_length, list_length in H. fold (eligible c) in H.
    destruct (eligible c) as [|v0 vs0] eqn:Ec; [destruct Hin|]. cbn [length Nat.eqb] in H.
    rewrite (update_constraints_wf board Hc) in H. cbn [negb] in H.
    pose proof (narrow_cell_wf board Hc) as Hc'.
    assert (Hin' : In (board_at s (cell_pos c)) (eligible (narrow_cell board c))).
    { apply narrow_cell_keeps; [exact Hc|now rewrite Ec|].
      now apply solution_not_known. }
    fold (eligible (narrow_cell board c)) in H.
    destruct (eligible (narrow_cell board c)) as [|w ws] eqn:Ec'; [destruct Hin'|].
    cbn [length Nat.eqb] in H.
    assert (Hall' : Forall (fun c0 => cell_wf c0 /\
                                      In (board_at s (cell_pos c0)) (eligible c0))
                           (done ++ narrow_cell board c :: rest)).
    { apply Forall_app. split; [exact Hd|]. constructor; [|exact Hr].
      split; [exact Hc'|]. rewrite narrow_cell_pos, Ec'. exact Hin'. }
    destruct ws as [|w' ws]; cbn [length Nat.eqb] in H.
    + assert (Hw : cell_inspect_eligible_values (narrow_cell board c) 1 = w)
        by exact (cell_inspect_at (narrow_cell board c) [] w [] Ec').
      rewrite Hw in H.
      assert (Ew : w = board_at s (cell_pos c)).
      { destruct Hin' as [E|[]]. exact E. }
      eapply IH; [exact Hs| |exact H]. split; [|split].
      * intros p Hp Hnz. destruct (pos_eq_dec p (cell_pos c)) as [->|Hne].
        -- rewrite board_at_store_here. now symmetry.
        -- rewrite board_at_store_other in * by assumption. now apply Hext.
      * now apply placed_commit.
      * apply Forall_app. now split.
    + eapply IH; [exact Hs| |exact H]. rewrite <- app_assoc. split; [exact Hext|].
      split; [|exact Hall'].
      apply (@placed_replace board done c (narrow_cell board c) rest);
        [apply narrow_cell_pos|exact Hpl].
Qed.

Lemma elimination_admits s fuel board unknowns ret board' unknowns' :
  solved s ->
  admits s board (front unknowns) ->
  elimination_while fuel board unknowns true = Some (ret, board', unknowns') ->
  ret = SUCCESS_RET /\ admits s board' (front unknowns').
Proof.
  intros Hs Hadm H.
  destruct (elimination_while_last_pass
              (fun b l => admits s b (front l))
              (fun b l b' l' HP E =>
                 proj2 (@pass_admits s (front l) _ b [] false _ b' l' Hs HP E))
              fuel board unknowns Hadm H)
    as (b0 & l0 & ex & Hadm0 & Epass & Hex).
  destruct (@pass_admits s (front l0) _ b0 [] false _ _ _ Hs Hadm0 Epass)
    as [[m' ->] Hadm'].
  destruct Hex as [?|[_ ->]]; [discriminate|]. now split.
Qed.

Lemma eligible_duplicated_same c :
  cell_wf c -> forall v, In v (eligible (duplicated c)) <-> In v (eligible c).
Proof.
  intros [_ Hr]. apply cell_duplicate_members; [assumption|].
  apply cell_duplicate_duplicated.
Qed.

(** The state of the trial that takes the digit of [s]. *)
Lemma trial_admits s board temp rest :
  admits s board (temp :: rest) ->
  admits s
    (board_store (duplicate_board board_unset board)
                 (cell_grid_pos temp) (cell_y_pos temp) (cell_x_pos temp)
                 (board_at s (cell_pos temp)))
    (rev (map duplicated rest)).
Proof.
  intros (Hext & [Hnd Hpos] & Hall). cbn [map] in Hnd.
  inversion Hnd as [|? ? Hout Hnd']; subst.
  inversion Hpos as [|? ? _ Hpos']; subst.
  inversion Hall as [|? ? _ Hall']; subst.
  split; [|split; [split|]].
  - intros p Hp Hnz. destruct (pos_eq_dec p (cell_pos temp)) as [->|Hne].
    + now rewrite board_at_store_here.
    + rewrite board_at_store_other in * by assumption.
      rewrite duplicate_board_at in * by assumption. now apply Hext.
  - rewrite duplicated_positions. now apply NoDup_rev.
  - rewrite Forall_forall in *. intros c Hc. apply in_rev in Hc.
    apply in_map_iff in Hc as (c0 & <- & Hc0). rewrite cell_pos_duplicated.
    destruct (Hpos' c0 Hc0) as [Hr Hz]. split; [exact Hr|].
    rewrite board_at_store_other.
    + now rewrite duplicate_board_at.
    + intros E. apply Hout. rewrite <- E. now apply in_map.
  - rewrite Forall_forall in *. intros c Hc. apply in_rev in Hc.
    apply in_map_iff in Hc as (c0 & <- & Hc0).
    destruct (Hall' c0 Hc0) as [Hwf Hin]. split; [apply duplicated_wf|].
    rewrite cell_pos_duplicated. now apply eligible_duplicated_same.
Qed.

Lemma trial_loop_complete s recurse fuel_elim board rest sorter temp :
  solved s ->
  (forall b l r b' l', admits s b (front l) -> recurse b l = Some (r, b', l') ->
                       r = SUCCESS_RET) ->
  (forall b l r b' l', recurse b l = Some (r, b', l') ->
                       r = STALEMATE_RET \/ r = SUCCESS_RET) ->
  admits s board (temp :: rest) ->
  forall fuel cell r board' unknowns',
  cell_wf cell ->
  In (board_at s (cell_pos temp)) (eligible cell) ->
  trial_loop recurse fuel_elim (cell_grid_pos temp) (cell_x_pos temp) (cell_y_pos temp)
             fuel board (Build_List rest sorter) cell = Some (r, board', unknowns') ->
  r = SUCCESS_RET.
Proof.
  intros Hs Hrec Hcodes Hadm fuel.
  assert (Hpos : forall cell, In (board_at s (cell_pos temp)) (eligible cell) ->
                              (0 <? cell_eligible_values_length cell) = true).
  { intros cell Hin. apply Nat.ltb_lt.
    unfold cell_eligible_values_length, list_length. fold (eligible cell).
    destruct (eligible cell); [destruct Hin|simpl; lia]. }
  induction fuel as [|fuel IH]; intros cell r board' unknowns' Hwf Hin H;
    cbn [trial_loop] in H; rewrite (Hpos cell Hin) in H; [discriminate|].
  destruct (eligible cell) as [|v vs] eqn:Ecell; [destruct Hin|].
  - rewrite duplicate_unknown_list_spec in H. cbn [front] in H.
    rewrite (@next_trial_spec cell v vs Hwf Ecell) in H.
    assert (Hwf' : cell_wf (cell_with_front cell vs)).
    { apply cell_wf_with_front; [| |exact Hwf].
      - destruct Hwf as [Hnd _]. rewrite Ecell in Hnd. now inversion Hnd.
      - intros w Hw. rewrite Ecell. now right. }
    unfold solve_elimination_method in H.
    destruct (elimination_while fuel_elim _ _ true) as [[[elret bd] ud]|] eqn:Eel;
      [|discriminate].
    destruct (Z.eq_dec v (board_at s (cell_pos temp))) as [->|Hne].
    + destruct (@elimination_admits s _ _ (Build_List _ None) _ _ _ Hs
                  (@trial_admits s board temp rest Hadm) Eel) as [-> Hadm'].
      cbn in H.
      destruct (recurse bd ud) as [[[btret bd'] ud']|] eqn:Erec; [|discriminate].
      rewrite (Hrec _ _ _ _ _ Hadm' Erec) in H. cbn in H.
      now injection H as <- _ _.
    + assert (Hin' : In (board_at s (cell_pos temp)) (eligible (cell_with_front cell vs))).
      { rewrite eligible_cell_with_front.
        destruct Hin as [E|Hin]; [congruence|exact Hin]. }
      destruct (@elimination_wf_codes _ _ (Build_List _ None) _ _ _
                  (duplicated_all_wf rest) Eel) as [-> | ->]; cbn in H.
      * exact (IH _ _ _ _ Hwf' Hin' H).
      * destruct (recurse bd ud) as [[[btret bd'] ud']|] eqn:Erec; [|discriminate].
        destruct (Hcodes _ _ _ _ _ Erec) as [-> | ->]; cbn in H.
        -- exact (IH _ _ _ _ Hwf' Hin' H).
        -- now injection H as <- _ _.
Qed.

Lemma backtrack_complete s depth : forall fuel board unknowns r board' unknowns',
  solved s ->
  admits s board (front unknowns) ->
  solve_backtrack_method depth fuel board unknowns = Some (r, board', unknowns') ->
  r = SUCCESS_RET.
Proof.
  induction depth as [|depth IH]; intros fuel board unknowns r board' unknowns' Hs Hadm H;
    simpl in H; [discriminate|].
  destruct (list_is_empty unknowns) eqn:Eempty.
  { now injection H as <- _ _. }
  destruct (front unknowns) as [|temp rest] eqn:Efront.
  { apply list_is_empty_front in Efront. congruence. }
  rewrite (list_inspect_first unknowns Efront) in H.
  pose proof Hadm as (_ & _ & Hall). inversion Hall as [|? ? [Hwf Hin] _]; subst.
  unfold cell_eligible_values_length, list_length in H. fold (eligible temp) in H.
  destruct (eligible temp) as [|v vs] eqn:Et; [destruct Hin|].
  cbn [length Nat.eqb] in H.
  rewrite cell_duplicate_duplicated, (list_remove_first unknowns Efront) in H.
  change (cell_grid_pos (duplicated temp)) with (cell_grid_pos temp) in H.
  change (cell_x_pos (duplicated temp)) with (cell_x_pos temp) in H.
  change (cell_y_pos (duplicated temp)) with (cell_y_pos temp) in H.
  unfold list_with_front in H.
  apply (@trial_loop_complete s (solve_backtrack_method depth fuel) fuel board rest
           (sort_sequence unknowns) temp Hs
           (fun b l r0 b0 l0 Ha E => IH fuel b l r0 b0 l0 Hs Ha E)
           (fun b l r0 b0 l0 E => backtrack_codes _ _ _ _ E)
           Hadm fuel (duplicated temp) r board' unknowns');
    [apply duplicated_wf| |exact H].
  apply eligible_duplicated_same; [exact Hwf|]. now rewrite Et.
Qed.

Lemma count_le_solution s board S d :
  extends board s -> Forall in_range S -> (d <> 0)%Z ->
  count_occ Z.eq_dec (map (board_at board) S) d <=
  count_occ Z.eq_dec (map (board_at s) S) d.
Proof.
  intros Hext Hall Hd. induction Hall as [|p S Hp _ IH]; [apply le_n|].
  cbn [map count_occ].
  destruct (Z.eq_dec (board_at board p) d) as [E|E].
  - rewrite (Hext p Hp) by congruence.
    destruct (Z.eq_dec (board_at board p) d); [lia|contradiction].
  - destruct (Z.eq_dec (board_at s p) d); lia.
Qed.

Lemma extends_consistent s board : solved s -> extends board s -> consistent board.
Proof.
  intros [Hr Hc] Hext. split.
  - intros p Hp. destruct (Z.eq_dec (board_at board p) 0) as [E|E]; [lia|].
    rewrite <- (Hext p Hp E). specialize (Hr p Hp). lia.
  - intros S HS d Hd. destruct (@scope_facts S HS) as (_ & _ & Hall).
    assert (Hin : In (map (board_at s) S) (scopes s)).
    { rewrite scopes_positions. now apply in_map. }
    specialize (Hc _ Hin d Hd).
    assert (HallS : Forall in_range S).
    { rewrite Forall_forall. intros p Hp. now apply Hall. }
    pose proof (@count_le_solution s board S d Hext HallS ltac:(lia)). lia.
Qed.

Lemma initial_admits s board :
  solved s -> extends board s -> admits s board (front (empty_unknowns_list board)).
Proof.
  intros [Hr _] Hext. split; [exact Hext|]. split; [apply initial_placed|].
  rewrite Forall_forall. intros c Hc.
  apply empty_unknowns_list_In in Hc as (p & -> & Hp & Hz).
  split; [apply cell_at_wf|]. rewrite cell_pos_cell_at, eligible_cell_at.
  apply descending_In. specialize (Hr p Hp). unfold GRID_SIZE. lia.
Qed.

Lemma solve_sudoku_total board : exists outcome, solve_sudoku 82 82 board = Some outcome.
Proof.
  unfold solve_sudoku.
  destruct (list_is_empty (empty_unknowns_list board)); [eauto|].
  pose proof (empty_unknowns_list_length board) as H81.
  destruct (@elimination_while_total 82 board (empty_unknowns_list board))
    as (elret & b1 & l1 & E & Hl1); [lia|].
  unfold solve_elimination_method. rewrite E.
  destruct (elret =? ERROR_RET)%Z; [eauto|].
  destruct (@backtrack_total 82 82 b1 l1) as [[[btret b2] l2] E2]; try lia.
  rewrite E2. destruct (btret =? ERROR_RET)%Z; eauto.
Qed.

(** X1: the elimination never discards a solution.  On a state that
    admits a solved board [s] (the board shows digits of [s] only, the
    records stand on distinct unknown positions and each holds the digit of
    [s]), [solve_elimination_method] answers 1, every digit it commits is
    the digit of [s], and the state it leaves admits [s] as well. *)
Theorem elimination_keeps_solutions (s : Board) (fuel : nat) (board : Board)
    (unknowns : Linked_List Cell) (ret : Z) (board' : Board)
    (unknowns' : Linked_List Cell) :
  solved s ->
  admits s board (front unknowns) ->
  solve_elimination_method fuel board unknowns = Some (ret, board', unknowns') ->
  ret = SUCCESS_RET /\ extends board' s /\ admits s board' (front unknowns').
Proof.
  intros Hs Hadm H.
  destruct (@elimination_admits s fuel board unknowns ret board' unknowns' Hs Hadm H)
    as [Hr Hadm'].
  split; [exact Hr|]. split; [apply Hadm'|exact Hadm'].
Qed.

Lemma solve_sudoku_complete s board depth fuel outcome :
  solved s -> extends board s ->
  solve_sudoku depth fuel board = Some outcome ->
  (outcome = Nothing_To_Solve board \/
   exists final, outcome = Solver_Ran SUCCESS_RET SUCCESS_RET final) /\
  solved (outcome_board outcome).
Proof.
  intros Hs Hext H.
  pose proof (extends_consistent Hs Hext) as Hcons.
  pose proof (initial_state Hcons) as Hinit.
  pose proof (initial_admits Hs Hext) as Hadm.
  split; unfold solve_sudoku in H.
  - destruct (list_is_empty (empty_unknowns_list board)); [left; congruence|right].
    unfold solve_elimination_method in H.
    destruct (elimination_while fuel board (empty_unknowns_list board) true)
      as [[[e b1] l1]|] eqn:Eel; [|discriminate].
    destruct (@elimination_admits s _ _ _ _ _ _ Hs Hadm Eel) as [-> Hadm1].
    cbn in H.
    destruct (solve_backtrack_method depth fuel b1 l1) as [[[r b2] l2]|] eqn:Ebt;
      [|discriminate].
    rewrite (@backtrack_complete s depth fuel b1 l1 r b2 l2 Hs Hadm1 Ebt) in H.
    cbn in H. injection H as <-. eauto.
  - destruct (list_is_empty (empty_unknowns_list board)) eqn:Eempty.
    { injection H as <-. cbn [outcome_board].
      apply consistent_complete_solved; [exact Hcons|].
      apply list_is_empty_front in Eempty. destruct Hinit as (_ & Hcov & _).
      rewrite Eempty in Hcov. intros p Hp Hz. exact (Hcov p Hp Hz). }
    unfold solve_elimination_method in H.
    destruct (elimination_while fuel board (empty_unknowns_list board) true)
      as [[[e b1] l1]|] eqn:Eel; [|discriminate].
    destruct (@elimination_admits s _ _ _ _ _ _ Hs Hadm Eel) as [-> Hadm1].
    cbn in H.
    destruct (solve_backtrack_method depth fuel b1 l1) as [[[r b2] l2]|] eqn:Ebt;
      [|discriminate].
    pose proof (@backtrack_complete s depth fuel b1 l1 r b2 l2 Hs Hadm1 Ebt) as Hr.
    subst r. cbn in H. injection H as <-. cbn [outcome_board].
    pose proof (@elimination_search_ready _ _ _ _ _ _ Hinit Eel) as Hready.
    destruct (@backtrack_sound depth fuel b1 l1 _ b2 l2 Hready Ebt eq_refl).
    now apply consistent_complete_solved.
Qed.

(** X2: the search is complete.  When the input board can be completed to
    a solved board, [solve_sudoku] never ends with a failed search: it
    returns at once on a complete board, or both the elimination and the
    search answer 1; the board it leaves is solved; and with depth and fuel
    82 it does end. *)
Theorem solver_finds_a_solution (s board : Board) (depth fuel : nat)
    (outcome : Solve_Outcome) :
  solved s -> extends board s ->
  solve_sudoku depth fuel board = Some outcome ->
  (outcome = Nothing_To_Solve board \/
   exists final, outcome = Solver_Ran SUCCESS_RET SUCCESS_RET final) /\
  solved (outcome_board outcome) /\
  (exists outcome', solve_sudoku 82 82 board = Some outcome').
Proof.
  intros Hs Hext H.
  destruct (@solve_sudoku_complete s board depth fuel outcome Hs Hext H) as [H1 H2].
  split; [exact H1|]. split; [exact H2|apply solve_sudoku_total].
Qed.

Lemma solve_sudoku_codes depth fuel board outcome :
  solve_sudoku depth fuel board = Some outcome ->
  outcome = Nothing_To_Solve board \/
  exists elret btret final,
    outcome = Solver_Ran elret btret final /\
    (elret = STALEMATE_RET \/ elret = SUCCESS_RET) /\
    (btret = STALEMATE_RET \/ btret = SUCCESS_RET).
Proof.
  intros H. unfold solve_sudoku in H.
  destruct (list_is_empty (empty_unknowns_list board)); [left; congruence|right].
  unfold solve_elimination_method in H.
  destruct (elimination_while fuel board (empty_unknowns_list board) true)
    as [[[e b1] l1]|] eqn:Eel; [|discriminate].
  assert (Hwf : Forall cell_wf (front (empty_unknowns_list board))).
  { rewrite Forall_forall. intros c Hc.
    apply empty_unknowns_list_In in Hc as (p & -> & _). apply cell_at_wf. }
  pose proof (@elimination_wf_codes _ _ _ _ _ _ Hwf Eel) as He.
  assert (Hne : (e =? ERROR_RET)%Z = false) by (destruct He as [-> | ->]; reflexivity).
  rewrite Hne in H.
  destruct (solve_backtrack_method depth fuel b1 l1) as [[[r b2] l2]|] eqn:Ebt;
    [|discriminate].
  pose proof (backtrack_codes _ _ _ _ Ebt) as Hr.
  assert (Hnr : (r =? ERROR_RET)%Z = false) by (destruct Hr as [-> | ->]; reflexivity).
  rewrite Hnr in H. injection H as <-. exists e, r, b2. auto.
Qed.

(** X3: no error path is taken.  Whatever the board and the list,
    [solve_backtrack_method] answers 0 or 1, never -1; and [solve_sudoku]
    never reaches one of its two [run_time_error] exits: it returns at once,
    or after an elimination and a search that each answered 0 or 1. *)
Theorem solver_never_fails (depth fuel : nat) (board : Board)
    (unknowns : Linked_List Cell) :
  (forall r board' unknowns',
     solve_backtrack_method depth fuel board unknowns = Some (r, board', unknowns') ->
     r = STALEMATE_RET \/ r = SUCCESS_RET) /\
  (forall outcome,
     solve_sudoku depth fuel board = Some outcome ->
     outcome = Nothing_To_Solve board \/
     exists elret btret final,
       outcome = Solver_Ran elret btret final /\
       (elret = STALEMATE_RET \/ elret = SUCCESS_RET) /\
       (btret = STALEMATE_RET \/ btret = SUCCESS_RET)).
Proof.
  split.
  - intros r board' unknowns'. apply backtrack_codes.
  - intros outcome. apply solve_sudoku_codes.
Qed.

Lemma solvedb_sound board : solvedb board = true -> solved board.
Proof.
  unfold solvedb. rewrite andb_true_iff, !forallb_forall.
  intros [Hr Hc]. split.
  - intros p Hp. specialize (Hr p Hp). apply andb_true_iff in Hr. lia.
  - intros digits Hin d Hd. specialize (Hc digits Hin).
    rewrite forallb_forall in Hc. apply Nat.eqb_eq, Hc.
    assert (d = 1 \/ d = 2 \/ d = 3 \/ d = 4 \/ d = 5 \/ d = 6 \/ d = 7 \/ d = 8 \/ d = 9)%Z
      as Hcases by lia.
    simpl. intuition.
Qed.

Lemma extendsb_sound board s : extendsb board s = true -> extends board s.
Proof.
  unfold extendsb. rewrite forallb_forall. intros H p Hp Hz.
  specialize (H p Hp). apply orb_true_iff in H as [H|H]; lia.
Qed.

Lemma board_complete_solved : solved board_complete.
Proof. apply solvedb_sound. vm_compute. reflexivity. Qed.

Lemma elimination_keeps_solutions_witness :
  exists board' unknowns',
    solve_elimination_method 9 board_two_solutions
      (empty_unknowns_list board_two_solutions) = Some (SUCCESS_RET, board', unknowns') /\
    extends board' board_complete /\
    admits board_complete board' (front unknowns').
Proof.
  destruct (solve_elimination_method 9 board_two_solutions
              (empty_unknowns_list board_two_solutions))
    as [[[ret board'] unknowns']|] eqn:E; [|vm_compute in E; discriminate].
  assert (Hs : solved board_complete) by exact board_complete_solved.
  assert (Hext : extends board_two_solutions board_complete).
  { apply extendsb_sound. vm_compute. reflexivity. }
  destruct (@elimination_keeps_solutions board_complete 9 board_two_solutions
              (empty_unknowns_list board_two_solutions) ret board' unknowns'
              Hs (initial_admits Hs Hext) E) as (-> & H1 & H2).
  exists board', unknowns'. auto.
Defined.

Lemma solver_finds_a_solution_witness :
  exists outcome,
    solve_sudoku 5 9 board_two_solutions = Some outcome /\
    (outcome = Nothing_To_Solve board_two_solutions \/
     exists final, outcome = Solver_Ran SUCCESS_RET SUCCESS_RET final) /\
    solved (outcome_board outcome).
Proof.
  destruct (solve_sudoku 5 9 board_two_solutions) as [outcome|] eqn:E;
    [|vm_compute in E; discriminate].
  assert (Hs : solved board_complete) by exact board_complete_solved.
  assert (Hext : extends board_two_solutions board_complete).
  { apply extendsb_sound. vm_compute. reflexivity. }
  destruct (@solver_finds_a_solution board_complete board_two_solutions 5 9 outcome
              Hs Hext E) as (H1 & H2 & _).
  exists outcome. auto.
Defined.

(** ** Board set-up and validation *)

Lemma init_board_at board p : in_range p -> board_at (init_board board) p = 0%Z.
Proof.
  intros Hp.
  assert (H : forallb (fun p => (board_at (init_board board) p =? 0)%Z) cells = true)
    by (vm_compute; reflexivity).
  rewrite forallb_forall in H. apply Z.eqb_eq, H, Hp.
Qed.

(** X4: [init_board] leaves every entry of the board unknown, whatever
    the array held: [empty_unknowns_list] then creates 81 records, and
    [solve_sudoku] fills the board by search into a solved one. *)
Theorem init_board_all_unknown (board : Board) :
  (forall p, in_range p -> board_at (init_board board) p = 0%Z) /\
  list_length (empty_unknowns_list (init_board board)) = 81 /\
  exists final,
    solve_sudoku 82 82 (init_board board) =
      Some (Solver_Ran SUCCESS_RET SUCCESS_RET final) /\
    solved final.
Proof.
  split; [apply init_board_at|]. split.
  - rewrite empty_unknowns_list_spec. unfold list_length. cbn [front].
    rewrite length_rev, length_map.
    replace (filter (is_unknown (init_board board)) cells) with cells; [reflexivity|].
    symmetry. apply forallb_filter_id. apply forallb_forall. intros p Hp.
    unfold is_unknown. rewrite (init_board_at board Hp). reflexivity.
  - assert (Hs : solved board_complete) by exact board_complete_solved.
    assert (Hext : extends (init_board board) board_complete).
    { intros p Hp Hz. now rewrite (init_board_at board Hp) in Hz. }
    destruct (solve_sudoku_total (init_board board)) as [outcome E].
    destruct (@solve_sudoku_complete board_complete (init_board board) 82 82 outcome
                Hs Hext E) as [[-> | [final ->]] Hsolved].
    + exfalso. cbn [outcome_board] in Hsolved.
      assert (Hp : in_range (0, 0, 0)) by (apply cells_in_range; lia).
      pose proof (proj1 Hsolved _ Hp) as Hr.
      rewrite (init_board_at board Hp) in Hr. lia.
    + exists final. split; [exact E|exact Hsolved].
Qed.

Lemma counter_bump_length counter k : length (counter_bump counter k) = length counter.
Proof.
  revert k. induction counter as [|c rest IH]; intros [|k]; simpl; auto.
Qed.

Lemma counter_bump_nth counter k i :
  k < length counter ->
  nth i (counter_bump counter k) 0%Z =
    (nth i counter 0 + (if (i =? k)%nat then 1 else 0))%Z.
Proof.
  revert k i. induction counter as [|c rest IH]; intros k i Hk; simpl in Hk; [lia|].
  destruct k as [|k], i as [|i]; simpl; try lia.
  apply IH. lia.
Qed.

Lemma count_digit_length counter val : length (count_digit counter val) = length counter.
Proof.
  unfold count_digit. destruct (val =? 0)%Z; [reflexivity|].
  destruct (val <? 1)%Z; [reflexivity|apply counter_bump_length].
Qed.

Lemma count_digit_nth counter val i :
  length counter = GRID_SIZE -> (0 <= val <= 9)%Z ->
  nth i (count_digit counter val) 0%Z =
    (nth i counter 0 + (if Z.eq_dec val (Z.of_nat i + 1) then 1 else 0))%Z.
Proof.
  intros Hlen Hval. unfold count_digit.
  destruct (val =? 0)%Z eqn:E0.
  { apply Z.eqb_eq in E0. destruct (Z.eq_dec val (Z.of_nat i + 1)); lia. }
  apply Z.eqb_neq in E0.
  destruct (val <? 1)%Z eqn:E1; [apply Z.ltb_lt in E1; lia|].
  rewrite counter_bump_nth by (rewrite Hlen; unfold GRID_SIZE; lia).
  destruct (i =? Z.to_nat (val - 1)) eqn:Ei;
    [apply Nat.eqb_eq in Ei|apply Nat.eqb_neq in Ei];
    destruct (Z.eq_dec val (Z.of_nat i + 1)); lia.
Qed.

(** The tally the second loop of [checks_repeating_digits] leaves. *)
Lemma tally_nth digits : forall counter i,
  length counter = GRID_SIZE ->
  Forall (fun d => (0 <= d <= 9)%Z) digits ->
  nth i (fold_left count_digit digits counter) 0%Z =
    (nth i counter 0 + Z.of_nat (count_occ Z.eq_dec digits (Z.of_nat i + 1)))%Z.
Proof.
  induction digits as [|d rest IH]; intros counter i Hlen Hall; cbn [fold_left count_occ].
  - lia.
  - inversion Hall as [|? ? Hd Hrest]; subst.
    rewrite IH by (rewrite ?count_digit_length; assumption).
    rewrite (@count_digit_nth counter d i Hlen Hd).
    destruct (Z.eq_dec d (Z.of_nat i + 1)); lia.
Qed.

Lemma map_nth_seq (A : Type) (l : list A) (d : A) :
  map (fun j => nth j l d) (seq 0 (length l)) = l.
Proof.
  induction l as [|a l IH]; [reflexivity|].
  cbn [length seq map nth]. f_equal.
  rewrite <- seq_shift, map_map. exact IH.
Qed.

Lemma checks_repeating_digits_tally digits :
  length digits = GRID_SIZE ->
  Forall (fun d => (0 <= d <= 9)%Z) digits ->
  checks_repeating_digits digits =
    existsb (fun k => 3 <=? count_occ Z.eq_dec digits (Z.of_nat k + 1)%Z) (seq 0 GRID_SIZE).
Proof.
  intros Hlen Hall. unfold checks_repeating_digits.
  rewrite <- (@fold_left_map _ _ _ count_digit (fun j => nth j digits 0%Z)).
  replace (map (fun j => nth j digits 0%Z) (seq 0 GRID_SIZE)) with digits
    by (rewrite <- Hlen; symmetry; apply map_nth_seq).
  assert (Hinit : forall k, k < GRID_SIZE ->
            nth k (map (fun _ : nat => (-1)%Z) (seq 0 GRID_SIZE)) 0%Z = (-1)%Z).
  { intros k Hk. unfold GRID_SIZE in *.
    do 9 (destruct k as [|k]; [reflexivity|]). lia. }
  apply eq_true_iff_eq. rewrite !existsb_exists.
  split; intros (k & Hin & Hk); exists k; (split; [exact Hin|]);
    apply in_seq in Hin;
    rewrite tally_nth in * by (rewrite ?length_map, ?length_seq; auto);
    rewrite Hinit in * by lia.
  - apply Z.ltb_lt in Hk. apply Nat.leb_le. lia.
  - apply Nat.leb_le in Hk. apply Z.ltb_lt. lia.
Qed.

Lemma checks_repeating_digits_false digits :
  length digits = GRID_SIZE ->
  Forall (fun d => (0 <= d <= 9)%Z) digits ->
  (checks_repeating_digits digits = false <->
   forall d, (1 <= d <= 9)%Z -> count_occ Z.eq_dec digits d < 3).
Proof.
  intros Hlen Hall. rewrite (@checks_repeating_digits_tally digits Hlen Hall).
  rewrite <- not_true_iff_false, existsb_exists. split.
  - intros Hno d Hd.
    destruct (le_lt_dec 3 (count_occ Z.eq_dec digits d)) as [Hge|Hlt]; [|exact Hlt].
    exfalso. apply Hno. exists (Z.to_nat (d - 1)). split.
    + apply in_seq. unfold GRID_SIZE. lia.
    + apply Nat.leb_le. replace (Z.of_nat (Z.to_nat (d - 1)) + 1)%Z with d by lia.
      exact Hge.
  - intros Hlt (k & Hin & Hk). apply in_seq in Hin. unfold GRID_SIZE in Hin.
    apply Nat.leb_le in Hk.
    specialize (Hlt (Z.of_nat k + 1)%Z ltac:(lia)). lia.
Qed.

(** X5: what [checks_repeating_digits] reports.  Its counters start at -1
    and the last loop tests [counter[k] > 1], so on nine digits between 0
    and 9 it returns true exactly when one of 1..9 occurs three times or
    more: a digit that occurs twice goes unreported, and zeros are never
    counted. *)
Theorem checks_repeating_digits_reports_triples (digits : list Z) :
  length digits = GRID_SIZE ->
  Forall (fun d => (0 <= d <= 9)%Z) digits ->
  (checks_repeating_digits digits = true <->
   exists d, (1 <= d <= 9)%Z /\ 3 <= count_occ Z.eq_dec digits d).
Proof.
  intros Hlen Hall. rewrite (@checks_repeating_digits_tally digits Hlen Hall), existsb_exists.
  split.
  - intros (k & Hin & Hk). apply in_seq in Hin. unfold GRID_SIZE in Hin.
    apply Nat.leb_le in Hk. exists (Z.of_nat k + 1)%Z. split; [lia|exact Hk].
  - intros (d & Hd & Hge). exists (Z.to_nat (d - 1)). split.
    + apply in_seq. unfold GRID_SIZE. lia.
    + apply Nat.leb_le. replace (Z.of_nat (Z.to_nat (d - 1)) + 1)%Z with d by lia.
      exact Hge.
Qed.

Lemma checks_repeating_digits_reports_triples_witness :
  checks_repeating_digits [4; 4; 0; 0; 7; 0; 0; 0; 0]%Z = false /\
  (checks_repeating_digits [4; 4; 0; 4; 7; 0; 0; 0; 0]%Z = true <->
   exists d, (1 <= d <= 9)%Z /\
             3 <= count_occ Z.eq_dec [4; 4; 0; 4; 7; 0; 0; 0; 0]%Z d).
Proof.
  split; [reflexivity|].
  apply (@checks_repeating_digits_reports_triples [4; 4; 0; 4; 7; 0; 0; 0; 0]%Z).
  - reflexivity.
  - repeat constructor; lia.
Defined.

Lemma forallb_over_map (A B : Type) (f : B -> bool) (g : A -> B) l :
  forallb f (map g l) = forallb (fun a => f (g a)) l.
Proof. induction l as [|a l IH]; simpl; [reflexivity|now rewrite IH]. Qed.

Lemma forallb_over_flat_map (A B : Type) (f : B -> bool) (g : A -> list B) l :
  forallb f (flat_map g l) = forallb (fun a => forallb f (g a)) l.
Proof.
  induction l as [|a l IH]; simpl; [reflexivity|].
  now rewrite forallb_app, IH.
Qed.

Lemma forallb_pointwise (A : Type) (f g : A -> bool) l :
  (forall a, f a = g a) -> forallb f l = forallb g l.
Proof.
  intros H. induction l as [|a l IH]; simpl; [reflexivity|now rewrite H, IH].
Qed.

(** The last loop nest of [validate_board] visits the 81 cells. *)
Lemma validate_scan board :
  forallb (fun grid =>
    forallb (fun y =>
      forallb (fun x => negb (board grid y x =? 0)%Z) (seq 0 X_SIZE))
      (seq 0 Y_SIZE))
    (seq 0 GRID_SIZE) = true <-> complete board.
Proof.
  assert (E : forallb (fun grid =>
      forallb (fun y =>
        forallb (fun x => negb (board grid y x =? 0)%Z) (seq 0 X_SIZE))
        (seq 0 Y_SIZE))
      (seq 0 GRID_SIZE) = forallb (fun p => negb (board_at board p =? 0)%Z) cells).
  { rewrite cells_unfold, forallb_over_flat_map.
    apply forallb_pointwise. intros grid. rewrite forallb_over_flat_map.
    apply forallb_pointwise. intros y. now rewrite forallb_over_map. }
  rewrite E, forallb_forall. unfold complete, in_range.
  split; intros H p Hp; specialize (H p Hp).
  - apply negb_true_iff, Z.eqb_neq in H. exact H.
  - apply negb_true_iff, Z.eqb_neq. exact H.
Qed.

Lemma validate_board_true board flag :
  validate_board board flag = true <->
  (forall digits, In digits (scopes board) -> checks_repeating_digits digits = false) /\
  (flag = true -> complete board).
Proof.
  assert (Hvalid :
    (if check_each_grid board then
       if check_each_row board then
         if check_each_column board then true else false
       else false
     else false) = true <->
    forall digits, In digits (scopes board) -> checks_repeating_digits digits = false).
  { unfold scopes, each_scope, check_each_grid, check_each_row, check_each_column.
    split.
    - intros H digits Hin.
      destruct (forallb _ (each_grid board)) eqn:Eg; [|discriminate].
      destruct (forallb _ (each_row board)) eqn:Er; [|discriminate].
      destruct (forallb _ (each_column board)) eqn:Ec; [|discriminate].
      rewrite forallb_forall in Eg, Er, Ec.
      apply negb_true_iff.
      apply in_app_or in Hin as [Hin|Hin]; [now apply Eg|].
      apply in_app_or in Hin as [Hin|Hin]; [now apply Er|now apply Ec].
    - intros H.
      assert (Hall : forall l, incl l (each_grid board ++ each_row board ++ each_column board) ->
                forallb (fun digits => negb (checks_repeating_digits digits)) l = true).
      { intros l Hl. apply forallb_forall. intros digits Hin.
        apply negb_true_iff, H, Hl, Hin. }
      rewrite !Hall; [reflexivity| | |].
      + intros d Hd. apply in_or_app. right. apply in_or_app. now right.
      + intros d Hd. apply in_or_app. right. apply in_or_app. now left.
      + intros d Hd. apply in_or_app. now left. }
  unfold validate_board. cbv zeta.
  destruct (if check_each_grid board then _ else false) eqn:Ev; cbn [negb].
  - destruct flag.
    + rewrite validate_scan. split.
      * intros Hc. split; [now apply Hvalid|auto].
      * intros [_ Hc]. now apply Hc.
    + split; [intros _; split; [now apply Hvalid|discriminate]|reflexivity].
  - split; [discriminate|]. intros [H _]. apply Hvalid in H. discriminate.
Qed.

Lemma scope_digits board digits :
  (forall p, in_range p -> (0 <= board_at board p <= 9)%Z) ->
  In digits (scopes board) ->
  length digits = GRID_SIZE /\ Forall (fun d => (0 <= d <= 9)%Z) digits.
Proof.
  intros Hr Hin. rewrite scopes_positions in Hin.
  apply in_map_iff in Hin as (S & <- & HS).
  destruct (@scope_facts S HS) as (Hlen & _ & Hall).
  split; [now rewrite length_map|].
  rewrite Forall_forall. intros d Hd.
  apply in_map_iff in Hd as (p & <- & Hp). apply Hr, Hall, Hp.
Qed.

Lemma validate_board_no_triple board flag :
  (forall p, in_range p -> (0 <= board_at board p <= 9)%Z) ->
  (validate_board board flag = true <->
   no_triple board /\ (flag = true -> complete board)).
Proof.
  intros Hr. rewrite validate_board_true. unfold no_triple.
  split; intros [H Hc]; (split; [|exact Hc]); intros digits Hin;
    destruct (@scope_digits board digits Hr Hin) as [Hlen Hall];
    apply (@checks_repeating_digits_false digits Hlen Hall); now apply H.
Qed.

Lemma scope_consistent_no_triple board : scope_consistent board -> no_triple board.
Proof.
  intros [_ Hc] digits Hin d Hd. specialize (Hc digits Hin d Hd). lia.
Qed.

Lemma solved_validates board : solved board -> validate_board board true = true.
Proof.
  intros [Hr Hc]. apply validate_board_no_triple.
  - intros p Hp. specialize (Hr p Hp). lia.
  - split.
    + intros digits Hin d Hd. rewrite (Hc digits Hin d Hd). lia.
    + intros _ p Hp. specialize (Hr p Hp). lia.
Qed.

(** X6: what [validate_board] decides.  On a board of digits 0..9 it
    returns true exactly when no scope (box, row or column) shows one of
    1..9 three times or more and, with [solved] set, no entry is 0. *)
Theorem validate_board_decides (board : Board) (flag : bool) :
  (forall p, in_range p -> (0 <= board_at board p <= 9)%Z) ->
  (validate_board board flag = true <->
   (forall digits, In digits (scopes board) ->
      forall d, (1 <= d <= 9)%Z -> count_occ Z.eq_dec digits d <= 2) /\
   (flag = true -> forall grid y x, grid < 9 -> y < 3 -> x < 3 ->
      board grid y x <> 0%Z)).
Proof.
  intros Hr. rewrite (@validate_board_no_triple board flag Hr).
  unfold no_triple, complete. split; intros [H Hc]; split.
  - intros digits Hin d Hd. specialize (H digits Hin d Hd). lia.
  - intros Hf grid y x Hg Hy Hx.
    apply (Hc Hf (grid, y, x)). apply cells_in_range. lia.
  - intros digits Hin d Hd. specialize (H digits Hin d Hd). lia.
  - intros Hf [[grid y] x] Hp. apply cells_in_range in Hp.
    apply (Hc Hf); lia.
Qed.

Lemma validate_board_decides_witness :
  validate_board board_three_unknown false = true /\
  validate_board board_three_unknown true = false.
Proof.
  assert (Hr : forall p, in_range p -> (0 <= board_at board_three_unknown p <= 9)%Z).
  { assert (Hsc : scope_consistent board_three_unknown)
      by (apply scope_consistentb_sound; vm_compute; reflexivity).
    exact (proj1 Hsc). }
  split.
  - apply (proj2 (@validate_board_decides board_three_unknown false Hr)). split.
    + assert (Hsc : scope_consistent board_three_unknown)
        by (apply scope_consistentb_sound; vm_compute; reflexivity).
      intros digits Hin d Hd. pose proof (proj2 Hsc digits Hin d Hd). lia.
    + discriminate.
  - apply not_true_iff_false. intros H.
    apply (proj1 (@validate_board_decides board_three_unknown true Hr)) in H.
    destruct H as [_ H]. apply (H eq_refl 8 2 2); [lia|lia|lia|reflexivity].
Defined.

(** X7: the validation is strictly weaker than the solver's precondition.
    [validate_board] with [solved] false accepts every board that holds
    each of 1..9 at most once per scope, and it also accepts a board that
    shows the same digit twice in one box. *)
Theorem validate_board_accepts_pairs :
  (forall board, scope_consistent board -> validate_board board false = true) /\
  (exists board,
     validate_board board false = true /\
     (exists digits, In digits (scopes board) /\ count_occ Z.eq_dec digits 1%Z = 2) /\
     ~ scope_consistent board).
Proof.
  split.
  - intros board Hsc. apply (@validate_board_no_triple board false (proj1 Hsc)).
    split; [now apply scope_consistent_no_triple|discriminate].
  - exists board_pair.
    assert (Hin : In (map (board_at board_pair) (hd [] scope_positions)) (scopes board_pair)).
    { rewrite scopes_positions. apply in_map. vm_compute. now left. }
    split; [vm_compute; reflexivity|]. split.
    + eexists. split; [exact Hin|]. vm_compute. reflexivity.
    + intros [_ Hc]. specialize (Hc _ Hin 1%Z ltac:(lia)).
      vm_compute in Hc. lia.
Qed.

Lemma backtrack_empty depth fuel board unknowns r board' unknowns' :
  solve_backtrack_method depth fuel board unknowns = Some (r, board', unknowns') ->
  r <> SUCCESS_RET -> front unknowns <> [].
Proof.
  intros H Hr Hempty. apply list_is_empty_front in Hempty.
  destruct depth as [|depth]; simpl in H; [discriminate|].
  rewrite Hempty in H. injection H as <- _ _. now apply Hr.
Qed.

Lemma unknown_left_invalid board unknowns :
  placed board unknowns -> unknowns <> [] -> validate_board board true = false.
Proof.
  intros [_ Hall] Hne. apply not_true_iff_false. intros H.
  apply validate_board_true in H as [_ Hc].
  destruct unknowns as [|c rest]; [now apply Hne|].
  inversion Hall as [|? ? [Hp Hz] _]; subst.
  exact (Hc eq_refl _ Hp Hz).
Qed.

(** ** Reading a box from a line of input *)

Lemma validate_digit_input_chars in_str :
  validate_digit_input in_str = true <->
  forall i, i < GRID_SIZE -> (CHAR_0 <= char_at in_str i <= CHAR_9)%Z.
Proof.
  unfold validate_digit_input. rewrite forallb_forall. split.
  - intros H i Hi. specialize (H i ltac:(apply in_seq; lia)).
    apply negb_true_iff, orb_false_iff in H as [H1 H2].
    apply Z.ltb_ge in H1, H2. lia.
  - intros H i Hi. apply in_seq in Hi. specialize (H i ltac:(lia)).
    apply negb_true_iff, orb_false_iff. split; apply Z.ltb_ge; lia.
Qed.

(** The two loops of [store_grid_values_input] in closed form: the running
    index [i] is [y * X_SIZE + x]. *)
Lemma store_grid_values_input_at board grid_i in_str grid y x :
  y < Y_SIZE -> x < X_SIZE ->
  store_grid_values_input board grid_i in_str grid y x =
    if grid =? grid_i then (char_at in_str (y * X_SIZE + x) - CHAR_0)%Z
    else board grid y x.
Proof.
  intros Hy Hx. unfold store_grid_values_input, Y_SIZE, X_SIZE in *.
  cbn [seq fold_left snd Nat.add]. unfold board_store.
  destruct (grid =? grid_i) eqn:Eg; cbn [andb].
  - destruct y as [|[|[|y]]]; [| | |lia];
      (destruct x as [|[|[|x]]]; [| | |lia]); reflexivity.
  - reflexivity.
Qed.

(** X9: a line that [validate_digit_input] accepts is stored as digits.
    After [store_grid_values_input], row [y], column [x] of box [grid_i]
    holds the value of character [3 * y + x] of the line, a number between
    0 and 9; the other boxes keep their entries. *)
Theorem accepted_line_stored_as_digits (board : Board) (grid_i : nat)
    (in_str : list Ascii.ascii) :
  validate_digit_input in_str = true ->
  forall grid y x, y < 3 -> x < 3 ->
  let board' := store_grid_values_input board grid_i in_str in
  (board' grid_i y x = char_at in_str (3 * y + x) - CHAR_0)%Z /\
  (0 <= board' grid_i y x <= 9)%Z /\
  (grid <> grid_i -> board' grid y x = board grid y x).
Proof.
  intros Hv grid y x Hy Hx board'. subst board'.
  rewrite validate_digit_input_chars in Hv.
  rewrite !(@store_grid_values_input_at board grid_i in_str _ y x Hy Hx).
  rewrite Nat.eqb_refl. replace (y * X_SIZE + x) with (3 * y + x) by (unfold X_SIZE; lia).
  specialize (Hv (3 * y + x) ltac:(unfold GRID_SIZE; lia)).
  unfold CHAR_0, CHAR_9 in *. split; [reflexivity|]. split; [lia|].
  intros Hne. apply Nat.eqb_neq in Hne. now rewrite Hne.
Qed.

Lemma accepted_line_stored_as_digits_witness :
  let in_str := map Ascii.ascii_of_nat [53; 51; 48; 48; 55; 48; 48; 48; 57] in
  let board' := store_grid_values_input board_all_unknown 4 in_str in
  validate_digit_input in_str = true /\
  board' 4 1 1 = 7%Z /\ (0 <= board' 4%nat 1%nat 1%nat <= 9)%Z.
Proof.
  intros in_str board'.
  assert (Hv : validate_digit_input in_str = true) by reflexivity.
  destruct (@accepted_line_stored_as_digits board_all_unknown 4 in_str Hv 0 1 1
              ltac:(lia) ltac:(lia)) as (H1 & H2 & _).
  split; [exact Hv|]. split; [|exact H2].
  transitivity (char_at in_str (3 * 1 + 1) - CHAR_0)%Z; [exact H1|reflexivity].
Defined.

(** X10: a line that [validate_digit_input] rejects does not pass through
    [store_grid_values_input] unnoticed: storing it leaves, in the box, an
    entry that is no digit 0..9.  ([request_and_manage_user_input] stores
    the line also when the validation failed, and asks for the same box
    again.) *)
Theorem rejected_line_stores_no_digit (board : Board) (grid_i : nat)
    (in_str : list Ascii.ascii) :
  validate_digit_input in_str = false ->
  exists y x, y < 3 /\ x < 3 /\
    ~ (0 <= store_grid_values_input board grid_i in_str grid_i y x <= 9)%Z.
Proof.
  intros Hv. unfold validate_digit_input in Hv.
  apply not_true_iff_false in Hv.
  assert (Hex : exists i, i < GRID_SIZE /\
            ~ (CHAR_0 <= char_at in_str i <= CHAR_9)%Z).
  { destruct (existsb (fun i => (char_at in_str i <? CHAR_0)%Z ||
                                (CHAR_9 <? char_at in_str i)%Z) (seq 0 GRID_SIZE))
      eqn:Eex.
    - apply existsb_exists in Eex as (i & Hi & Hbad). apply in_seq in Hi.
      exists i. split; [lia|].
      apply orb_true_iff in Hbad as [Hbad|Hbad]; apply Z.ltb_lt in Hbad; lia.
    - exfalso. apply Hv. apply forallb_forall. intros i Hi.
      apply negb_true_iff.
      destruct ((char_at in_str i <? CHAR_0)%Z || (CHAR_9 <? char_at in_str i)%Z)
        eqn:Ebad; [|reflexivity].
      assert (Htrue : existsb (fun i => (char_at in_str i <? CHAR_0)%Z ||
                                (CHAR_9 <? char_at in_str i)%Z) (seq 0 GRID_SIZE) = true)
        by (apply existsb_exists; eauto).
      rewrite Htrue in Eex. discriminate. }
  destruct Hex as (i & Hi & Hbad). unfold GRID_SIZE in Hi.
  exists (i / 3), (i mod 3).
  assert (Hy : i / 3 < 3) by (apply Nat.Div0.div_lt_upper_bound; lia).
  assert (Hx : i mod 3 < 3) by (apply Nat.mod_upper_bound; lia).
  split; [exact Hy|]. split; [exact Hx|].
  rewrite (@store_grid_values_input_at board grid_i in_str grid_i _ _ Hy Hx).
  rewrite Nat.eqb_refl. unfold X_SIZE.
  replace (i / 3 * 3 + i mod 3) with i by (pose proof (Nat.div_mod_eq i 3); lia).
  unfold CHAR_0, CHAR_9 in *. lia.
Qed.

Lemma rejected_line_stores_no_digit_witness :
  let in_str := map Ascii.ascii_of_nat [53; 51; 48; 48; 120; 48; 48; 48; 57] in
  validate_digit_input in_str = false /\
  exists y x, y < 3 /\ x < 3 /\
    ~ (0 <= store_grid_values_input board_all_unknown 4 in_str 4%nat y x <= 9)%Z.
Proof.
  intros in_str.
  assert (Hv : validate_digit_input in_str = false) by reflexivity.
  split; [exact Hv|].
  exact (@rejected_line_stores_no_digit board_all_unknown 4 in_str Hv).
Defined.

(** ** The container: ordered insertion and positions *)

Section ContainerLaws.
Variable A : Type.
Implicit Types (l : Linked_List A) (cmp : A -> A -> Z).

Lemma insert_sorted_split cmp v nodes :
  exists pre suf,
    nodes = pre ++ suf /\
    insert_sorted cmp v nodes = pre ++ v :: suf /\
    Forall (fun a => (0 < cmp v a)%Z) pre /\
    match suf with [] => True | b :: _ => (cmp v b <= 0)%Z end.
Proof.
  induction nodes as [|current rest IH]; simpl.
  - exists [], []. repeat split; constructor.
  - destruct (cmp v current <=? 0)%Z eqn:E.
    + exists [], (current :: rest). apply Z.leb_le in E. repeat split; auto.
    + destruct IH as (pre & suf & -> & -> & Hpre & Hsuf).
      exists (current :: pre), suf. apply Z.leb_gt in E.
      repeat split; auto.
Qed.

Lemma insert_sorted_In cmp v nodes x :
  In x (insert_sorted cmp v nodes) <-> x = v \/ In x nodes.
Proof.
  destruct (insert_sorted_split cmp v nodes) as (pre & suf & -> & -> & _).
  rewrite !in_app_iff. simpl. intuition.
Qed.

Lemma insert_sorted_Permutation cmp v nodes :
  Permutation (v :: nodes) (insert_sorted cmp v nodes).
Proof.
  destruct (insert_sorted_split cmp v nodes) as (pre & suf & -> & -> & _).
  apply Permutation_middle.
Qed.

Lemma insert_sorted_sorted cmp v nodes :
  (forall a b c, (cmp a b <= 0)%Z -> (cmp b c <= 0)%Z -> (cmp a c <= 0)%Z) ->
  (forall a b, (0 < cmp a b)%Z -> (cmp b a <= 0)%Z) ->
  StronglySorted (cmp_le cmp) nodes ->
  StronglySorted (cmp_le cmp) (insert_sorted cmp v nodes).
Proof.
  intros Htrans Htotal Hs. induction Hs as [|current rest Hrest IH Hall]; simpl.
  - repeat constructor.
  - destruct (cmp v current <=? 0)%Z eqn:E.
    + apply Z.leb_le in E. constructor; [now constructor|].
      constructor; [exact E|].
      rewrite Forall_forall in *. intros x Hx.
      exact (Htrans _ _ _ E (Hall x Hx)).
    + apply Z.leb_gt in E. constructor; [exact IH|].
      rewrite Forall_forall in *. intros x Hx.
      apply insert_sorted_In in Hx as [-> | Hx]; [now apply Htotal|now apply Hall].
Qed.

Lemma list_insert_front l v :
  front (list_insert l v) =
    match sort_sequence l with
    | None => v :: front l
    | Some cmp => insert_sorted cmp v (front l)
    end.
Proof.
  unfold list_insert, list_is_empty.
  destruct l as [[|a f] [cmp|]]; reflexivity.
Qed.

Lemma list_insert_sort_sequence l v :
  sort_sequence (list_insert l v) = sort_sequence l.
Proof.
  unfold list_insert, list_is_empty.
  destruct l as [[|a f] [cmp|]]; reflexivity.
Qed.

(** X11: where [list_insert] puts a value when the list has a comparator.
    The new node goes right before the first node [b] with
    [sort_sequence(value, b) <= 0], after every node the comparator ranks
    strictly below the value, and at the end when there is no such [b];
    the other nodes keep their order. *)
Theorem list_insert_before_first_not_smaller l cmp (v : A) :
  sort_sequence l = Some cmp ->
  exists pre suf,
    front l = pre ++ suf /\
    front (list_insert l v) = pre ++ v :: suf /\
    Forall (fun a => (0 < cmp v a)%Z) pre /\
    match suf with [] => True | b :: _ => (cmp v b <= 0)%Z end.
Proof.
  intros Hs. rewrite list_insert_front, Hs. apply insert_sorted_split.
Qed.

(** X12: [list_insert] keeps a list sorted.  For a comparator that is
    transitive and total, inserting into a list sorted by it gives a
    sorted list that holds the old values and the new one, and the
    comparator stays. *)
Theorem list_insert_keeps_sorted l cmp (v : A) :
  sort_sequence l = Some cmp ->
  (forall a b c, (cmp a b <= 0)%Z -> (cmp b c <= 0)%Z -> (cmp a c <= 0)%Z) ->
  (forall a b, (0 < cmp a b)%Z -> (cmp b a <= 0)%Z) ->
  StronglySorted (cmp_le cmp) (front l) ->
  StronglySorted (cmp_le cmp) (front (list_insert l v)) /\
  Permutation (v :: front l) (front (list_insert l v)) /\
  sort_sequence (list_insert l v) = Some cmp.
Proof.
  intros Hs Htrans Htotal Hsorted.
  rewrite list_insert_front, list_insert_sort_sequence, Hs.
  split; [now apply insert_sorted_sorted|].
  split; [apply insert_sorted_Permutation|reflexivity].
Qed.

(** X13: without a comparator the list is a stack.  [list_insert] puts
    the value at position 1 and moves every node one position up, and
    [list_remove] at position 1 undoes it. *)
Theorem list_insert_at_front l (v : A) :
  sort_sequence l = None ->
  list_length (list_insert l v) = S (list_length l) /\
  list_inspect (list_insert l v) 1 = Some v /\
  (forall pos, 1 <= pos -> list_inspect (list_insert l v) (S pos) = list_inspect l pos) /\
  list_remove (list_insert l v) 1 = Some l.
Proof.
  intros Hs. rewrite (list_insert_unsorted l v Hs).
  destruct l as [f s]. simpl in Hs. subst s.
  unfold list_length, list_inspect, list_remove, list_length. cbn [front sort_sequence].
  split; [reflexivity|]. split; [reflexivity|]. split; [|reflexivity].
  intros pos Hpos. cbn [length].
  destruct pos as [|pos]; [lia|].
  change (S (S pos) =? 0) with false. change (S pos =? 0) with false.
  cbn [orb]. change (S (length f) <? S (S pos)) with (length f <? S pos).
  destruct (length f <? S pos); [reflexivity|].
  cbn [Nat.sub nth_error]. rewrite Nat.sub_0_r. reflexivity.
Qed.

(** X15: [list_remove] closes the gap.  After the node at [pos] is
    removed the list is one node shorter, the nodes before [pos] keep
    their positions, and every node after it moves one position down; the
    comparator stays. *)
Theorem list_remove_closes_gap l (pos : nat) l' :
  list_remove l pos = Some l' ->
  list_length l = S (list_length l') /\
  sort_sequence l' = sort_sequence l /\
  (forall i, i < pos -> list_inspect l' i = list_inspect l i) /\
  (forall i, pos <= i -> list_inspect l' i = list_inspect l (S i)).
Proof.
  unfold list_remove, list_inspect, list_length.
  destruct ((pos =? 0) || (length (front l) <? pos)) eqn:E; [discriminate|].
  apply orb_false_iff in E as [E0 E1].
  apply Nat.eqb_neq in E0. apply Nat.ltb_ge in E1.
  intros H. injection H as <-. cbn [front sort_sequence].
  assert (Hlen : length (firstn (pos - 1) (front l) ++ skipn pos (front l)) =
                 length (front l) - 1).
  { rewrite length_app, length_firstn, length_skipn. lia. }
  rewrite Hlen. split; [lia|]. split; [reflexivity|]. split.
  - intros i Hi. destruct i as [|i]; [reflexivity|].
    change (S i =? 0) with false. cbn [orb].
    assert (Hin1 : (length (front l) - 1 <? S i) = false) by (apply Nat.ltb_ge; lia).
    assert (Hin2 : (length (front l) <? S i) = false) by (apply Nat.ltb_ge; lia).
    rewrite Hin1, Hin2. cbn [Nat.sub]. rewrite Nat.sub_0_r.
    rewrite nth_error_app1 by (rewrite length_firstn; lia).
    rewrite nth_error_firstn.
    assert (Hlt : (i <? pos - 1) = true) by (apply Nat.ltb_lt; lia).
    now rewrite Hlt.
  - intros i Hi. destruct i as [|i]; [lia|].
    change (S i =? 0) with false. change (S (S i) =? 0) with false. cbn [orb].
    destruct (length (front l) <? S (S i)) eqn:Eout.
    + apply Nat.ltb_lt in Eout.
      assert (Hout : (length (front l) - 1 <? S i) = true) by (apply Nat.ltb_lt; lia).
      now rewrite Hout.
    + apply Nat.ltb_ge in Eout.
      assert (Hin : (length (front l) - 1 <? S i) = false) by (apply Nat.ltb_ge; lia).
      rewrite Hin. cbn [Nat.sub]. rewrite Nat.sub_0_r.
      rewrite nth_error_app2 by (rewrite length_firstn; lia).
      rewrite length_firstn, nth_error_skipn. f_equal. lia.
Qed.
End ContainerLaws.

Lemma list_insert_before_first_not_smaller_witness :
  let l := {| front := [1; 3; 5]%Z; sort_sequence := Some Z.sub |} in
  exists pre suf,
    front l = pre ++ suf /\
    front (list_insert l 4%Z) = pre ++ 4%Z :: suf /\
    Forall (fun a => (0 < 4 - a)%Z) pre /\
    match suf with [] => True | b :: _ => (4 - b <= 0)%Z end.
Proof.
  intros l.
  exact (@list_insert_before_first_not_smaller Z l Z.sub 4%Z eq_refl).
Defined.

Lemma list_insert_keeps_sorted_witness :
  let l := {| front := [1; 3; 5]%Z; sort_sequence := Some Z.sub |} in
  StronglySorted (cmp_le Z.sub) (front (list_insert l 4%Z)) /\
  Permutation (4%Z :: front l) (front (list_insert l 4%Z)) /\
  sort_sequence (list_insert l 4%Z) = Some Z.sub.
Proof.
  intros l.
  apply (@list_insert_keeps_sorted Z l Z.sub 4%Z eq_refl).
  - intros a b c. lia.
  - intros a b. lia.
  - unfold cmp_le. repeat constructor; lia.
Defined.

Lemma list_insert_at_front_witness :
  let l := {| front := [1; 3; 5]%Z; sort_sequence := None |} in
  list_length (list_insert l 4%Z) = 4 /\
  list_inspect (list_insert l 4%Z) 1 = Some 4%Z /\
  (forall pos, 1 <= pos -> list_inspect (list_insert l 4%Z) (S pos) = list_inspect l pos) /\
  list_remove (list_insert l 4%Z) 1 = Some l.
Proof.
  intros l. exact (@list_insert_at_front Z l 4%Z eq_refl).
Defined.

Lemma list_remove_closes_gap_witness :
  let l := {| front := [1; 3; 5]%Z; sort_sequence := None |} in
  let l' := {| front := [1; 5]%Z; sort_sequence := None |} in
  list_length l = S (list_length l') /\
  sort_sequence l' = sort_sequence l /\
  (forall i, i < 2 -> list_inspect l' i = list_inspect l i) /\
  (forall i, 2 <= i -> list_inspect l' i = list_inspect l (S i)).
Proof.
  intros l l'. exact (@list_remove_closes_gap Z l 2 l' eq_refl).
Defined.

(** ** Cells *)

Lemma nth_error_descending n : forall i,
  i < n -> nth_error (descending n) i = Some (Z.of_nat (n - i)).
Proof.
  induction n as [|n IH]; intros i Hi; [lia|].
  rewrite descending_S. destruct i as [|i]; [reflexivity|].
  cbn [nth_error]. rewrite IH by lia. reflexivity.
Qed.

(** X16: what [cell_create] builds.  The cell carries the position it
    was given and [grid_size] eligible values; as [get_eligible_values_new]
    inserts 1, 2, ... at the front of a list without comparator,
    [cell_inspect_eligible_values] reads them counting down from
    [grid_size] at position 1 to 1 at position [grid_size], and answers -1
    outside these positions. *)
Theorem cell_create_counts_down (grid x y grid_size pos : nat) :
  let c := cell_create grid x y grid_size in
  cell_grid_pos c = grid /\ cell_x_pos c = x /\ cell_y_pos c = y /\
  cell_eligible_values_length c = grid_size /\
  cell_inspect_eligible_values c pos =
    if (1 <=? pos) && (pos <=? grid_size) then Z.of_nat (grid_size + 1 - pos)
    else (-1)%Z.
Proof.
  intros c. subst c.
  unfold cell_create, cell_eligible_values_length, cell_inspect_eligible_values.
  cbn [cell_grid_pos cell_x_pos cell_y_pos eligible_values].
  rewrite get_eligible_values_new_spec.
  unfold list_inspect, list_length. cbn [front].
  rewrite descending_length.
  do 4 (split; [reflexivity|]).
  destruct pos as [|pos]; [reflexivity|].
  change (S pos =? 0) with false. change (1 <=? S pos) with true. cbn [orb andb].
  destruct (grid_size <? S pos) eqn:E.
  - apply Nat.ltb_lt in E.
    assert (E' : (S pos <=? grid_size) = false) by (apply Nat.leb_gt; lia).
    now rewrite E'.
  - apply Nat.ltb_ge in E.
    assert (E' : (S pos <=? grid_size) = true) by (apply Nat.leb_le; lia).
    rewrite E'. cbn [Nat.sub]. rewrite Nat.sub_0_r.
    rewrite nth_error_descending by lia. f_equal. lia.
Qed.

(** X17: [cell_update_eligible_values] on a cell of distinct digits.  The
    call succeeds, keeps the position, and leaves exactly the other
    values: the list is one shorter when the value was eligible and
    unchanged when it was not. *)
Theorem cell_update_removes_the_value (c : Cell) (v : Z) :
  cell_wf c ->
  exists c',
    cell_update_eligible_values c v = Some c' /\
    cell_pos c' = cell_pos c /\
    cell_wf c' /\
    (forall w, In w (eligible c') <-> In w (eligible c) /\ w <> v) /\
    cell_eligible_values_length c' + (if mem v (eligible c) then 1 else 0) =
      cell_eligible_values_length c /\
    (~ In v (eligible c) -> c' = c).
Proof.
  intros Hwf. pose proof (wf_no_sentinel Hwf) as Hno.
  exists (cell_with_front c (remove_first v (eligible c))).
  split; [now apply cell_update_spec|]. split; [reflexivity|].
  destruct Hwf as [Hnd Hr]. split; [|split; [|split]].
  - apply cell_wf_with_front.
    + now apply remove_first_NoDup.
    + intros w. apply remove_first_incl.
    + now split.
  - intros w. rewrite eligible_cell_with_front, (remove_first_filter v Hnd), filter_In.
    rewrite negb_true_iff, Z.eqb_neq. tauto.
  - unfold cell_eligible_values_length, list_length.
    change (front (eligible_values (cell_with_front c (remove_first v (eligible c)))))
      with (eligible (cell_with_front c (remove_first v (eligible c)))).
    rewrite eligible_cell_with_front.
    change (front (eligible_values c)) with (eligible c).
    destruct (mem v (eligible c)) eqn:E.
    + apply mem_In in E. pose proof (remove_first_length_in v (eligible c) E). lia.
    + assert (Hnot : ~ In v (eligible c)).
      { intros Hin. apply mem_In in Hin. rewrite Hin in E. discriminate. }
      rewrite (remove_first_absent v (eligible c) Hnot). lia.
  - intros Hnot. rewrite (remove_first_absent v (eligible c) Hnot).
    apply cell_with_front_id.
Qed.

Lemma cell_update_removes_the_value_witness :
  exists c',
    cell_update_eligible_values (cell_at (4, 1, 2)) 7%Z = Some c' /\
    eligible c' = [9; 8; 6; 5; 4; 3; 2; 1]%Z.
Proof.
  destruct (@cell_update_removes_the_value (cell_at (4, 1, 2)) 7%Z
              (cell_at_wf (4, 1, 2))) as (c' & E & _).
  exists c'. split; [exact E|].
  vm_compute in E. injection E as <-. reflexivity.
Defined.

Lemma scan_eligible_values_sentinel mid : forall pre suf c v,
  eligible c = pre ++ mid ++ (-1)%Z :: suf ->
  ~ In v mid ->
  scan_eligible_values (length (mid ++ (-1)%Z :: suf)) (length pre) c v = None.
Proof.
  induction mid as [|a mid IH]; intros pre suf c v Hf Hno; cbn [app length] in *.
  - cbn [scan_eligible_values]. now rewrite (cell_inspect_at c pre (-1)%Z suf Hf).
  - cbn [scan_eligible_values].
    rewrite (cell_inspect_at c pre a (mid ++ (-1)%Z :: suf) Hf).
    destruct (a =? -1)%Z; [reflexivity|].
    destruct (Z.eqb_spec a v) as [->|Hav]; [exfalso; apply Hno; now left|].
    replace (S (length pre)) with (length (pre ++ [a]))
      by (rewrite length_app; simpl; lia).
    apply IH.
    + now rewrite <- app_assoc.
    + intros Hin. apply Hno. now right.
Qed.

Lemma scan_eligible_values_none suf : forall pre c v,
  eligible c = pre ++ suf ->
  scan_eligible_values (length suf) (length pre) c v = None ->
  exists mid rest, suf = mid ++ (-1)%Z :: rest /\ ~ In v mid.
Proof.
  induction suf as [|a suf IH]; intros pre c v Hf H; cbn [length scan_eligible_values] in H.
  - discriminate.
  - rewrite (cell_inspect_at c pre a suf Hf) in H.
    destruct (Z.eqb_spec a (-1)) as [->|Ha].
    { exists [], suf. split; [reflexivity|intros []]. }
    destruct (Z.eqb_spec a v) as [->|Hav].
    { unfold eligible in Hf.
      rewrite (list_remove_at (eligible_values c) pre v suf Hf) in H. discriminate. }
    replace (S (length pre)) with (length (pre ++ [a])) in H
      by (rewrite length_app; simpl; lia).
    destruct (IH (pre ++ [a]) c v) as (mid & rest & -> & Hno).
    + now rewrite <- app_assoc.
    + exact H.
    + exists (a :: mid), rest. split; [reflexivity|].
      intros [Hin|Hin]; [now apply Hav|now apply Hno].
Qed.

(** X18: when [cell_update_eligible_values] answers NULL.  The scan reads
    -1 from [cell_inspect_eligible_values] both for a failed read and for a
    stored value -1, so the call fails exactly when the list holds a -1
    with no occurrence of the value to remove before it; in every other
    case the first occurrence of the value is removed. *)
Theorem cell_update_fails_at_stored_sentinel (c : Cell) (v : Z) :
  (cell_update_eligible_values c v = None <->
   exists pre suf, eligible c = pre ++ (-1)%Z :: suf /\ ~ In v pre) /\
  (cell_update_eligible_values c v <> None ->
   cell_update_eligible_values c v =
     Some (cell_with_front c (remove_first v (eligible c)))).
Proof.
  split.
  - unfold cell_update_eligible_values, cell_eligible_values_length, list_length.
    change (front (eligible_values c)) with (eligible c). split.
    + intros H. apply (scan_eligible_values_none (eligible c) [] c v eq_refl H).
    + intros (pre & suf & Hf & Hno). rewrite Hf.
      apply (scan_eligible_values_sentinel pre [] suf c v Hf Hno).
  - intros Hsome. destruct (cell_update_cases c v) as [H|H]; [contradiction|exact H].
Qed.

Lemma filter_mem_filter (f : Z -> bool) (l : list Z) :
  filter (fun v => mem v (filter f l)) l = filter f l.
Proof.
  apply filter_ext_in. intros v Hv.
  destruct (f v) eqn:E.
  - apply mem_In, filter_In. now split.
  - apply not_true_iff_false. intros Hm. apply mem_In, filter_In in Hm as [_ Hm].
    rewrite Hm in E. discriminate.
Qed.

Lemma duplicated_twice c : duplicated (duplicated c) = duplicated c.
Proof.
  assert (E : filter (fun v => mem v (eligible (duplicated c))) (descending GRID_SIZE) =
              filter (fun v => mem v (eligible c)) (descending GRID_SIZE)).
  { change (eligible (duplicated c))
      with (filter (fun v => mem v (eligible c)) (descending GRID_SIZE)).
    apply filter_mem_filter. }
  unfold duplicated at 1. rewrite E. reflexivity.
Qed.

(** X19: [cell_duplicate] normalises any cell.  Whatever the list of the
    original holds, the call succeeds; the copy has the position of the
    original and holds, in descending order, the values of the original
    that lie in 1..9, each once; and a copy of the copy is the copy. *)
Theorem cell_duplicate_normalises (c : Cell) :
  exists c',
    cell_duplicate c GRID_SIZE = Some c' /\
    cell_pos c' = cell_pos c /\
    StronglySorted Z.gt (eligible c') /\
    (forall v, In v (eligible c') <-> In v (eligible c) /\ (1 <= v <= 9)%Z) /\
    cell_duplicate c' GRID_SIZE = Some c'.
Proof.
  exists (duplicated c). split; [apply cell_duplicate_duplicated|].
  split; [apply cell_pos_duplicated|].
  split; [apply filter_descending_sorted|]. split.
  - intros v.
    change (eligible (duplicated c))
      with (filter (fun v => mem v (eligible c)) (descending GRID_SIZE)).
    rewrite filter_In, descending_In, mem_In. unfold GRID_SIZE. intuition lia.
  - rewrite cell_duplicate_duplicated. f_equal. apply duplicated_twice.
Qed.

(** X20: [duplicate_unknown_list] reverses, and twice restores.  The copy
    lists the copies of the records in reverse order, since each is
    inserted at the front; the copy of a copy lists them in the order of the
    original again. *)
Theorem duplicate_unknown_list_reverses (unknowns : Linked_List Cell) :
  exists copy copy2,
    duplicate_unknown_list unknowns = Some copy /\
    front copy = rev (map duplicated (front unknowns)) /\
    duplicate_unknown_list copy = Some copy2 /\
    front copy2 = map duplicated (front unknowns) /\
    map cell_pos (front copy2) = map cell_pos (front unknowns).
Proof.
  eexists. eexists.
  split; [apply duplicate_unknown_list_spec|]. cbn [front].
  split; [reflexivity|].
  split; [apply duplicate_unknown_list_spec|]. cbn [front].
  assert (E : rev (map duplicated (rev (map duplicated (front unknowns)))) =
              map duplicated (front unknowns)).
  { rewrite map_rev, rev_involutive, map_map.
    apply map_ext. intros c. apply duplicated_twice. }
  split; [exact E|]. rewrite E, map_map.
  apply map_ext. intros c. apply cell_pos_duplicated.
Qed.

(** ** Narrowing, and boards with one solution *)

(** X21: what [update_constraints] leaves in a cell.  Called on a cell of
    distinct digits with the cell's own position, it succeeds, and the
    values left are exactly the values of the cell that no entry of the
    board shows in the box, the row or the column of the cell, as
    [check_each_grid], [check_each_row] and [check_each_column] delimit
    them. *)
Theorem update_constraints_leaves_the_fresh (board : Board) (c : Cell) :
  cell_wf c -> in_range (cell_pos c) ->
  exists c',
    update_constraints board c (cell_grid_pos c) (cell_x_pos c) (cell_y_pos c) =
      (true, c') /\
    cell_pos c' = cell_pos c /\
    (forall v, In v (eligible c') <->
               In v (eligible c) /\ fresh board (cell_pos c) v).
Proof.
  intros Hwf Hp. exists (narrow_cell board c).
  split; [now apply update_constraints_wf|].
  split; [apply narrow_cell_pos|]. intros v. split.
  - intros Hv. split; [exact (@narrow_cell_subset board c v Hv)|].
    rewrite <- (narrow_cell_pos board c).
    apply narrowed_fresh.
    + pose proof (narrow_cell_wf board Hwf) as [_ Hr].
      rewrite Forall_forall in Hr. specialize (Hr v Hv). lia.
    + exact (@narrow_cell_narrowed board c Hwf v Hv).
  - intros [Hv Hfresh]. apply narrow_cell_keeps; [exact Hwf|exact Hv|].
    intros Hk. unfold known_digits in Hk.
    apply filter_In in Hk as [Hk _]. apply in_map_iff in Hk as (q & Hq & Hin).
    destruct (@peers_share_scope (cell_pos c) q Hp Hin) as (S & HS & HpS & HqS).
    exact (Hfresh S HS HpS q HqS Hq).
Qed.

Lemma update_constraints_leaves_the_fresh_witness :
  exists c',
    update_constraints board_two_solutions (cell_at (1, 0, 0)) 1 0 0 = (true, c') /\
    eligible c' = [7; 6]%Z /\
    (forall v, In v (eligible c') <->
               In v (eligible (cell_at (1, 0, 0))) /\
               fresh board_two_solutions (1, 0, 0) v).
Proof.
  assert (Hp : in_range (cell_pos (cell_at (1, 0, 0))))
    by (rewrite cell_pos_cell_at; apply cells_in_range; lia).
  destruct (@update_constraints_leaves_the_fresh board_two_solutions (cell_at (1, 0, 0))
              (cell_at_wf (1, 0, 0)) Hp)
    as (c' & E & _ & Hiff).
  exists c'. split; [exact E|]. split; [|exact Hiff].
  vm_compute in E. injection E as <-. reflexivity.
Defined.

Lemma solve_sudoku_extends depth fuel board outcome :
  solve_sudoku depth fuel board = Some outcome ->
  extends board (outcome_board outcome).
Proof.
  intros H. unfold solve_sudoku in H.
  destruct (list_is_empty (empty_unknowns_list board)).
  { injection H as <-. intros p _ _. reflexivity. }
  unfold solve_elimination_method in H.
  destruct (elimination_while fuel board (empty_unknowns_list board) true)
    as [[[e b1] l1]|] eqn:Eel; [|discriminate].
  pose proof (@elimination_knowns board fuel board _ e b1 l1 (initial_knowns board) Eel)
    as Hk1.
  destruct (e =? ERROR_RET)%Z.
  { injection H as <-. intros p Hp Hz. exact (proj1 Hk1 p Hp Hz). }
  destruct (solve_backtrack_method depth fuel b1 l1) as [[[r b2] l2]|] eqn:Ebt;
    [|discriminate].
  pose proof (@backtrack_knowns board depth fuel b1 l1 r b2 l2 Hk1 Ebt) as Hk2.
  destruct (r =? ERROR_RET)%Z; injection H as <-;
    intros p Hp Hz; exact (proj1 Hk2 p Hp Hz).
Qed.

Lemma emptied_list_unique s fuel board ret board' unknowns' :
  solved s -> extends board s ->
  elimination_while fuel board (empty_unknowns_list board) true =
    Some (ret, board', unknowns') ->
  front unknowns' = [] ->
  solved board' /\ same_digits board' s.
Proof.
  intros Hs Hext H Hempty.
  pose proof (extends_consistent Hs Hext) as Hcons.
  destruct (@elimination_admits s fuel board _ ret board' unknowns' Hs
              (initial_admits Hs Hext) H) as [_ (Hext' & _)].
  destruct (@elimination_state fuel board _ ret board' unknowns'
              (initial_state Hcons) H) as (Hcons' & Hcov & _).
  rewrite Hempty in Hcov.
  assert (Hcomplete : forall p, in_range p -> board_at board' p <> 0%Z).
  { intros p Hp Hz. exact (Hcov p Hp Hz). }
  split; [now apply consistent_complete_solved|].
  intros p Hp. apply Hext'; [exact Hp|now apply Hcomplete].
Qed.

(** X22: a board with one solution gets that solution.  When the solved
    board [s] is the only solved board that agrees with the digits of the
    input, the board [solve_sudoku] leaves agrees with [s] on every entry. *)
Theorem solver_returns_the_unique_solution (s board : Board) (depth fuel : nat)
    (outcome : Solve_Outcome) :
  solved s -> extends board s ->
  (forall s', solved s' -> extends board s' -> same_digits s s') ->
  solve_sudoku depth fuel board = Some outcome ->
  same_digits s (outcome_board outcome).
Proof.
  intros Hs Hext Huniq H. apply Huniq.
  - exact (proj2 (@solve_sudoku_complete s board depth fuel outcome Hs Hext H)).
  - exact (@solve_sudoku_extends depth fuel board outcome H).
Qed.

(** X23: when the elimination alone empties the list of unknowns, the
    board it leaves is solved and is the only solution: every solved
    board that agrees with the digits of the input agrees with it on every
    entry. *)
Theorem emptied_list_means_one_solution (s : Board) (fuel : nat) (board : Board)
    (ret : Z) (board' : Board) (unknowns' : Linked_List Cell) :
  solved s -> extends board s ->
  solve_elimination_method fuel board (empty_unknowns_list board) =
    Some (ret, board', unknowns') ->
  list_is_empty unknowns' = true ->
  ret = SUCCESS_RET /\ solved board' /\ same_digits board' s.
Proof.
  intros Hs Hext H Hempty. apply list_is_empty_front in Hempty.
  split.
  - exact (proj1 (@elimination_admits s fuel board _ ret board' unknowns' Hs
                    (initial_admits Hs Hext) H)).
  - exact (@emptied_list_unique s fuel board ret board' unknowns' Hs Hext H Hempty).
Qed.

Lemma three_unknown_one_solution s' :
  solved s' -> extends board_three_unknown s' -> same_digits board_complete s'.
Proof.
  intros Hs' Hext'.
  pose proof elimination_solves_three_unknowns as Hrun.
  unfold solve_elimination_method in Hrun.
  destruct (elimination_while 4 board_three_unknown
              (empty_unknowns_list board_three_unknown) true)
    as [[[ret board'] unknowns']|] eqn:E; [|contradiction].
  destruct Hrun as (_ & Hempty & _).
  assert (Hext : extends board_three_unknown board_complete)
    by (apply extendsb_sound; vm_compute; reflexivity).
  destruct (@emptied_list_unique s' 4 board_three_unknown ret board' unknowns'
              Hs' Hext' E Hempty) as [_ H1].
  destruct (@emptied_list_unique board_complete 4 board_three_unknown ret board' unknowns'
              board_complete_solved Hext E Hempty) as [_ H2].
  intros p Hp. rewrite (H1 p Hp), (H2 p Hp). reflexivity.
Qed.

Lemma solver_returns_the_unique_solution_witness :
  exists outcome,
    solve_sudoku 2 4 board_three_unknown = Some outcome /\
    same_digits board_complete (outcome_board outcome).
Proof.
  destruct (solve_sudoku 2 4 board_three_unknown) as [outcome|] eqn:E;
    [|vm_compute in E; discriminate].
  assert (Hext : extends board_three_unknown board_complete)
    by (apply extendsb_sound; vm_compute; reflexivity).
  exists outcome. split; [reflexivity|].
  exact (@solver_returns_the_unique_solution board_complete board_three_unknown 2 4
           outcome board_complete_solved Hext three_unknown_one_solution E).
Defined.

Lemma emptied_list_means_one_solution_witness :
  exists board' unknowns',
    solve_elimination_method 4 board_three_unknown
      (empty_unknowns_list board_three_unknown) = Some (SUCCESS_RET, board', unknowns') /\
    solved board' /\ same_digits board' board_complete.
Proof.
  pose proof elimination_solves_three_unknowns as Hrun.
  destruct (solve_elimination_method 4 board_three_unknown
              (empty_unknowns_list board_three_unknown))
    as [[[ret board'] unknowns']|] eqn:E; [|contradiction].
  destruct Hrun as (_ & Hempty & _). apply list_is_empty_front in Hempty.
  assert (Hext : extends board_three_unknown board_complete)
    by (apply extendsb_sound; vm_compute; reflexivity).
  destruct (@emptied_list_means_one_solution board_complete 4 board_three_unknown
              ret board' unknowns' board_complete_solved Hext E Hempty)
    as (-> & Hsolved & Hsame).
  exists board', unknowns'. auto.
Defined.

Lemma blank_at board p q :
  board_at (blank board p) q = if pos_eqb q p then 0%Z else board_at board q.
Proof. destruct p as [[grid y] x]. apply board_at_store. Qed.

Lemma blank_extends s p : extends (blank s p) s.
Proof.
  intros q _ Hz. rewrite blank_at in *.
  destruct (pos_eqb q p); [now contradiction Hz|reflexivity].
Qed.

Lemma blank_unknown s p q :
  solved s -> in_range q -> board_at (blank s p) q = 0%Z -> q = p.
Proof.
  intros [Hr _] Hq Hz. rewrite blank_at in Hz.
  destruct (pos_eqb q p) eqn:E; [now apply pos_eqb_eq|].
  specialize (Hr q Hq). lia.
Qed.

Lemma cell_in_its_scope p : in_range p -> exists S, In S scope_positions /\ In p S.
Proof.
  intros Hp.
  assert (Hself : In p (peers p)).
  { destruct p as [[grid y] x]. apply cells_in_range in Hp as (_ & Hy & Hx).
    unfold peers. apply in_or_app. left.
    destruct y as [|[|[|y]]]; [| | |lia];
      (destruct x as [|[|[|x]]]; [| | |lia]); simpl; auto 10. }
  destruct (@peers_share_scope p p Hp Hself) as (S & HS & HpS & _). eauto.
Qed.

Lemma NoDup_constant (A : Type) (a : A) (l : list A) :
  NoDup l -> (forall x, In x l -> x = a) -> length l <= 1.
Proof.
  intros Hnd Hall. destruct l as [|x [|y l]]; simpl; try lia.
  exfalso. inversion Hnd as [|? ? Hnot _]; subst. apply Hnot.
  rewrite (Hall x) by (now left). rewrite (Hall y) at 1 by (right; now left).
  now left.
Qed.

(** X24: a board with a single unknown is filled by the elimination
    alone.  When one entry of a solved board is blanked, two rounds of the
    [while] loop of [solve_elimination_method] suffice: the call answers 1,
    leaves the list of unknowns empty, and the board is the solved board
    again. *)
Theorem elimination_fills_the_last_cell (s : Board) (p : Pos) (fuel : nat) :
  solved s -> in_range p -> 2 <= fuel ->
  exists board' unknowns',
    solve_elimination_method fuel (blank s p) (empty_unknowns_list (blank s p)) =
      Some (SUCCESS_RET, board', unknowns') /\
    list_is_empty unknowns' = true /\
    same_digits s board'.
Proof.
  intros Hs Hp Hfuel.
  pose proof (blank_extends s p) as Hext.
  pose proof (initial_admits Hs Hext) as Hadm.
  assert (Hwf : Forall cell_wf (front (empty_unknowns_list (blank s p)))).
  { destruct Hadm as (_ & _ & Hall). rewrite Forall_forall in *.
    intros c Hc. apply (Hall c Hc). }
  assert (Hlen : list_length (empty_unknowns_list (blank s p)) < fuel).
  { unfold list_length.
    rewrite <- (length_map cell_pos).
    pose proof (@NoDup_constant Pos p
                  (map cell_pos (front (empty_unknowns_list (blank s p))))) as Hone.
    destruct Hadm as (_ & [Hnd Hpl] & _).
    specialize (Hone Hnd). rewrite Forall_forall in Hpl.
    assert (Hall : forall q, In q (map cell_pos (front (empty_unknowns_list (blank s p)))) ->
                     q = p).
    { intros q Hq. apply in_map_iff in Hq as (c & <- & Hc).
      destruct (Hpl c Hc) as [Hin Hz]. exact (@blank_unknown s p _ Hs Hin Hz). }
    specialize (Hone Hall). lia. }
  destruct (@elimination_while_total fuel (blank s p) (empty_unknowns_list (blank s p)) Hlen)
    as (ret & board' & unknowns' & E & _).
  destruct (@elimination_admits s fuel (blank s p) _ ret board' unknowns' Hs Hadm E)
    as [-> Hadm'].
  pose proof (@elimination_success_state fuel (blank s p) _ board' unknowns' Hwf E) as Hfix.
  pose proof (@elimination_knowns (blank s p) fuel (blank s p) _ _ board' unknowns'
                (initial_knowns (blank s p)) E) as [Hkept _].
  assert (Hempty : front unknowns' = []).
  { destruct (front unknowns') as [|c' rest] eqn:Efront; [reflexivity|exfalso].
    inversion Hfix as [|? ? (Hwf' & Hnar & Hlen') _]; subst.
    destruct Hadm' as (Hext' & [_ Hpl] & _).
    inversion Hpl as [|? ? [Hin Hz] _]; subst.
    assert (Hpos : cell_pos c' = p).
    { destruct (pos_eq_dec (cell_pos c') p) as [Heq|Hne]; [exact Heq|exfalso].
      assert (Hb : board_at (blank s p) (cell_pos c') <> 0%Z).
      { intros Hb. apply Hne. exact (@blank_unknown s p _ Hs Hin Hb). }
      rewrite <- (Hkept _ Hin Hb) in Hb. contradiction. }
    assert (Hv : exists v, In v (eligible c') /\ v <> board_at s p).
    { destruct Hwf' as [Hnd _].
      destruct (eligible c') as [|v1 [|v2 vs]]; simpl in Hlen'; try lia.
      destruct (Z.eq_dec v1 (board_at s p)) as [E1|E1].
      - exists v2. split; [right; now left|]. intros E2.
        inversion Hnd as [|? ? Hnot _]; subst. apply Hnot. left. congruence.
      - exists v1. split; [now left|exact E1]. }
    destruct Hv as (v & Hv & Hne).
    assert (Hrange : (1 <= v <= 9)%Z).
    { destruct Hwf' as [_ Hr]. rewrite Forall_forall in Hr. exact (Hr v Hv). }
    destruct (@cell_in_its_scope p Hp) as (S & HS & HpS).
    destruct (@scope_facts S HS) as (_ & _ & Hall).
    assert (Hcount : count_occ Z.eq_dec (map (board_at s) S) v = 1).
    { apply (proj2 Hs); [|exact Hrange]. rewrite scopes_positions. now apply in_map. }
    assert (Hin_v : In v (map (board_at s) S)).
    { apply (count_occ_In Z.eq_dec). lia. }
    apply in_map_iff in Hin_v as (q & Hq & HqS).
    destruct (Hall q HqS) as [Hq_range _].
    destruct (Hall p HpS) as [_ Hpeers].
    assert (Hqp : pos_eqb q p = false).
    { apply not_true_iff_false. intros Heq. apply pos_eqb_eq in Heq. subst q.
      now apply Hne. }
    assert (Hblank : board_at (blank s p) q = v) by (now rewrite blank_at, Hqp).
    assert (Hb' : board_at board' q = v).
    { rewrite (Hkept q Hq_range); [exact Hblank|]. rewrite Hblank. lia. }
    apply (Hnar v Hv). rewrite Hpos. unfold known_digits.
    apply filter_In. split.
    - apply in_map_iff. exists q. split; [exact Hb'|now apply Hpeers].
    - apply negb_true_iff, Z.eqb_neq. lia. }
  exists board', unknowns'. split; [exact E|].
  split; [now apply list_is_empty_front|].
  destruct (@emptied_list_unique s fuel (blank s p) _ board' unknowns' Hs Hext E Hempty)
    as [_ Hsame].
  intros q Hq. symmetry. exact (Hsame q Hq).
Qed.

Lemma elimination_fills_the_last_cell_witness :
  exists board' unknowns',
    solve_elimination_method 2 (blank board_complete (4, 1, 1))
      (empty_unknowns_list (blank board_complete (4, 1, 1))) =
      Some (SUCCESS_RET, board', unknowns') /\
    list_is_empty unknowns' = true /\
    same_digits board_complete board'.
Proof.
  apply (@elimination_fills_the_last_cell board_complete (4, 1, 1) 2).
  - exact board_complete_solved.
  - apply cells_in_range. lia.
  - lia.
Defined.

(** ** What the program reports *)

Lemma result_after_solve board depth fuel outcome :
  scope_consistent board ->
  solve_sudoku depth fuel board = Some outcome ->
  (print_result_func (outcome_board outcome) = true <->
   outcome = Nothing_To_Solve board \/
   exists elret final, outcome = Solver_Ran elret SUCCESS_RET final) /\
  (print_result_func (outcome_board outcome) = true -> solved (outcome_board outcome)).
Proof.
  intros Hsc H. apply scope_consistent_consistent in Hsc.
  pose proof (initial_state Hsc) as Hinit. unfold print_result_func.
  assert (Hmain :
    (outcome = Nothing_To_Solve board \/
     exists elret final, outcome = Solver_Ran elret SUCCESS_RET final) /\
    solved (outcome_board outcome) \/
    (exists elret final, outcome = Solver_Ran elret STALEMATE_RET final) /\
    validate_board (outcome_board outcome) true = false).
  { unfold solve_sudoku in H.
    destruct (list_is_empty (empty_unknowns_list board)) eqn:Eempty.
    { injection H as <-. left. split; [now left|]. cbn [outcome_board].
      apply consistent_complete_solved; [exact Hsc|].
      apply list_is_empty_front in Eempty. destruct Hinit as (_ & Hcov & _).
      rewrite Eempty in Hcov. intros p Hp Hz. exact (Hcov p Hp Hz). }
    unfold solve_elimination_method in H.
    destruct (elimination_while fuel board (empty_unknowns_list board) true)
      as [[[e b1] l1]|] eqn:Eel; [|discriminate].
    assert (Hwf : Forall cell_wf (front (empty_unknowns_list board)))
      by (destruct Hinit as (_ & _ & Hwf); exact Hwf).
    pose proof (@elimination_wf_codes _ _ _ _ _ _ Hwf Eel) as He.
    assert (Hne : (e =? ERROR_RET)%Z = false) by (destruct He as [-> | ->]; reflexivity).
    rewrite Hne in H.
    destruct (solve_backtrack_method depth fuel b1 l1) as [[[r b2] l2]|] eqn:Ebt;
      [|discriminate].
    pose proof (backtrack_codes _ _ _ _ Ebt) as Hr.
    assert (Hnr : (r =? ERROR_RET)%Z = false) by (destruct Hr as [-> | ->]; reflexivity).
    rewrite Hnr in H. injection H as <-. cbn [outcome_board].
    destruct Hr as [-> | ->].
    - right. split; [eauto|].
      destruct (@backtrack_frame depth fuel b1 l1 _ b2 l2 Ebt) as [Hsame _].
      rewrite Hsame by discriminate.
      apply (@unknown_left_invalid b1 (front l1)).
      + exact (@elimination_placed fuel board (empty_unknowns_list board) e b1 l1
                 (initial_placed board) Eel).
      + apply (@backtrack_empty depth fuel b1 l1 _ b2 l2 Ebt). discriminate.
    - left. split; [eauto|].
      pose proof (@elimination_search_ready _ _ _ _ _ _ Hinit Eel) as Hready.
      destruct (@backtrack_sound depth fuel b1 l1 _ b2 l2 Hready Ebt eq_refl).
      now apply consistent_complete_solved. }
  destruct Hmain as [[Hout Hs] | [(e & final & ->) Hf]].
  - split; [|auto]. split; [auto|]. intros _. now apply solved_validates.
  - split.
    + split; [intros Ht; rewrite Ht in Hf; discriminate|].
      intros [Hn | (e' & final' & Hn)]; discriminate.
    + intros Ht. rewrite Ht in Hf. discriminate.
Qed.

(** X8: the message [print_result_func] prints after [solve_sudoku].  On
    a board that meets the solver's precondition, [found] is true, and
    "Solution found!" is printed, exactly when the input has a solution:
    some solved board agrees with its digits.  This is also exactly when
    [solve_sudoku] returned at once or its search answered 1, and the board
    printed is then a solved board that agrees with the digits of the
    input.  After a search that answered 0 an unknown entry is left and
    [found] is false. *)
Theorem result_message_follows_search (board : Board) (depth fuel : nat)
    (outcome : Solve_Outcome) :
  scope_consistent board ->
  solve_sudoku depth fuel board = Some outcome ->
  (print_result_func (outcome_board outcome) = true <->
   exists s, solved s /\ extends board s) /\
  (print_result_func (outcome_board outcome) = true <->
   outcome = Nothing_To_Solve board \/
   exists elret final, outcome = Solver_Ran elret SUCCESS_RET final) /\
  (print_result_func (outcome_board outcome) = true ->
   solved (outcome_board outcome) /\ extends board (outcome_board outcome)).
Proof.
  intros Hsc H.
  destruct (@result_after_solve board depth fuel outcome Hsc H) as [Hiff Hsolved].
  pose proof (@solve_sudoku_extends depth fuel board outcome H) as Hext.
  split; [|split; [exact Hiff|auto]]. split.
  - intros Hfound. exists (outcome_board outcome). auto.
  - intros (s & Hs & Hexts). apply Hiff.
    destruct (@solve_sudoku_complete s board depth fuel outcome Hs Hexts H)
      as [[-> | [final ->]] _]; eauto.
Qed.

Lemma result_message_follows_search_witness :
  exists outcome,
    solve_sudoku 5 9 board_two_solutions = Some outcome /\
    print_result_func (outcome_board outcome) = true /\
    solved (outcome_board outcome) /\
    extends board_two_solutions (outcome_board outcome).
Proof.
  destruct (solve_sudoku 5 9 board_two_solutions) as [outcome|] eqn:E;
    [|vm_compute in E; discriminate].
  assert (Hsc : scope_consistent board_two_solutions)
    by (apply scope_consistentb_sound; vm_compute; reflexivity).
  destruct (@result_message_follows_search board_two_solutions 5 9 outcome Hsc E)
    as (Hiff & _ & Hsolved).
  assert (Hfound : print_result_func (outcome_board outcome) = true).
  { apply Hiff. exists board_complete. split; [exact board_complete_solved|].
    apply extendsb_sound. vm_compute. reflexivity. }
  exists outcome. split; [reflexivity|]. split; [exact Hfound|exact (Hsolved Hfound)].
Defined.

(** X25: a complete board is reported as solved when no digit shows
    three times in a scope.  Such a board passes [validate_board] with
    either flag, [solve_sudoku] returns at once, and [print_result_func]
    finds [found] true; and there is such a board that is not solved, with
    the digit 3 twice in its first box. *)
Theorem complete_board_with_pair_reported_solved :
  (forall board depth fuel,
     (forall p, in_range p -> (1 <= board_at board p <= 9)%Z) ->
     no_triple board ->
     validate_board board false = true /\
     solve_sudoku depth fuel board = Some (Nothing_To_Solve board) /\
     print_result_func board = true) /\
  (exists board,
     (forall p, in_range p -> (1 <= board_at board p <= 9)%Z) /\
     no_triple board /\
     (exists digits, In digits (scopes board) /\ count_occ Z.eq_dec digits 3%Z = 2) /\
     ~ solved board).
Proof.
  split.
  - intros board depth fuel Hr Hnt.
    assert (Hr0 : forall p, in_range p -> (0 <= board_at board p <= 9)%Z).
    { intros p Hp. specialize (Hr p Hp). lia. }
    assert (Hc : complete board).
    { intros p Hp. specialize (Hr p Hp). lia. }
    split; [|split].
    + apply (@validate_board_no_triple board false Hr0). split; [exact Hnt|discriminate].
    + unfold solve_sudoku. rewrite no_unknown_no_record; [reflexivity|].
      intros grid y x Hg Hy Hx. apply (Hc (grid, y, x)). apply cells_in_range. lia.
    + unfold print_result_func.
      apply (@validate_board_no_triple board true Hr0). split; [exact Hnt|auto].
  - exists board_complete_pair.
    assert (Hr : forall p, in_range p -> (1 <= board_at board_complete_pair p <= 9)%Z).
    { assert (Hb : forallb (fun p => (1 <=? board_at board_complete_pair p)%Z &&
                                     (board_at board_complete_pair p <=? 9)%Z) cells = true)
        by (vm_compute; reflexivity).
      rewrite forallb_forall in Hb. intros p Hp. specialize (Hb p Hp).
      apply andb_true_iff in Hb. lia. }
    assert (Hr0 : forall p, in_range p -> (0 <= board_at board_complete_pair p <= 9)%Z).
    { intros p Hp. specialize (Hr p Hp). lia. }
    assert (Hin : In (map (board_at board_complete_pair) (hd [] scope_positions))
                     (scopes board_complete_pair)).
    { rewrite scopes_positions. apply in_map. vm_compute. now left. }
    split; [exact Hr|]. split; [|split].
    + apply (@validate_board_no_triple board_complete_pair false Hr0).
      vm_compute. reflexivity.
    + eexists. split; [exact Hin|]. vm_compute. reflexivity.
    + intros [_ Hc]. specialize (Hc _ Hin 3%Z ltac:(lia)).
      vm_compute in Hc. discriminate.
Qed.

(* ================================================================= *)
(** * Writes, trial order and answers *)

(** ** What is written on the board *)

Lemma duplicate_board_writes_cells original_board :
  duplicate_board_writes original_board =
    map (fun p => (p, board_at original_board p)) cells.
Proof. reflexivity. Qed.

Lemma duplicate_board_replay new_board original_board :
  duplicate_board new_board original_board =
    replay_writes new_board (duplicate_board_writes original_board).
Proof. reflexivity. Qed.

Lemma duplicate_board_writes_In original_board p :
  in_range p -> In (p, board_at original_board p) (duplicate_board_writes original_board).
Proof.
  intros Hp. rewrite duplicate_board_writes_cells.
  apply (in_map (fun p => (p, board_at original_board p))). exact Hp.
Qed.

Lemma copy_back_assigns_all depth fuel board unknowns board' unknowns' :
  solve_backtrack_method depth fuel board unknowns =
    Some (SUCCESS_RET, board', unknowns') ->
  list_is_empty unknowns = false ->
  exists board_duplicate,
    board' = replay_writes board (duplicate_board_writes board_duplicate) /\
    forall p, in_range p ->
      In (p, board_at board' p) (duplicate_board_writes board_duplicate).
Proof.
  intros H Hne.
  destruct (@backtrack_frame depth fuel board unknowns _ board' unknowns' H) as [_ Hs].
  destruct (Hs eq_refl) as [[Hempty _] | [bd ->]]; [congruence|].
  exists bd. split; [apply duplicate_board_replay|].
  intros p Hp. rewrite (duplicate_board_at board bd Hp).
  now apply duplicate_board_writes_In.
Qed.

(** C2 (as first stated, refuted): not every write to the board goes to
    the position of a record.  On [board_two_solutions] the elimination
    stalls with four records, the search answers 1, and its copy-back
    [duplicate_board(board, board_duplicate)] assigns all 81 entries of the
    board: among them (0,0,0), which holds 5 in the input and is the
    position of no record.  The value assigned there is the 5 it held. *)
Theorem copy_back_writes_known_positions :
  exists board1 unknowns1 board_duplicate final unknowns2,
    solve_elimination_method 9 board_two_solutions
      (empty_unknowns_list board_two_solutions) =
      Some (SUCCESS_RET, board1, unknowns1) /\
    list_length unknowns1 = 4 /\
    solve_backtrack_method 5 9 board1 unknowns1 =
      Some (SUCCESS_RET, final, unknowns2) /\
    final = replay_writes board1 (duplicate_board_writes board_duplicate) /\
    In ((0, 0, 0), 5%Z) (duplicate_board_writes board_duplicate) /\
    board_two_solutions 0 0 0 = 5%Z /\
    ~ In (0, 0, 0) (map cell_pos (front (empty_unknowns_list board_two_solutions))) /\
    ~ In (0, 0, 0) (map cell_pos (front unknowns1)).
Proof.
  assert (Hs : solved board_complete) by exact board_complete_solved.
  assert (Hext : extends board_two_solutions board_complete)
    by (apply extendsb_sound; vm_compute; reflexivity).
  pose proof (initial_admits Hs Hext) as Hadm.
  destruct (solve_elimination_method 9 board_two_solutions
              (empty_unknowns_list board_two_solutions))
    as [[[e board1] unknowns1]|] eqn:Eel; [|vm_compute in Eel; discriminate].
  unfold solve_elimination_method in Eel.
  destruct (@elimination_admits board_complete 9 _ _ e board1 unknowns1 Hs Hadm Eel)
    as [-> Hadm1].
  pose proof (@elimination_knowns board_two_solutions 9 _ _ _ board1 unknowns1
                (initial_knowns board_two_solutions) Eel) as Hk1.
  assert (Hlen : list_length unknowns1 = 4).
  { clear -Eel. vm_compute in Eel. injection Eel as _ <-. reflexivity. }
  destruct (solve_backtrack_method 5 9 board1 unknowns1)
    as [[[r final] unknowns2]|] eqn:Ebt.
  2:{ destruct (@backtrack_total 5 9 board1 unknowns1) as [res Eres]; try lia.
      rewrite Eres in Ebt. discriminate. }
  pose proof (@backtrack_complete board_complete 5 9 board1 unknowns1 r final unknowns2
                Hs Hadm1 Ebt) as ->.
  assert (Hne : list_is_empty unknowns1 = false).
  { unfold list_is_empty. unfold list_length in Hlen.
    destruct (front unknowns1); [discriminate|reflexivity]. }
  destruct (@copy_back_assigns_all 5 9 board1 unknowns1 final unknowns2 Ebt Hne)
    as (bd & Hfinal & Hall).
  pose proof (@backtrack_knowns board_two_solutions 5 9 board1 unknowns1 _ final unknowns2
                Hk1 Ebt) as [Hk2 _].
  assert (Hp : in_range (0, 0, 0)) by (apply cells_in_range; lia).
  assert (H5 : board_at board_two_solutions (0, 0, 0) = 5%Z) by reflexivity.
  exists board1, unknowns1, bd, final, unknowns2.
  split; [reflexivity|]. split; [exact Hlen|]. split; [exact Ebt|].
  split; [exact Hfinal|]. split.
  { specialize (Hall (0, 0, 0) Hp). rewrite (Hk2 (0, 0, 0) Hp) in Hall by (rewrite H5; lia).
    rewrite H5 in Hall. exact Hall. }
  split; [reflexivity|]. split.
  - intros Hin. apply in_map_iff in Hin as (c & Hc & Hin).
    destruct (initial_knowns board_two_solutions) as [_ Hz].
    rewrite Forall_forall in Hz. specialize (Hz c Hin). rewrite Hc, H5 in Hz. discriminate.
  - intros Hin. apply in_map_iff in Hin as (c & Hc & Hin).
    destruct Hk1 as [_ Hz].
    rewrite Forall_forall in Hz. specialize (Hz c Hin). rewrite Hc, H5 in Hz. discriminate.
Qed.

(** C2 (as amended): records are created on unknown positions only, and
    whatever the board, every position that held a digit when
    [solve_sudoku] was called holds the same digit after the elimination,
    after the search and when [solve_sudoku] ends.  The entries of the
    board are not all left alone, though: a search that answers 1 on a
    list with records ends with the copy-back, which assigns every one of
    the 81 entries, known ones included, the value the board holds
    afterwards. *)
Theorem known_digits_keep_their_value (depth fuel : nat) (board : Board)
    (outcome : Solve_Outcome) :
  solve_sudoku depth fuel board = Some outcome ->
  (forall c, In c (front (empty_unknowns_list board)) ->
     board_at board (cell_pos c) = 0%Z) /\
  (forall grid y x, grid < 9 -> y < 3 -> x < 3 ->
     board grid y x <> 0%Z -> outcome_board outcome grid y x = board grid y x) /\
  (forall elret board1 unknowns1,
     solve_elimination_method fuel board (empty_unknowns_list board) =
       Some (elret, board1, unknowns1) ->
     knowns_kept board board1 (front unknowns1) /\
     forall btret board2 unknowns2,
       solve_backtrack_method depth fuel board1 unknowns1 =
         Some (btret, board2, unknowns2) ->
       knowns_kept board board2 [] /\
       (btret = SUCCESS_RET -> list_is_empty unknowns1 = false ->
        exists board_duplicate,
          board2 = replay_writes board1 (duplicate_board_writes board_duplicate) /\
          forall p, in_range p ->
            In (p, board_at board2 p) (duplicate_board_writes board_duplicate))).
Proof.
  intros H. pose proof (initial_knowns board) as Hinit. split; [|split].
  3:{ intros elret board1 unknowns1 Eel. unfold solve_elimination_method in Eel.
      pose proof (@elimination_knowns board _ _ _ _ _ _ Hinit Eel) as Hk1.
      split; [exact Hk1|]. intros btret board2 unknowns2 Ebt. split.
      - exact (@backtrack_knowns board depth fuel board1 unknowns1 _ _ _ Hk1 Ebt).
      - intros -> Hne.
        exact (@copy_back_assigns_all depth fuel board1 unknowns1 board2 unknowns2 Ebt Hne). }
  - destruct Hinit as [_ Hz]. rewrite Forall_forall in Hz. exact Hz.
  - pose proof (@solve_sudoku_extends depth fuel board outcome H) as Hext.
    intros grid y x Hg Hy Hx Hnz.
    apply (Hext (grid, y, x)); [|exact Hnz]. apply cells_in_range. auto.
Qed.

Lemma known_digits_keep_their_value_witness :
  match solve_sudoku 5 9 board_two_solutions with
  | Some outcome =>
      (forall c, In c (front (empty_unknowns_list board_two_solutions)) ->
         board_at board_two_solutions (cell_pos c) = 0%Z) /\
      (forall grid y x, grid < 9 -> y < 3 -> x < 3 ->
         board_two_solutions grid y x <> 0%Z ->
         outcome_board outcome grid y x = board_two_solutions grid y x) /\
      (forall elret board1 unknowns1,
         solve_elimination_method 9 board_two_solutions
           (empty_unknowns_list board_two_solutions) =
           Some (elret, board1, unknowns1) ->
         knowns_kept board_two_solutions board1 (front unknowns1) /\
         forall btret board2 unknowns2,
           solve_backtrack_method 5 9 board1 unknowns1 =
             Some (btret, board2, unknowns2) ->
           knowns_kept board_two_solutions board2 [] /\
           (btret = SUCCESS_RET -> list_is_empty unknowns1 = false ->
            exists board_duplicate,
              board2 = replay_writes board1 (duplicate_board_writes board_duplicate) /\
              forall p, in_range p ->
                In (p, board_at board2 p) (duplicate_board_writes board_duplicate)))
  | None => False
  end.
Proof.
  pose proof search_takes_the_larger_digit as X.
  destruct (solve_sudoku 5 9 board_two_solutions) as [outcome|] eqn:E; [|exact X].
  exact (@known_digits_keep_their_value 5 9 board_two_solutions outcome E).
Defined.

(** ** The answers of the elimination *)








(** ** The order of trials *)

Lemma cell_update_none_split c v :
  cell_update_eligible_values c v = None ->
  exists mid rest, eligible c = mid ++ (-1)%Z :: rest /\ ~ In v mid.
Proof.
  unfold cell_update_eligible_values, cell_eligible_values_length, list_length.
  change (front (eligible_values c)) with (eligible c). intros H.
  exact (scan_eligible_values_none (eligible c) [] c v eq_refl H).
Qed.

(** The trial step whenever the head is not the value -1: the head is
    tried and dropped. *)
Lemma next_trial_head c v rest :
  eligible c = v :: rest -> v <> (-1)%Z ->
  next_trial c = (v, cell_with_front c rest).
Proof.
  intros He Hv. unfold next_trial.
  rewrite (cell_inspect_at c [] v rest He : cell_inspect_eligible_values c 1 = v).
  destruct (cell_update_cases c v) as [H|H].
  - exfalso. destruct (@cell_update_none_split c v H) as (mid & rest' & E & Hno).
    rewrite He in E. destruct mid as [|m mid]; simpl in E; injection E as E1 _.
    + now apply Hv.
    + apply Hno. left. now symmetry.
  - rewrite H, He. simpl. now rewrite Z.eqb_refl.
Qed.

(** One iteration of the [while] loop, with the value on trial named. *)
Lemma trial_loop_step recurse fuel_elim grid x y fuel board unknowns cell v rest :
  eligible cell = v :: rest -> v <> (-1)%Z ->
  trial_loop recurse fuel_elim grid x y (S fuel) board unknowns cell =
    match solve_elimination_method fuel_elim
            (board_store (duplicate_board board_unset board) grid y x v)
            {| front := rev (map duplicated (front unknowns));
               sort_sequence := None |} with
    | None => None
    | Some (elret, board_duplicate, unknowns_duplicate) =>
        if (elret =? ERROR_RET)%Z then Some (ERROR_RET, board, unknowns)
        else if (elret =? SUCCESS_RET)%Z then
          match recurse board_duplicate unknowns_duplicate with
          | None => None
          | Some (btret, board_duplicate, _) =>
              if (btret =? ERROR_RET)%Z then Some (ERROR_RET, board, unknowns)
              else if (btret =? SUCCESS_RET)%Z
              then Some (SUCCESS_RET, duplicate_board board board_duplicate, unknowns)
              else trial_loop recurse fuel_elim grid x y fuel board unknowns
                              (cell_with_front cell rest)
          end
        else trial_loop recurse fuel_elim grid x y fuel board unknowns
                        (cell_with_front cell rest)
    end.
Proof.
  intros He Hv. cbn [trial_loop].
  assert (Hpos : (0 <? cell_eligible_values_length cell) = true).
  { unfold cell_eligible_values_length, list_length.
    change (front (eligible_values cell)) with (eligible cell). now rewrite He. }
  rewrite Hpos, duplicate_unknown_list_spec, (@next_trial_head cell v rest He Hv).
  reflexivity.
Qed.

Lemma trial_loop_done recurse fuel_elim grid x y fuel board unknowns cell :
  eligible cell = [] ->
  trial_loop recurse fuel_elim grid x y fuel board unknowns cell =
    Some (STALEMATE_RET, board, unknowns).
Proof.
  intros He.
  assert (Hpos : (0 <? cell_eligible_values_length cell) = false).
  { unfold cell_eligible_values_length, list_length.
    change (front (eligible_values cell)) with (eligible cell). now rewrite He. }
  destruct fuel; cbn [trial_loop]; now rewrite Hpos.
Qed.

(** The loop tries the values of the working cell in the order of its
    list, and stops at the first whose trial succeeds.  The trial of a
    value alone is the loop run on a cell that holds that value only. *)
Lemma trial_loop_first_success recurse fuel_elim grid x y board unknowns cell0 :
  (forall b l r b' l', recurse b l = Some (r, b', l') ->
                       r = STALEMATE_RET \/ r = SUCCESS_RET) ->
  forall vs fuel r board' unknowns',
  ~ In (-1)%Z vs ->
  trial_loop recurse fuel_elim grid x y fuel board unknowns (cell_with_front cell0 vs) =
    Some (r, board', unknowns') ->
  (r = SUCCESS_RET /\
   exists pre v suf,
     vs = pre ++ v :: suf /\
     trial_loop recurse fuel_elim grid x y 1 board unknowns (cell_with_front cell0 [v]) =
       Some (SUCCESS_RET, board', unknowns') /\
     forall w, In w pre ->
       trial_loop recurse fuel_elim grid x y 1 board unknowns (cell_with_front cell0 [w]) =
         Some (STALEMATE_RET, board, unknowns)) \/
  (r = STALEMATE_RET /\ board' = board /\ unknowns' = unknowns /\
   forall w, In w vs ->
     trial_loop recurse fuel_elim grid x y 1 board unknowns (cell_with_front cell0 [w]) =
       Some (STALEMATE_RET, board, unknowns)).
Proof.
  intros Hrec vs.
  induction vs as [|v rest IH]; intros fuel r board' unknowns' Hno H.
  - rewrite trial_loop_done in H by apply eligible_cell_with_front.
    injection H as <- <- <-. right. repeat split; auto. intros w [].
  - assert (Hv : v <> (-1)%Z) by (intros ->; apply Hno; now left).
    assert (Hrest : ~ In (-1)%Z rest) by (intros Hin; apply Hno; now right).
    destruct fuel as [|fuel].
    { cbn [trial_loop] in H.
      assert (Hpos : (0 <? cell_eligible_values_length (cell_with_front cell0 (v :: rest)))
                     = true) by reflexivity.
      rewrite Hpos in H. discriminate. }
    rewrite (@trial_loop_step recurse fuel_elim grid x y fuel board unknowns
               (cell_with_front cell0 (v :: rest)) v rest
               (eligible_cell_with_front _ _) Hv) in H.
    pose proof (@trial_loop_step recurse fuel_elim grid x y 0 board unknowns
                  (cell_with_front cell0 [v]) v []
                  (eligible_cell_with_front _ _) Hv) as Hone.
    change (cell_with_front (cell_with_front cell0 (v :: rest)) rest)
      with (cell_with_front cell0 rest) in H.
    rewrite (@trial_loop_done recurse fuel_elim grid x y 0 board unknowns
               (cell_with_front (cell_with_front cell0 [v]) []) eq_refl) in Hone.
    remember (trial_loop recurse fuel_elim grid x y 1 board unknowns
                (cell_with_front cell0 [v])) as tv eqn:Etv.
    assert (Hfail : tv = Some (STALEMATE_RET, board, unknowns) ->
              trial_loop recurse fuel_elim grid x y fuel board unknowns
                (cell_with_front cell0 rest) = Some (r, board', unknowns') ->
              (r = SUCCESS_RET /\
               exists pre v0 suf,
                 v :: rest = pre ++ v0 :: suf /\
                 trial_loop recurse fuel_elim grid x y 1 board unknowns
                   (cell_with_front cell0 [v0]) = Some (SUCCESS_RET, board', unknowns') /\
                 forall w, In w pre ->
                   trial_loop recurse fuel_elim grid x y 1 board unknowns
                     (cell_with_front cell0 [w]) = Some (STALEMATE_RET, board, unknowns)) \/
              (r = STALEMATE_RET /\ board' = board /\ unknowns' = unknowns /\
               forall w, In w (v :: rest) ->
                 trial_loop recurse fuel_elim grid x y 1 board unknowns
                   (cell_with_front cell0 [w]) = Some (STALEMATE_RET, board, unknowns))).
    { intros Htv Hloop.
      destruct (IH fuel r board' unknowns' Hrest Hloop)
        as [(-> & pre & v0 & suf & -> & Hok & Hpre) | (-> & -> & -> & Hall)].
      - left. split; [reflexivity|]. exists (v :: pre), v0, suf.
        split; [reflexivity|]. split; [exact Hok|].
        intros w [<- | Hw]; [now rewrite <- Etv|now apply Hpre].
      - right. repeat split; auto.
        intros w [<- | Hw]; [now rewrite <- Etv|now apply Hall]. }
    unfold solve_elimination_method in H, Hone.
    destruct (elimination_while fuel_elim _ _ true) as [[[elret bd] ud]|] eqn:Eel;
      [|discriminate].
    destruct (@elimination_wf_codes _ _ (Build_List _ None) _ _ _
                (duplicated_all_wf (front unknowns)) Eel) as [-> | ->].
    + cbn in H, Hone. exact (Hfail Hone H).
    + cbn in H, Hone.
      destruct (recurse bd ud) as [[[btret bd'] ud']|] eqn:Erec; [|discriminate].
      destruct (Hrec _ _ _ _ _ Erec) as [-> | ->]; cbn in H, Hone.
      * exact (Hfail Hone H).
      * injection H as <- <- <-. left. split; [reflexivity|].
        exists [], v, rest. split; [reflexivity|]. split; [now rewrite <- Etv|].
        intros w [].
Qed.

Lemma sorted_before (pre suf : list Z) (v w : Z) :
  StronglySorted Z.gt (pre ++ v :: suf) ->
  In w (pre ++ v :: suf) -> (v < w)%Z -> In w pre.
Proof.
  induction pre as [|a pre IH]; intros Hs Hin Hlt; simpl in *.
  - inversion Hs as [|? ? _ Hall]; subst. rewrite Forall_forall in Hall.
    destruct Hin as [<- | Hin]; [lia|]. specialize (Hall w Hin). lia.
  - destruct Hin as [-> | Hin]; [now left|]. right.
    apply IH; auto. now inversion Hs.
Qed.

(** C4: a cell created with domain size 9 shows [10 - p] at position [p].
    The working cell of [solve_backtrack_method] is a duplicate of the
    first record, strictly descending, and each trial takes the value at
    its position 1, the largest it still holds.  So the [while] loop tries
    the values from the largest down: when the call answers 1 it ends with
    the trial of a value [v] of the cell, after the trial of every larger
    value of the cell failed; when it answers 0 the trial of every value of
    the cell failed and the board is as it was.  (The trial of a value
    alone is the loop run on the working cell holding that value only.) *)
Theorem trials_take_largest_first
    (grid x y p depth fuel : nat) (board : Board) (unknowns : Linked_List Cell)
    (temp_cell : Cell) (rest : list Cell)
    (r : Z) (board' : Board) (unknowns' : Linked_List Cell) :
  1 <= p <= 9 ->
  front unknowns = temp_cell :: rest ->
  solve_backtrack_method (S depth) fuel board unknowns = Some (r, board', unknowns') ->
  let cell := duplicated temp_cell in
  let remaining := list_remove_ unknowns 1 in
  let trial v :=
    trial_loop (solve_backtrack_method depth fuel) fuel
      (cell_grid_pos cell) (cell_x_pos cell) (cell_y_pos cell)
      1 board remaining (cell_with_front cell [v]) in
  cell_inspect_eligible_values (cell_create grid x y 9) p = (10 - Z.of_nat p)%Z /\
  cell_duplicate temp_cell GRID_SIZE = Some cell /\
  StronglySorted Z.gt (eligible cell) /\
  (forall k,
     let cell_k := Nat.iter k (fun c => snd (next_trial c)) cell in
     0 < cell_eligible_values_length cell_k ->
     fst (next_trial cell_k) = cell_inspect_eligible_values cell_k 1 /\
     In (fst (next_trial cell_k)) (eligible cell_k) /\
     (forall v, In v (eligible cell_k) -> (v <= fst (next_trial cell_k))%Z)) /\
  ((r = SUCCESS_RET /\
    exists v, In v (eligible cell) /\
      trial v = Some (SUCCESS_RET, board', unknowns') /\
      forall w, In w (eligible cell) -> (v < w)%Z ->
        trial w = Some (STALEMATE_RET, board, remaining)) \/
   (r = STALEMATE_RET /\ board' = board /\
    forall w, In w (eligible cell) -> trial w = Some (STALEMATE_RET, board, remaining))).
Proof.
  intros Hp Hfront H cell remaining trial.
  pose proof (cell_duplicate_duplicated temp_cell) as Hdup. fold cell in Hdup.
  assert (Hsorted : StronglySorted Z.gt (eligible cell))
    by apply filter_descending_sorted.
  split.
  { clear -Hp. do 10 (destruct p as [|p]; [try lia; reflexivity|]). lia. }
  split; [exact Hdup|]. split; [exact Hsorted|]. split.
  { intros k cell_k Hlen.
    exact (proj2 (@next_trial_takes_largest grid x y p temp_cell cell k Hp Hdup Hlen)). }
  cbn [solve_backtrack_method] in H.
  assert (Hne : list_is_empty unknowns = false).
  { unfold list_is_empty. now rewrite Hfront. }
  rewrite Hne, (list_inspect_first unknowns Hfront) in H.
  destruct (cell_eligible_values_length temp_cell =? 0) eqn:E0.
  { apply Nat.eqb_eq in E0. rewrite E0 in H. injection H as <- <- <-.
    right. split; [reflexivity|]. split; [reflexivity|].
    intros w Hw. exfalso. apply eligible_duplicated in Hw.
    unfold cell_eligible_values_length, list_length in E0.
    apply length_zero_iff_nil in E0. unfold eligible in Hw. rewrite E0 in Hw.
    destruct Hw. }
  rewrite Hdup in H. cbv zeta in H. fold remaining in H.
  rewrite <- (cell_with_front_id cell) in H at 4.
  destruct (@trial_loop_first_success (solve_backtrack_method depth fuel) fuel
              (cell_grid_pos cell) (cell_x_pos cell) (cell_y_pos cell)
              board remaining cell
              (fun b l r0 b0 l0 => @backtrack_codes depth fuel b l r0 b0 l0)
              (eligible cell) fuel r board' unknowns'
              (wf_no_sentinel (duplicated_wf temp_cell)) H)
    as [(-> & pre & v & suf & Hsplit & Hok & Hpre) | (-> & -> & _ & Hall)].
  - left. split; [reflexivity|]. exists v. split.
    + rewrite Hsplit. apply in_or_app. right. now left.
    + split; [exact Hok|]. intros w Hw Hlt. apply Hpre.
      rewrite Hsplit in Hw, Hsorted. exact (@sorted_before pre suf v w Hsorted Hw Hlt).
  - right. split; [reflexivity|]. split; [reflexivity|exact Hall].
Qed.

(** On [board_second_trial] the elimination leaves seven records; the
    working cell of the search holds 8, 7 and 2, the trial of 8 fails, and
    the search settles (2,2,2) with 7. *)
Example search_second_trial :
  match solve_elimination_method 34 board_second_trial
          (empty_unknowns_list board_second_trial) with
  | Some (elret, board1, unknowns1) =>
      match front unknowns1 with
      | temp_cell :: _ =>
          elret = SUCCESS_RET /\
          cell_pos temp_cell = (2, 2, 2) /\
          eligible (duplicated temp_cell) = [8; 7; 2]%Z /\
          match solve_backtrack_method 8 9 board1 unknowns1 with
          | Some (r, board', _) => r = SUCCESS_RET /\ board' 2 2 2 = 7%Z
          | None => False
          end /\
          match trial_loop (solve_backtrack_method 7 9) 9 2 2 2 1 board1
                  (list_remove_ unknowns1 1)
                  (cell_with_front (duplicated temp_cell) [8%Z]) with
          | Some (r8, _, _) => r8 = STALEMATE_RET
          | None => False
          end
      | [] => False
      end
  | None => False
  end.
Proof. vm_compute. repeat split. Qed.

(** On [board_two_solutions] both 7 and 6 can be completed at (4,0,1); the
    search settles it with 7, the value tried first. *)
Example search_first_trial :
  match solve_elimination_method 9 board_two_solutions
          (empty_unknowns_list board_two_solutions) with
  | Some (elret, board1, unknowns1) =>
      match front unknowns1 with
      | temp_cell :: _ =>
          elret = SUCCESS_RET /\
          cell_pos temp_cell = (4, 0, 1) /\
          eligible (duplicated temp_cell) = [7; 6]%Z /\
          match solve_backtrack_method 5 9 board1 unknowns1 with
          | Some (r, board', _) => r = SUCCESS_RET /\ board' 4 0 1 = 7%Z
          | None => False
          end /\
          match trial_loop (solve_backtrack_method 4 9) 9 4 1 0 1 board1
                  (list_remove_ unknowns1 1)
                  (cell_with_front (duplicated temp_cell) [6%Z]) with
          | Some (r6, board6, _) => r6 = SUCCESS_RET /\ board6 4 0 1 = 6%Z
          | None => False
          end
      | [] => False
      end
  | None => False
  end.
Proof. vm_compute. repeat split. Qed.

Lemma trials_take_largest_first_witness :
  (exists board1 unknowns1 temp_cell rest board' unknowns',
     solve_elimination_method 34 board_second_trial
       (empty_unknowns_list board_second_trial) = Some (SUCCESS_RET, board1, unknowns1) /\
     front unknowns1 = temp_cell :: rest /\
     eligible (duplicated temp_cell) = [8; 7; 2]%Z /\
     solve_backtrack_method 8 9 board1 unknowns1 = Some (SUCCESS_RET, board', unknowns') /\
     board' 2 2 2 = 7%Z /\
     let cell := duplicated temp_cell in
     let remaining := list_remove_ unknowns1 1 in
     let trial v :=
       trial_loop (solve_backtrack_method 7 9) 9
         (cell_grid_pos cell) (cell_x_pos cell) (cell_y_pos cell)
         1 board1 remaining (cell_with_front cell [v]) in
     exists v, In v (eligible cell) /\
       trial v = Some (SUCCESS_RET, board', unknowns') /\
       forall w, In w (eligible cell) -> (v < w)%Z ->
         trial w = Some (STALEMATE_RET, board1, remaining)) /\
  (exists board1 unknowns1 temp_cell rest board' unknowns',
     solve_elimination_method 9 board_two_solutions
       (empty_unknowns_list board_two_solutions) = Some (SUCCESS_RET, board1, unknowns1) /\
     front unknowns1 = temp_cell :: rest /\
     eligible (duplicated temp_cell) = [7; 6]%Z /\
     solve_backtrack_method 5 9 board1 unknowns1 = Some (SUCCESS_RET, board', unknowns') /\
     board' 4 0 1 = 7%Z /\
     let cell := duplicated temp_cell in
     let remaining := list_remove_ unknowns1 1 in
     let trial v :=
       trial_loop (solve_backtrack_method 4 9) 9
         (cell_grid_pos cell) (cell_x_pos cell) (cell_y_pos cell)
         1 board1 remaining (cell_with_front cell [v]) in
     exists v, In v (eligible cell) /\
       trial v = Some (SUCCESS_RET, board', unknowns') /\
       forall w, In w (eligible cell) -> (v < w)%Z ->
         trial w = Some (STALEMATE_RET, board1, remaining)).
Proof.
  split.
  - pose proof search_second_trial as X.
    destruct (solve_elimination_method 34 board_second_trial
                (empty_unknowns_list board_second_trial))
      as [[[elret board1] unknowns1]|] eqn:Eel; [|contradiction].
    destruct (front unknowns1) as [|temp_cell rest] eqn:Efront; [contradiction|].
    destruct X as (-> & _ & Hel & Hbt & _).
    destruct (solve_backtrack_method 8 9 board1 unknowns1)
      as [[[r board'] unknowns']|] eqn:Ebt; [|contradiction].
    destruct Hbt as [-> H7].
    destruct (@trials_take_largest_first 0 2 1 3 7 9 board1 unknowns1 temp_cell rest
                SUCCESS_RET board' unknowns' ltac:(lia) Efront Ebt)
      as (_ & _ & _ & _ & [[_ Hv] | [Hr _]]); [|discriminate].
    exists board1, unknowns1, temp_cell, rest, board', unknowns'.
    split; [reflexivity|]. split; [exact Efront|]. split; [exact Hel|].
    split; [exact Ebt|]. split; [exact H7|exact Hv].
  - pose proof search_first_trial as X.
    destruct (solve_elimination_method 9 board_two_solutions
                (empty_unknowns_list board_two_solutions))
      as [[[elret board1] unknowns1]|] eqn:Eel; [|contradiction].
    destruct (front unknowns1) as [|temp_cell rest] eqn:Efront; [contradiction|].
    destruct X as (-> & _ & Hel & Hbt & _).
    destruct (solve_backtrack_method 5 9 board1 unknowns1)
      as [[[r board'] unknowns']|] eqn:Ebt; [|contradiction].
    destruct Hbt as [-> H7].
    destruct (@trials_take_largest_first 0 2 1 3 4 9 board1 unknowns1 temp_cell rest
                SUCCESS_RET board' unknowns' ltac:(lia) Efront Ebt)
      as (_ & _ & _ & _ & [[_ Hv] | [Hr _]]); [|discriminate].
    exists board1, unknowns1, temp_cell, rest, board', unknowns'.
    split; [reflexivity|]. split; [exact Efront|]. split; [exact Hel|].
    split; [exact Ebt|]. split; [exact H7|exact Hv].
Defined.
